(** * RepoDocAgent: the dashboard client, the database schema and the
      analysis pipeline they imply

    The development follows the repository's files:

    - [JsString]            strings of UTF-16 code units, [trim] and truthiness,
                            as the TypeScript sources use them;
    - [Api]                 [services/api.ts]: the types and the table of
                            requests the client can issue;
    - [AppStore]            [store/appStore.ts]: the zustand store;
    - [RepoUpload]          [components/RepoUpload.tsx]: [handleSubmit];
    - [DocumentationViewer] [components/DocumentationViewer.tsx]: the three
                            export handlers;
    - [Schema]              the SQL schema: column checks, defaults, foreign
                            keys with ON DELETE CASCADE;
    - [DocumentStore], [Pipeline]
                            the server side that the repository's sources
                            under study only imply, written from the
                            specification;
    - [SubmitFlow], [RequestFields]
                            [handleSubmit] from start to end, and the
                            fields of its request;
    - [ApiPaths]            the URL strings that [services/api.ts] builds;
    - [StoreActions]        sequences of actions on the store;
    - [RepoList]            [components/RepoList.tsx]: the badge, the
                            deletion, the cards;
    - [Statements]          scripts of INSERT and DELETE on the schema;
    - [ErrorBoundary]       [components/ErrorBoundary.tsx];
    - [DocumentationPage]   what [components/DocumentationViewer.tsx]
                            renders. *)

From Stdlib Require Import ZArith NArith List String Ascii Bool Lia Sorted.
From stdpp Require Import base option list strings gmap.
Import ListNotations.

Set Default Proof Using "Type".

(* ===================================================================== *)
(** * JavaScript strings *)
(* ===================================================================== *)

Module JsString.

(** A JavaScript string is a sequence of UTF-16 code units. *)
Definition code_unit := N.
Definition jsstring := list code_unit.

(** A literal of the source, all of whose characters are ASCII. *)
Definition js (s : string) : jsstring :=
  map N_of_ascii (list_ascii_of_string s).

(** ECMAScript [WhiteSpace] and [LineTerminator], the code units that
    [String.prototype.trim] strips. *)
Definition is_white_space (c : code_unit) : bool :=
  ((c =? 0x0009) || (c =? 0x000B) || (c =? 0x000C) || (c =? 0x0020) ||
   (c =? 0x00A0) || (c =? 0xFEFF) || (c =? 0x1680) ||
   ((0x2000 <=? c) && (c <=? 0x200A)) ||
   (c =? 0x202F) || (c =? 0x205F) || (c =? 0x3000))%N.

Definition is_line_terminator (c : code_unit) : bool :=
  ((c =? 0x000A) || (c =? 0x000D) || (c =? 0x2028) || (c =? 0x2029))%N.

Definition is_trimmed (c : code_unit) : bool :=
  is_white_space c || is_line_terminator c.

Fixpoint trimStart (s : jsstring) : jsstring :=
  match s with
  | [] => []
  | c :: s' => if is_trimmed c then trimStart s' else s
  end.

Definition trimEnd (s : jsstring) : jsstring := rev (trimStart (rev s)).

(** [s.trim()] *)
Definition trim (s : jsstring) : jsstring := trimEnd (trimStart s).

(** [ToBoolean] on a string: only the empty string is falsy. *)
Definition truthy (s : jsstring) : bool :=
  match s with [] => false | _ :: _ => true end.

(** [a || b] where [a] is a string. *)
Definition or_else {A} (inj : jsstring -> A) (a : jsstring) (b : A) : A :=
  if truthy a then inj a else b.

(** A number: a double, [(-1)^negative * mantissa * 2^exponent] when it
    is finite. *)
Inductive Number :=
  | NaN
  | Infinity (negative : bool)
  | Finite (negative : bool) (mantissa : N) (exponent : Z).

(** A value that is not typed by the source: [undefined], or what
    [JSON.parse] gives. *)
#[warnings="-register-all"] Inductive Value :=
  | Undefined
  | Null
  | Boolean (b : bool)
  | Num (x : Number)
  | Str (s : jsstring)
  | Array (items : list Value)
  | Object (members : list (jsstring * Value)).

(** [ToBoolean]: [undefined], [null], [false], [NaN], the zeros and the
    empty string are falsy; every array and every object is truthy. *)
Definition to_boolean (v : Value) : bool :=
  match v with
  | Undefined | Null => false
  | Boolean b => b
  | Num NaN => false
  | Num (Infinity _) => true
  | Num (Finite _ mantissa _) => negb (mantissa =? 0)%N
  | Str s => truthy s
  | Array _ | Object _ => true
  end.

(** [a || b] on values. *)
Definition value_or (a b : Value) : Value := if to_boolean a then a else b.

(** A string that is empty or holds only characters that [trim] strips. *)
Definition blank (s : jsstring) : bool := forallb is_trimmed s.

Definition all_trimmed (s : jsstring) : Prop :=
  Forall (fun c => is_trimmed c = true) s.

Lemma blank_spec s : blank s = true <-> all_trimmed s.
Proof.
  unfold blank, all_trimmed. induction s as [|c s IH]; simpl.
  - split; [constructor | reflexivity].
  - rewrite andb_true_iff, IH. split.
    + intros [Hc Hs]. constructor; assumption.
    + intros H. inversion H; subst. split; assumption.
Qed.

Lemma trimStart_nil_iff s : trimStart s = [] <-> all_trimmed s.
Proof.
  unfold all_trimmed. induction s as [|c s IH]; simpl.
  - split; [constructor | reflexivity].
  - destruct (is_trimmed c) eqn:Hc.
    + rewrite IH. split; intros H.
      * constructor; assumption.
      * inversion H; assumption.
    + split; [discriminate |].
      intros H. inversion H; congruence.
Qed.

Lemma trimEnd_nil_iff s : trimEnd s = [] <-> all_trimmed s.
Proof.
  unfold trimEnd, all_trimmed. split.
  - intros H. apply (f_equal (@rev _)) in H. rewrite rev_involutive in H.
    simpl in H. apply trimStart_nil_iff in H.
    rewrite <- (rev_involutive s). apply List.Forall_rev. exact H.
  - intros H. apply List.Forall_rev in H.
    apply trimStart_nil_iff in H. rewrite H. reflexivity.
Qed.

Lemma trimStart_suffix s : exists p, s = p ++ trimStart s /\ all_trimmed p.
Proof.
  induction s as [|c s [p [Hp Hb]]]; simpl.
  - exists []. split; [reflexivity | constructor].
  - destruct (is_trimmed c) eqn:Hc.
    + exists (c :: p). split; [simpl; congruence | constructor; assumption].
    + exists []. split; [reflexivity | constructor].
Qed.

(** [s.trim()] is the empty string exactly when [s] is blank. *)
Lemma trim_nil_iff s : trim s = [] <-> blank s = true.
Proof.
  rewrite blank_spec. unfold trim. rewrite trimEnd_nil_iff. split.
  - intros H. destruct (trimStart_suffix s) as [p [Hp Hb]].
    rewrite Hp. apply Forall_app. split; assumption.
  - intros H. apply trimStart_nil_iff in H. rewrite H. constructor.
Qed.

(** [!s.trim()] holds exactly for the blank strings. *)
Lemma truthy_trim s : truthy (trim s) = negb (blank s).
Proof.
  destruct (blank s) eqn:Hb; simpl.
  - apply trim_nil_iff in Hb. rewrite Hb. reflexivity.
  - destruct (trim s) eqn:Ht; [| reflexivity].
    apply trim_nil_iff in Ht. congruence.
Qed.

End JsString.

(* ===================================================================== *)
(** * services/api.ts: types *)
(* ===================================================================== *)

Module Api.
Import JsString.

(** [Repository['status']] *)
Inductive RepositoryStatus :=
  | pending | cloning | analyzing | generating_docs | completed | failed.

Record TechStack := {
  languages : list jsstring;
  frameworks : list jsstring;
  databases : list jsstring
}.

Record Content := {
  executive_summary : jsstring;
  product_overview : jsstring;
  key_features : list jsstring;
  tech_stack : TechStack;
  architecture : jsstring;
  use_cases : list jsstring;
  integrations : list jsstring;
  marketing_points : list jsstring
}.

Record Repository := {
  id : jsstring;
  url : jsstring;
  name : option jsstring;
  description : option jsstring;
  status : RepositoryStatus;
  last_commit_hash : option jsstring;
  branch : jsstring;
  monitoring_enabled : bool;
  error_message : option jsstring;
  last_analyzed_at : option jsstring;
  created_at : jsstring;
  updated_at : option jsstring
}.

Record Documentation := {
  doc_id : jsstring;
  repo_id : jsstring;
  version : Z;
  commit_hash : jsstring;
  content : Content;
  file_count : Z;
  lines_of_code : Z;
  doc_created_at : jsstring
}.

(** [RepositoryCreate]: the optional members are absent ([undefined]) or
    present. *)
Record RepositoryCreate := {
  rc_url : jsstring;
  rc_auth_token : option jsstring;
  rc_branch : option jsstring;
  rc_monitoring_enabled : option bool
}.

Record AnalysisResult := {
  success : bool;
  ar_repo_id : jsstring;
  documentation_id : option jsstring;
  ar_error : option jsstring;
  duration_seconds : Z
}.

(** ** The requests *)

Inductive Method := GET | POST | DELETE.

(** axios decodes a response as JSON unless [responseType] says otherwise. *)
Inductive ResponseType := json_response | blob_response.

Record Request := {
  method : Method;
  path : jsstring;
  data : option RepositoryCreate;
  responseType : ResponseType
}.

(** The functions that [api.ts] exports by name. *)
Inductive ApiFunction :=
  | analyzeRepository
  | getRepositories
  | getRepository
  | deleteRepository
  | getDocumentation
  | getDocumentationVersions
  | exportMarkdown
  | exportJSON
  | getMonitoringJobs.

Definition api_functions : list ApiFunction :=
  [analyzeRepository; getRepositories; getRepository; deleteRepository;
   getDocumentation; getDocumentationVersions; exportMarkdown; exportJSON;
   getMonitoringJobs].

(** The export table of the module: the names an [import { ... }] of
    [../services/api] can bind. *)
Definition exports : list (string * ApiFunction) :=
  [("analyzeRepository", analyzeRepository);
   ("getRepositories", getRepositories);
   ("getRepository", getRepository);
   ("deleteRepository", deleteRepository);
   ("getDocumentation", getDocumentation);
   ("getDocumentationVersions", getDocumentationVersions);
   ("exportMarkdown", exportMarkdown);
   ("exportJSON", exportJSON);
   ("getMonitoringJobs", getMonitoringJobs)]%string.

Fixpoint lookup_export (name : string) (table : list (string * ApiFunction))
    : option ApiFunction :=
  match table with
  | [] => None
  | (n, f) :: rest => if String.eqb n name then Some f else lookup_export name rest
  end.

(** The argument of a call: [analyzeRepository] takes the form data, the
    functions on one repository take its id, the listings take nothing. *)
Record Args := { arg_data : option RepositoryCreate; arg_repoId : jsstring }.

Definition method_of (f : ApiFunction) : Method :=
  match f with
  | analyzeRepository => POST
  | deleteRepository => DELETE
  | getRepositories | getRepository | getDocumentation
  | getDocumentationVersions | exportMarkdown | exportJSON
  | getMonitoringJobs => GET
  end.

Definition path_of (f : ApiFunction) (repoId : jsstring) : jsstring :=
  match f with
  | analyzeRepository => js "/api/repos/analyze"
  | getRepositories => js "/api/repos"
  | getRepository => js "/api/repos/" ++ repoId
  | deleteRepository => js "/api/repos/" ++ repoId
  | getDocumentation => js "/api/docs/" ++ repoId
  | getDocumentationVersions => js "/api/docs/" ++ repoId ++ js "/versions"
  | exportMarkdown => js "/api/docs/" ++ repoId ++ js "/export/markdown"
  | exportJSON => js "/api/docs/" ++ repoId ++ js "/export/json"
  | getMonitoringJobs => js "/api/monitoring/jobs"
  end.

Definition responseType_of (f : ApiFunction) : ResponseType :=
  match f with
  | exportMarkdown => blob_response
  | _ => json_response
  end.

(** The request that a call of [f] sends. *)
Definition request_of (f : ApiFunction) (a : Args) : Request :=
  {| method := method_of f;
     path := path_of f (arg_repoId a);
     data := match f with analyzeRepository => arg_data a | _ => None end;
     responseType := responseType_of f |}.

(** A GET asks for a representation and changes nothing; POST and DELETE
    are the requests that write. *)
Definition mutates (f : ApiFunction) : bool :=
  match method_of f with
  | GET => false
  | POST | DELETE => true
  end.

End Api.

(* ===================================================================== *)
(** * store/appStore.ts *)
(* ===================================================================== *)

Module AppStore.
Import JsString.

(** The data members of [AppState]. The six function members are created
    once and no [set] call names them, so they are the same in every
    state and are modelled as the functions below. *)
Record AppState := {
  repositories : list Api.Repository;
  currentRepo : option Api.Repository;
  currentDoc : option Api.Documentation;
  isLoading : bool;
  error : option jsstring
}.

(** The object handed to zustand's [set]: each key is absent or present;
    a present key may hold [null]. *)
Record PartialState := {
  p_repositories : option (list Api.Repository);
  p_currentRepo : option (option Api.Repository);
  p_currentDoc : option (option Api.Documentation);
  p_isLoading : option bool;
  p_error : option (option jsstring)
}.

Definition no_keys : PartialState :=
  {| p_repositories := None; p_currentRepo := None; p_currentDoc := None;
     p_isLoading := None; p_error := None |}.

(** One key of [Object.assign({}, state, partial)]. *)
Definition assign {A} (old : A) (new : option A) : A :=
  match new with Some v => v | None => old end.

(** zustand's [set(partial)] without [replace]: a shallow merge. *)
Definition zustand_set (partial : PartialState) (s : AppState) : AppState :=
  {| repositories := assign (repositories s) (p_repositories partial);
     currentRepo := assign (currentRepo s) (p_currentRepo partial);
     currentDoc := assign (currentDoc s) (p_currentDoc partial);
     isLoading := assign (isLoading s) (p_isLoading partial);
     error := assign (error s) (p_error partial) |}.

(** The initial state of [create<AppState>(...)]. *)
Definition initial : AppState :=
  {| repositories := []; currentRepo := None; currentDoc := None;
     isLoading := false; error := None |}.

Definition setRepositories (repos : list Api.Repository) : AppState -> AppState :=
  zustand_set {| p_repositories := Some repos; p_currentRepo := None;
                 p_currentDoc := None; p_isLoading := None; p_error := None |}.

Definition setCurrentRepo (repo : option Api.Repository) : AppState -> AppState :=
  zustand_set {| p_repositories := None; p_currentRepo := Some repo;
                 p_currentDoc := None; p_isLoading := None; p_error := None |}.

Definition setCurrentDoc (doc : option Api.Documentation) : AppState -> AppState :=
  zustand_set {| p_repositories := None; p_currentRepo := None;
                 p_currentDoc := Some doc; p_isLoading := None; p_error := None |}.

Definition setLoading (loading : bool) : AppState -> AppState :=
  zustand_set {| p_repositories := None; p_currentRepo := None;
                 p_currentDoc := None; p_isLoading := Some loading; p_error := None |}.

Definition setError (e : option jsstring) : AppState -> AppState :=
  zustand_set {| p_repositories := None; p_currentRepo := None;
                 p_currentDoc := None; p_isLoading := None; p_error := Some e |}.

Definition clearError : AppState -> AppState :=
  zustand_set {| p_repositories := None; p_currentRepo := None;
                 p_currentDoc := None; p_isLoading := None; p_error := Some None |}.

(** Two states agree on every member but the named one. *)
Definition same_but_repositories (s t : AppState) : Prop :=
  currentRepo t = currentRepo s /\ currentDoc t = currentDoc s /\
  isLoading t = isLoading s /\ error t = error s.

Definition same_but_currentRepo (s t : AppState) : Prop :=
  repositories t = repositories s /\ currentDoc t = currentDoc s /\
  isLoading t = isLoading s /\ error t = error s.

Definition same_but_currentDoc (s t : AppState) : Prop :=
  repositories t = repositories s /\ currentRepo t = currentRepo s /\
  isLoading t = isLoading s /\ error t = error s.

Definition same_but_isLoading (s t : AppState) : Prop :=
  repositories t = repositories s /\ currentRepo t = currentRepo s /\
  currentDoc t = currentDoc s /\ error t = error s.

Definition same_but_error (s t : AppState) : Prop :=
  repositories t = repositories s /\ currentRepo t = currentRepo s /\
  currentDoc t = currentDoc s /\ isLoading t = isLoading s.

Lemma zustand_set_no_keys s : zustand_set no_keys s = s.
Proof. destruct s; reflexivity. Qed.

(** C8. For every store state, [clearError] yields a state whose [error] is
    [null] and whose [repositories], [currentRepo], [currentDoc] and
    [isLoading] are those of the original state; and each of
    [setRepositories], [setCurrentRepo], [setCurrentDoc], [setLoading],
    [setError] stores its argument in its own member and leaves the four
    other members as they were. *)
Theorem setters_change_only_their_field (s : AppState) :
  (error (clearError s) = None /\ same_but_error s (clearError s)) /\
  (forall repos, repositories (setRepositories repos s) = repos /\
                 same_but_repositories s (setRepositories repos s)) /\
  (forall repo, currentRepo (setCurrentRepo repo s) = repo /\
                same_but_currentRepo s (setCurrentRepo repo s)) /\
  (forall doc, currentDoc (setCurrentDoc doc s) = doc /\
               same_but_currentDoc s (setCurrentDoc doc s)) /\
  (forall loading, isLoading (setLoading loading s) = loading /\
                   same_but_isLoading s (setLoading loading s)) /\
  (forall e, error (setError e s) = e /\ same_but_error s (setError e s)).
Proof.
  unfold same_but_error, same_but_repositories, same_but_currentRepo,
    same_but_currentDoc, same_but_isLoading.
  repeat split; reflexivity.
Qed.

End AppStore.

(* ===================================================================== *)
(** * The database schema *)
(* ===================================================================== *)

Module Schema.

(** SQL types of the schema. A UUID is an opaque key; INTEGER is kept a
    mathematical integer; JSONB is kept as its text. *)
Abbreviation UUID := nat (only parsing).
Abbreviation TEXT := string (only parsing).
Abbreviation TIMESTAMP := Z (only parsing).
Abbreviation JSONB := string (only parsing).
Abbreviation INTEGER := Z (only parsing).

(** A column value that an INSERT may leave out, falling back on the
    column's DEFAULT. *)
Definition with_default {A} (given : option A) (default : A) : A :=
  match given with Some v => v | None => default end.

(** [x IN (v1, ..., vn)] on TEXT. *)
Definition text_in (x : TEXT) (vs : list TEXT) : bool :=
  existsb (String.eqb x) vs.

(** ** Table [repositories] *)
Module repositories.

(** [CHECK (status IN ('pending', 'cloning', 'analyzing',
    'generating_docs', 'completed', 'failed'))] *)
Definition status_values : list TEXT :=
  ["pending"; "cloning"; "analyzing"; "generating_docs"; "completed"; "failed"]%string.

Definition status_check (status : TEXT) : bool := text_in status status_values.

(** The text that the client's union type and the CHECK share. *)
Definition status_text (s : Api.RepositoryStatus) : TEXT :=
  match s with
  | Api.pending => "pending"
  | Api.cloning => "cloning"
  | Api.analyzing => "analyzing"
  | Api.generating_docs => "generating_docs"
  | Api.completed => "completed"
  | Api.failed => "failed"
  end%string.

(** A stored row, keyed by its [id] in the table. A NOT NULL column
    holds a value, a nullable one an option. [status] passed its
    CHECK, so it is one of the six values. *)
Record row := {
  url : TEXT;
  name : option TEXT;
  description : option TEXT;
  status : Api.RepositoryStatus;
  last_commit_hash : option TEXT;
  branch : TEXT;
  monitoring_enabled : bool;
  webhook_id : option TEXT;
  error_message : option TEXT;
  last_analyzed_at : option TIMESTAMP;
  created_at : TIMESTAMP;
  updated_at : option TIMESTAMP
}.

(** The column values of an INSERT: [url] and [status] are NOT NULL
    without DEFAULT and have to be given; [branch],
    [monitoring_enabled] and [created_at] may be left out. *)
Record values := {
  v_url : TEXT;
  v_name : option TEXT;
  v_description : option TEXT;
  v_status : TEXT;
  v_last_commit_hash : option TEXT;
  v_branch : option TEXT;
  v_monitoring_enabled : option bool;
  v_webhook_id : option TEXT;
  v_error_message : option TEXT;
  v_last_analyzed_at : option TIMESTAMP;
  v_created_at : option TIMESTAMP;
  v_updated_at : option TIMESTAMP
}.

(** [branch TEXT NOT NULL DEFAULT 'main'] *)
Definition default_branch : TEXT := "main"%string.
(** [monitoring_enabled BOOLEAN NOT NULL DEFAULT true] *)
Definition default_monitoring_enabled : bool := true.

Definition parse_status (t : TEXT) : option Api.RepositoryStatus :=
  if String.eqb t "pending" then Some Api.pending
  else if String.eqb t "cloning" then Some Api.cloning
  else if String.eqb t "analyzing" then Some Api.analyzing
  else if String.eqb t "generating_docs" then Some Api.generating_docs
  else if String.eqb t "completed" then Some Api.completed
  else if String.eqb t "failed" then Some Api.failed
  else None.

(** The row an INSERT stores at time [now], or [None] when the CHECK
    rejects it. *)
Definition new_row (now : TIMESTAMP) (v : values) : option row :=
  if status_check (v_status v) then
    match parse_status (v_status v) with
    | Some s =>
        Some {| url := v_url v; name := v_name v;
                description := v_description v; status := s;
                last_commit_hash := v_last_commit_hash v;
                branch := with_default (v_branch v) default_branch;
                monitoring_enabled :=
                  with_default (v_monitoring_enabled v) default_monitoring_enabled;
                webhook_id := v_webhook_id v;
                error_message := v_error_message v;
                last_analyzed_at := v_last_analyzed_at v;
                created_at := with_default (v_created_at v) now;
                updated_at := v_updated_at v |}
    | None => None
    end
  else None.

End repositories.

(** ** Table [documentation] *)
Module documentation.

Record row := {
  id : UUID;
  repo_id : UUID;
  version : INTEGER;
  commit_hash : TEXT;
  content : JSONB;
  file_count : INTEGER;
  lines_of_code : INTEGER;
  created_at : TIMESTAMP
}.

(** [version INTEGER NOT NULL DEFAULT 1] *)
Definition default_version : INTEGER := 1%Z.
(** [file_count], [lines_of_code]: [INTEGER NOT NULL DEFAULT 0] *)
Definition default_file_count : INTEGER := 0%Z.
Definition default_lines_of_code : INTEGER := 0%Z.

End documentation.

(** ** Table [monitoring_jobs] *)
Module monitoring_jobs.

(** [CHECK (status IN ('pending', 'running', 'completed', 'failed'))] *)
Definition status_values : list TEXT :=
  ["pending"; "running"; "completed"; "failed"]%string.

Definition status_check (status : TEXT) : bool := text_in status status_values.

Inductive Status := pending | running | completed | failed.

Definition status_text (s : Status) : TEXT :=
  match s with
  | pending => "pending"
  | running => "running"
  | completed => "completed"
  | failed => "failed"
  end%string.

Record row := {
  repo_id : UUID;
  status : Status;
  trigger_type : TEXT;
  changes_detected : option JSONB;
  error_message : option TEXT;
  retry_count : INTEGER;
  started_at : option TIMESTAMP;
  completed_at : option TIMESTAMP;
  created_at : TIMESTAMP
}.

(** [retry_count INTEGER NOT NULL DEFAULT 0] *)
Definition default_retry_count : INTEGER := 0%Z.

End monitoring_jobs.

#[global] Instance repository_status_eq_dec : EqDecision Api.RepositoryStatus.
Proof. solve_decision. Defined.

#[global] Instance job_status_eq_dec : EqDecision monitoring_jobs.Status.
Proof. solve_decision. Defined.

(** ** The database *)

(** [repositories] and [monitoring_jobs] are keyed by their primary key;
    [documentation] is kept in insertion order. *)
Record Database := {
  db_repositories : gmap nat repositories.row;
  db_documentation : list documentation.row;
  db_monitoring_jobs : gmap nat monitoring_jobs.row
}.

Definition empty : Database :=
  {| db_repositories := ∅; db_documentation := []; db_monitoring_jobs := ∅ |}.

(** The referential action of a foreign key. *)
Inductive OnDelete := NoAction | Cascade.

(** [documentation.repo_id UUID NOT NULL REFERENCES repositories(id)
    ON DELETE CASCADE] *)
Definition documentation_repo_id_on_delete : OnDelete := Cascade.
(** [monitoring_jobs.repo_id UUID NOT NULL REFERENCES repositories(id)
    ON DELETE CASCADE] *)
Definition monitoring_jobs_repo_id_on_delete : OnDelete := Cascade.

(** What the deletion of the parent row [k] does to a child table: with
    CASCADE the referencing rows go too; without it the deletion is
    refused while a row still references [k]. *)
Definition on_delete_list {Row} (a : OnDelete) (parent : Row -> nat) (k : nat)
    (rows : list Row) : option (list Row) :=
  match a with
  | Cascade => Some (filter (fun r => parent r <> k) rows)
  | NoAction =>
      if decide (Forall (fun r => parent r <> k) rows) then Some rows else None
  end.

Definition on_delete_map {Row} (a : OnDelete) (parent : Row -> nat) (k : nat)
    (rows : gmap nat Row) : option (gmap nat Row) :=
  match a with
  | Cascade => Some (filter (fun kv => parent kv.2 <> k) rows)
  | NoAction =>
      if decide (map_Forall (fun _ r => parent r <> k) rows) then Some rows else None
  end.

(** [DELETE FROM repositories WHERE id = k] *)
Definition delete_repository (k : nat) (db : Database) : option Database :=
  match db_repositories db !! k with
  | None => Some db
  | Some _ =>
      docs ← on_delete_list documentation_repo_id_on_delete
                documentation.repo_id k (db_documentation db);
      jobs ← on_delete_map monitoring_jobs_repo_id_on_delete
                monitoring_jobs.repo_id k (db_monitoring_jobs db);
      Some {| db_repositories := delete k (db_repositories db);
              db_documentation := docs;
              db_monitoring_jobs := jobs |}
  end.

(** [INSERT INTO documentation]: the primary key is new and the foreign
    key names a stored repository. *)
Definition insert_documentation (d : documentation.row) (db : Database) : option Database :=
  if decide (is_Some (db_repositories db !! documentation.repo_id d)
             /\ Forall (fun d' => documentation.id d' <> documentation.id d)
                       (db_documentation db))
  then Some {| db_repositories := db_repositories db;
               db_documentation := db_documentation db ++ [d];
               db_monitoring_jobs := db_monitoring_jobs db |}
  else None.

(** [INSERT INTO monitoring_jobs] *)
Definition insert_monitoring_job (k : nat) (j : monitoring_jobs.row) (db : Database)
    : option Database :=
  if decide (is_Some (db_repositories db !! monitoring_jobs.repo_id j)
             /\ db_monitoring_jobs db !! k = None)
  then Some {| db_repositories := db_repositories db;
               db_documentation := db_documentation db;
               db_monitoring_jobs := <[k := j]> (db_monitoring_jobs db) |}
  else None.

(** [INSERT INTO repositories] *)
Definition insert_repository (k : nat) (now : Z) (v : repositories.values)
    (db : Database) : option Database :=
  match db_repositories db !! k, repositories.new_row now v with
  | None, Some r =>
      Some {| db_repositories := <[k := r]> (db_repositories db);
              db_documentation := db_documentation db;
              db_monitoring_jobs := db_monitoring_jobs db |}
  | _, _ => None
  end.

(** [UPDATE repositories SET ... WHERE id = k] *)
Definition update_repository (k : nat) (f : repositories.row -> repositories.row)
    (db : Database) : Database :=
  {| db_repositories := alter f k (db_repositories db);
     db_documentation := db_documentation db;
     db_monitoring_jobs := db_monitoring_jobs db |}.

(** [UPDATE monitoring_jobs SET ... WHERE id = k] *)
Definition update_monitoring_job (k : nat)
    (f : monitoring_jobs.row -> monitoring_jobs.row) (db : Database) : Database :=
  {| db_repositories := db_repositories db;
     db_documentation := db_documentation db;
     db_monitoring_jobs := alter f k (db_monitoring_jobs db) |}.

(** The rows of the child tables that reference repository [k]. *)
Definition documentation_of (k : nat) (db : Database) : list documentation.row :=
  filter (fun d => documentation.repo_id d = k) (db_documentation db).

Definition monitoring_jobs_of (k : nat) (db : Database) : gmap nat monitoring_jobs.row :=
  filter (fun kv => monitoring_jobs.repo_id kv.2 = k) (db_monitoring_jobs db).

End Schema.

(* ===================================================================== *)
(** * components/RepoUpload.tsx *)
(* ===================================================================== *)

Module RepoUpload.
Import JsString.

(** The [useState] cells of the component. *)
Record SubmitResult := { success : bool; message : Value }.

Record Component := {
  url : jsstring;
  authToken : jsstring;
  branch : jsstring;
  isSubmitting : bool;
  result : option SubmitResult
}.

(** [useState('')], [useState('')], [useState('main')], [useState(false)],
    [useState(null)]. *)
Definition initial : Component :=
  {| url := []; authToken := []; branch := js "main";
     isSubmitting := false; result := None |}.

(** What [handleSubmit] reads of what the request threw, which it takes
    as [any]: [error.response?.data?.detail], whatever value the body of
    the answer holds under [detail] ([undefined] when there is no answer,
    no body or no such member), and [error.message]. *)
Record Rejection := { detail : Value; error_message : Value }.

(** How the awaited [analyzeRepository(...)] settles. *)
Inductive Settled :=
  | Fulfilled (response : Api.AnalysisResult)
  | Rejected (error : Rejection).

(** What [handleSubmit] does, in program order. *)
Inductive Effect :=
  | PreventDefault
  | StoreSetError (e : option jsstring)
  | SetIsSubmitting (b : bool)
  | SetResult (r : option SubmitResult)
  | AnalyzeRepository (data : Api.RepositoryCreate)
  | SetUrl (s : jsstring)
  | SetAuthToken (s : jsstring)
  | SetBranch (s : jsstring)
  | SetTimeout (ms : Z).

(** [a || b] where [a] is a string, [null] or [undefined]. *)
Definition opt_or_else (a : option jsstring) (b : jsstring) : jsstring :=
  match a with
  | Some s => or_else (fun x => x) s b
  | None => b
  end.

Definition request (c : Component) : Api.RepositoryCreate :=
  {| Api.rc_url := trim (url c);
     Api.rc_auth_token := or_else Some (trim (authToken c)) None;
     Api.rc_branch := Some (or_else (fun x => x) (trim (branch c)) (js "main"));
     Api.rc_monitoring_enabled := Some true |}.

Definition handleSubmit (c : Component) (server : Api.RepositoryCreate -> Settled)
    : list Effect :=
  PreventDefault ::
  if negb (truthy (trim (url c))) then
    [StoreSetError (Some (js "Please enter a repository URL"))]
  else
    [SetIsSubmitting true; SetResult None; StoreSetError None;
     AnalyzeRepository (request c)]
    ++ match server (request c) with
       | Fulfilled response =>
           if Api.success response then
             [SetResult (Some {| success := true;
                                 message := Str (js "Analysis started! Repository ID: "
                                                 ++ Api.ar_repo_id response) |});
              SetUrl []; SetAuthToken []; SetBranch (js "main");
              SetTimeout 2000]
           else
             [SetResult (Some {| success := false;
                                 message := Str (opt_or_else (Api.ar_error response)
                                                   (js "Analysis failed")) |})]
       | Rejected error =>
           [SetResult (Some {| success := false;
                               message :=
                                 value_or (detail error)
                                   (value_or (error_message error)
                                      (Str (js "Failed to start analysis"))) |})]
       end
    ++ [SetIsSubmitting false].

(** The effect of one step on the component's cells and on the store. *)
Definition apply_effect (st : Component * AppStore.AppState) (e : Effect)
    : Component * AppStore.AppState :=
  let (c, store) := st in
  match e with
  | PreventDefault => (c, store)
  | StoreSetError err => (c, AppStore.setError err store)
  | SetIsSubmitting b =>
      ({| url := url c; authToken := authToken c; branch := branch c;
          isSubmitting := b; result := result c |}, store)
  | SetResult r =>
      ({| url := url c; authToken := authToken c; branch := branch c;
          isSubmitting := isSubmitting c; result := r |}, store)
  | AnalyzeRepository _ => (c, store)
  | SetUrl s =>
      ({| url := s; authToken := authToken c; branch := branch c;
          isSubmitting := isSubmitting c; result := result c |}, store)
  | SetAuthToken s =>
      ({| url := url c; authToken := s; branch := branch c;
          isSubmitting := isSubmitting c; result := result c |}, store)
  | SetBranch s =>
      ({| url := url c; authToken := authToken c; branch := s;
          isSubmitting := isSubmitting c; result := result c |}, store)
  | SetTimeout _ => (c, store)
  end.

Definition submit (c : Component) (store : AppStore.AppState)
    (server : Api.RepositoryCreate -> Settled) : Component * AppStore.AppState :=
  fold_left apply_effect (handleSubmit c server) (c, store).

(** The requests that reach [analyzeRepository]. *)
Definition analyze_requests (es : list Effect) : list Api.RepositoryCreate :=
  omap (fun e => match e with AnalyzeRepository d => Some d | _ => None end) es.

(** The writes to the component's own cells. *)
Definition changes_component (e : Effect) : bool :=
  match e with
  | SetIsSubmitting _ | SetResult _ | SetUrl _ | SetAuthToken _ | SetBranch _ => true
  | _ => false
  end.

(** C9. When the URL field is empty or holds only whitespace, submitting
    does [preventDefault], sets the store's error to
    'Please enter a repository URL' and returns: no request reaches
    [analyzeRepository], no cell of the component is written, the
    component is as before, and the store differs in [error] only. *)
Theorem handleSubmit_blank_url (c : Component) (store : AppStore.AppState)
    (server : Api.RepositoryCreate -> Settled) :
  blank (url c) = true ->
  handleSubmit c server =
    [PreventDefault; StoreSetError (Some (js "Please enter a repository URL"))] /\
  analyze_requests (handleSubmit c server) = [] /\
  filter (fun e => changes_component e = true) (handleSubmit c server) = [] /\
  (submit c store server).1 = c /\
  AppStore.error (submit c store server).2 = Some (js "Please enter a repository URL") /\
  AppStore.same_but_error store (submit c store server).2.
Proof.
  intros Hb.
  assert (He : handleSubmit c server =
    [PreventDefault; StoreSetError (Some (js "Please enter a repository URL"))]).
  { unfold handleSubmit. rewrite truthy_trim, Hb. reflexivity. }
  unfold submit. rewrite He. unfold AppStore.same_but_error.
  repeat split; reflexivity.
Qed.

Lemma handleSubmit_blank_url_witness :
  let c := {| url := js "   "; authToken := js "ghp_x"; branch := js "dev";
              isSubmitting := false; result := None |} in
  let server := fun _ => Rejected {| detail := Undefined; error_message := Undefined |} in
  analyze_requests (handleSubmit c server) = [] /\
  (submit c AppStore.initial server).1 = c.
Proof.
  intros c server.
  destruct (handleSubmit_blank_url c AppStore.initial server eq_refl)
    as (_ & Hreq & _ & Hc & _).
  split; assumption.
Defined.

Lemma analyze_requests_handleSubmit c server :
  analyze_requests (handleSubmit c server) =
  if blank (url c) then [] else [request c].
Proof.
  unfold handleSubmit. rewrite truthy_trim.
  destruct (blank (url c)); simpl; [reflexivity |].
  unfold analyze_requests. simpl. f_equal.
  rewrite omap_app.
  destruct (server (request c)) as [response | error];
    [destruct (Api.success response) |]; reflexivity.
Qed.

(** A status that passes the CHECK is one of the six of the union. *)
Lemma checked_status_parses (t : string) :
  Schema.repositories.status_check t = true ->
  exists st, Schema.repositories.parse_status t = Some st.
Proof.
  unfold Schema.repositories.status_check, Schema.text_in,
    Schema.repositories.status_values, Schema.repositories.parse_status.
  simpl. intros H.
  repeat (destruct (String.eqb t _); [eexists; reflexivity |]).
  discriminate H.
Qed.

(** An INSERT whose status passes the CHECK is stored, with the DEFAULT
    of every column that it leaves out. *)
Lemma new_row_stored (now : Z) (v : Schema.repositories.values) :
  Schema.repositories.status_check (Schema.repositories.v_status v) = true ->
  exists r,
    Schema.repositories.new_row now v = Some r /\
    Schema.repositories.branch r =
      Schema.with_default (Schema.repositories.v_branch v)
        Schema.repositories.default_branch.
Proof.
  intros Hc. unfold Schema.repositories.new_row. rewrite Hc.
  destruct (checked_status_parses _ Hc) as [st ->]. eexists. split; reflexivity.
Qed.

(** Against C10 as stated. A URL field that holds one space is not
    empty, and the branch and token fields are blank; yet no request is
    sent, with branch 'main' or otherwise, whatever the server would
    answer: the guard of [handleSubmit] is on the trimmed URL. *)
Lemma whitespace_url_sends_nothing :
  let c := {| url := js " "; authToken := []; branch := [];
              isSubmitting := false; result := None |} in
  url c <> [] /\
  blank (branch c) = true /\ blank (authToken c) = true /\
  (forall server, analyze_requests (handleSubmit c server) = []) /\
  (forall server,
     handleSubmit c server =
       [PreventDefault; StoreSetError (Some (js "Please enter a repository URL"))]).
Proof.
  intros c. split; [discriminate |]. repeat split; reflexivity.
Qed.

(** C10, amended. Submitting issues no analyze request when the URL field
    is blank (empty or whitespace only) and exactly one when it is not;
    the request carries the trimmed URL and [monitoring_enabled: true]; a
    blank branch field gives [branch = 'main'] and any other its trimmed
    text; a blank token field gives [auth_token = undefined] and any
    other its trimmed text. On its side the schema defaults the branch:
    an INSERT into [repositories] that passes the CHECK and leaves
    [branch] out is stored, under a new key, with [branch = 'main'], and
    one that gives a branch is stored with that branch. *)
Theorem handleSubmit_request_defaults (c : Component)
    (server : Api.RepositoryCreate -> Settled) :
  analyze_requests (handleSubmit c server) =
    (if blank (url c) then [] else [request c]) /\
  Api.rc_url (request c) = trim (url c) /\
  Api.rc_monitoring_enabled (request c) = Some true /\
  Api.rc_branch (request c) =
    Some (if blank (branch c) then js "main" else trim (branch c)) /\
  Api.rc_auth_token (request c) =
    (if blank (authToken c) then None else Some (trim (authToken c))) /\
  (forall now v r,
     Schema.repositories.v_branch v = None ->
     Schema.repositories.new_row now v = Some r ->
     Schema.repositories.branch r = "main"%string) /\
  (forall k now v db,
     Schema.repositories.status_check (Schema.repositories.v_status v) = true ->
     Schema.repositories.v_branch v = None ->
     Schema.db_repositories db !! k = None ->
     exists db' r,
       Schema.insert_repository k now v db = Some db' /\
       Schema.db_repositories db' !! k = Some r /\
       Schema.repositories.branch r = "main"%string) /\
  (forall k now v db b,
     Schema.repositories.status_check (Schema.repositories.v_status v) = true ->
     Schema.repositories.v_branch v = Some b ->
     Schema.db_repositories db !! k = None ->
     exists db' r,
       Schema.insert_repository k now v db = Some db' /\
       Schema.db_repositories db' !! k = Some r /\
       Schema.repositories.branch r = b).
Proof.
  split; [apply analyze_requests_handleSubmit |].
  split; [reflexivity |]. split; [reflexivity |].
  split.
  { unfold request, or_else; simpl. rewrite truthy_trim.
    destruct (blank (branch c)); reflexivity. }
  split.
  { unfold request, or_else; simpl. rewrite truthy_trim.
    destruct (blank (authToken c)); reflexivity. }
  split.
  { intros now v r Hv Hr. unfold Schema.repositories.new_row in Hr.
    destruct (Schema.repositories.status_check _); [| discriminate].
    destruct (Schema.repositories.parse_status _); [| discriminate].
    injection Hr as <-. simpl. rewrite Hv. reflexivity. }
  split.
  - intros k now v db Hc Hv Hk.
    destruct (new_row_stored now v Hc) as (r & Hr & Hb).
    unfold Schema.insert_repository. rewrite Hk, Hr. do 2 eexists.
    split; [reflexivity |]. simpl. rewrite lookup_insert_eq.
    split; [reflexivity |]. rewrite Hb, Hv. reflexivity.
  - intros k now v db b Hc Hv Hk.
    destruct (new_row_stored now v Hc) as (r & Hr & Hb).
    unfold Schema.insert_repository. rewrite Hk, Hr. do 2 eexists.
    split; [reflexivity |]. simpl. rewrite lookup_insert_eq.
    split; [reflexivity |]. rewrite Hb, Hv. reflexivity.
Qed.

(** A URL with spaces around it, a token field of spaces, an empty branch
    field: one request, for the trimmed URL, on branch 'main', without
    token. And a row inserted into the empty database with status
    'pending' and no branch is stored on branch 'main'. *)
Lemma handleSubmit_request_defaults_witness :
  let c := {| url := js " https://github.com/o/r "; authToken := js "  ";
              branch := js ""; isSubmitting := false; result := None |} in
  let server := fun _ => Rejected {| detail := Undefined; error_message := Undefined |} in
  let v := {| Schema.repositories.v_url := "https://github.com/o/r";
              Schema.repositories.v_name := None;
              Schema.repositories.v_description := None;
              Schema.repositories.v_status := "pending";
              Schema.repositories.v_last_commit_hash := None;
              Schema.repositories.v_branch := None;
              Schema.repositories.v_monitoring_enabled := None;
              Schema.repositories.v_webhook_id := None;
              Schema.repositories.v_error_message := None;
              Schema.repositories.v_last_analyzed_at := None;
              Schema.repositories.v_created_at := None;
              Schema.repositories.v_updated_at := None |} in
  analyze_requests (handleSubmit c server) =
    [{| Api.rc_url := js "https://github.com/o/r";
        Api.rc_auth_token := None;
        Api.rc_branch := Some (js "main");
        Api.rc_monitoring_enabled := Some true |}] /\
  exists db' r,
    Schema.insert_repository 1 0 v Schema.empty = Some db' /\
    Schema.db_repositories db' !! 1%nat = Some r /\
    Schema.repositories.branch r = "main"%string.
Proof.
  intros c server v.
  destruct (handleSubmit_request_defaults c server) as (Hreq & _ & _ & _ & _ & _ & Hins & _).
  split; [rewrite Hreq; reflexivity |].
  exact (Hins 1%nat 0%Z v Schema.empty eq_refl eq_refl eq_refl).
Defined.

End RepoUpload.

(* ===================================================================== *)
(** * The API surface: what writes and what reads *)
(* ===================================================================== *)

Module ApiSurface.
Import JsString Api.

(** The operations that the specification exempts from read-only
    access to the persisted entities. *)
Inductive Exempted := RepositoryCreate_op | RepositoryDelete_op | JobListing_op | ManualTrigger_op.

(** The function of [api.ts] behind each of them. The client has one
    function per request; which of them, if any, counts as the manual
    trigger is left open as [trigger]. *)
Definition carried_by (trigger : option ApiFunction) (op : Exempted)
    : option ApiFunction :=
  match op with
  | RepositoryCreate_op => Some analyzeRepository
  | RepositoryDelete_op => Some deleteRepository
  | JobListing_op => Some getMonitoringJobs
  | ManualTrigger_op => trigger
  end.

(** "Read-only except for repository create, repository delete, job
    listing, manual trigger": the functions that write are exactly those
    behind the four exempted operations. *)
Definition read_only_except (trigger : option ApiFunction) : Prop :=
  forall f, mutates f = true <-> exists op, carried_by trigger op = Some f.

Lemma method_of_request f a : method (request_of f a) = method_of f.
Proof. reflexivity. Qed.

(** Against C7 as stated. The job listing is a GET of
    [/api/monitoring/jobs]: it only reads, so the four exempted
    operations are not all writes, whichever function is taken for the
    manual trigger. *)
Lemma job_listing_only_reads :
  request_of getMonitoringJobs {| arg_data := None; arg_repoId := [] |} =
    {| method := GET; path := js "/api/monitoring/jobs"; data := None;
       responseType := json_response |} /\
  mutates getMonitoringJobs = false /\
  forall trigger, ~ read_only_except trigger.
Proof.
  split; [reflexivity |]. split; [reflexivity |].
  intros trigger H.
  destruct (H getMonitoringJobs) as [_ Hw].
  assert (Hm : mutates getMonitoringJobs = true).
  { apply Hw. exists JobListing_op. reflexivity. }
  discriminate Hm.
Qed.

(** C7, amended. Of the nine functions of the client exactly two send a
    request that writes: [analyzeRepository], the POST of
    [/api/repos/analyze] that creates a repository from the form data and
    has it analysed, and [deleteRepository], the DELETE of
    [/api/repos/{id}]. The seven others, the job listing among them, send
    a GET without a body. No function other than [analyzeRepository]
    posts, so there is no separate request that triggers a run for a
    repository that exists. *)
Theorem only_analyze_and_delete_write :
  (forall f, mutates f = true <-> f = analyzeRepository \/ f = deleteRepository) /\
  (forall f a, mutates f = false ->
     method (request_of f a) = GET /\ data (request_of f a) = None) /\
  mutates getMonitoringJobs = false /\
  (forall f, method_of f = POST -> f = analyzeRepository) /\
  (forall f, In f api_functions) /\
  (forall f, exists n, lookup_export n exports = Some f).
Proof.
  split.
  { intros f. split.
    - destruct f; simpl; intros H; try discriminate H; auto.
    - intros [-> | ->]; reflexivity. }
  split.
  { intros f a. destruct f; simpl; intros H; try discriminate H; split; reflexivity. }
  split; [reflexivity |].
  split.
  { intros f. destruct f; simpl; intros H; try discriminate H; reflexivity. }
  split.
  { intros f. destruct f; simpl; tauto. }
  intros f. destruct f;
    [ exists "analyzeRepository"%string | exists "getRepositories"%string
    | exists "getRepository"%string | exists "deleteRepository"%string
    | exists "getDocumentation"%string | exists "getDocumentationVersions"%string
    | exists "exportMarkdown"%string | exists "exportJSON"%string
    | exists "getMonitoringJobs"%string ]; reflexivity.
Qed.

End ApiSurface.

(* ===================================================================== *)
(** * components/DocumentationViewer.tsx: the export handlers *)
(* ===================================================================== *)

Module DocumentationViewer.
Import JsString Api.

(** [import { getDocumentation, getRepository, exportMarkdown, exportJSON,
    exportDOCX } from '../services/api'] *)
Definition imports : list string :=
  ["getDocumentation"; "getRepository"; "exportMarkdown"; "exportJSON";
   "exportDOCX"]%string.

(** What an imported name is bound to: the exported function, or nothing
    when the module exports no such name. *)
Definition binding (name : string) : option ApiFunction :=
  lookup_export name exports.

Section Handlers.

(** The value that axios decodes from the body of a JSON response, and
    [JSON.stringify(data, null, 2)]. *)
Variable Json : Type.
Variable JSON_parse : list Byte.byte -> Json.
Variable JSON_stringify : Json -> list Byte.byte.

(** The server: the body of a fulfilled request, or [None] when the
    request is rejected. *)
Variable server : Request -> option (list Byte.byte).

(** What the awaited call resolves to: a [Blob] of the body under
    [responseType: 'blob'], the decoded value otherwise. *)
Inductive Resolved :=
  | BlobData (bytes : list Byte.byte)
  | JsonData (value : Json).

Definition resolve (r : Request) (body : list Byte.byte) : Resolved :=
  match responseType r with
  | blob_response => BlobData body
  | json_response => JsonData (JSON_parse body)
  end.

Inductive Effect :=
  | Sent (r : Request)
  | Download (file : jsstring) (bytes : list Byte.byte)
  | Alert (msg : jsstring).

(** [repo?.name || 'documentation'] *)
Definition base_name (repo : option Repository) : jsstring :=
  match repo with
  | Some r => RepoUpload.opt_or_else (name r) (js "documentation")
  | None => js "documentation"
  end.

(** The body of the three handlers: call the imported function inside
    [try]; on success hand the bytes to a download link; any throw,
    that of calling a name bound to nothing included, ends in the
    handler's alert. [to_bytes] is what the handler makes of the
    resolved value. *)
Definition export_with (name : string) (to_bytes : Resolved -> list Byte.byte)
    (extension failure : jsstring) (repoId : jsstring)
    (repo : option Repository) : list Effect :=
  match binding name with
  | None => [Alert failure]
  | Some f =>
      let r := request_of f {| arg_data := None; arg_repoId := repoId |} in
      match server r with
      | Some body =>
          [Sent r; Download (base_name repo ++ extension) (to_bytes (resolve r body))]
      | None => [Sent r; Alert failure]
      end
  end.

(** The bytes behind the download link: the blob that the Markdown and
    Word calls resolve to, or, in the JSON handler,
    [new Blob([JSON.stringify(data, null, 2)])]. *)
Definition link_bytes (d : Resolved) : list Byte.byte :=
  match d with BlobData b => b | JsonData v => JSON_stringify v end.

Definition handleExportMarkdown :=
  export_with "exportMarkdown" link_bytes (js ".md") (js "Failed to export Markdown").

Definition handleExportJSON :=
  export_with "exportJSON" link_bytes (js ".json") (js "Failed to export JSON").

Definition handleExportDOCX :=
  export_with "exportDOCX" link_bytes (js ".docx") (js "Failed to export DOCX").

Definition downloads (es : list Effect) : list (jsstring * list Byte.byte) :=
  omap (fun e => match e with Download f b => Some (f, b) | _ => None end) es.

Definition requests (es : list Effect) : list Request :=
  omap (fun e => match e with Sent r => Some r | _ => None end) es.

End Handlers.

(** C6, on the code. [api.ts] exports [exportMarkdown] and [exportJSON]
    and no [exportDOCX]: the name that the viewer imports for the Word
    export is bound to nothing, so whatever the server would answer the
    Word handler sends no request, downloads nothing and alerts
    'Failed to export DOCX'. The Markdown handler sends its GET and
    downloads the body of the answer; the JSON handler sends its GET and
    downloads the decoded answer serialised again; each alerts when its
    request is refused. *)
Theorem word_export_is_missing (Json : Type)
    (parse : list Byte.byte -> Json) (stringify : Json -> list Byte.byte)
    (server : Request -> option (list Byte.byte)) (repoId : jsstring)
    (repo : option Repository) :
  let a := {| arg_data := None; arg_repoId := repoId |} in
  In "exportDOCX"%string imports /\
  binding "exportDOCX" = None /\
  handleExportDOCX Json parse stringify server repoId repo =
    [Alert (js "Failed to export DOCX")] /\
  requests (handleExportDOCX Json parse stringify server repoId repo) = [] /\
  downloads (handleExportDOCX Json parse stringify server repoId repo) = [] /\
  handleExportMarkdown Json parse stringify server repoId repo =
    match server (request_of exportMarkdown a) with
    | Some body => [Sent (request_of exportMarkdown a);
                    Download (base_name repo ++ js ".md") body]
    | None => [Sent (request_of exportMarkdown a);
               Alert (js "Failed to export Markdown")]
    end /\
  handleExportJSON Json parse stringify server repoId repo =
    match server (request_of exportJSON a) with
    | Some body => [Sent (request_of exportJSON a);
                    Download (base_name repo ++ js ".json") (stringify (parse body))]
    | None => [Sent (request_of exportJSON a);
               Alert (js "Failed to export JSON")]
    end.
Proof.
  intros a. split; [simpl; tauto |].
  repeat split; reflexivity.
Qed.

End DocumentationViewer.

(* ===================================================================== *)
(** * The Document Store *)
(* ===================================================================== *)

Module DocumentStore.
Import Schema.

(** The version numbers stored for a repository, oldest first. *)
Definition versions_of (repoId : nat) (docs : list documentation.row) : list Z :=
  map documentation.version (filter (fun d => documentation.repo_id d = repoId) docs).

Definition maximum (vs : list Z) : option Z :=
  match vs with
  | [] => None
  | v :: rest => Some (foldl Z.max v rest)
  end.

(** Modelled from the spec: the version that [append] computes, the
    maximum of the versions stored for the repository plus one, and 1
    when there is none (section 4.1; the server code that does it is not
    among the sources). *)
Definition next_version (repoId : nat) (docs : list documentation.row) : Z :=
  match maximum (versions_of repoId docs) with
  | Some m => (m + 1)%Z
  | None => 1%Z
  end.

(** What a caller hands to [append], with the key and the time that the
    defaults [uuid_generate_v4()] and [NOW()] supply. *)
Record Args := {
  docId : nat;
  repoId : nat;
  content : string;
  commitHash : string;
  fileCount : Z;
  linesOfCode : Z;
  now : Z
}.

Definition new_version (a : Args) (v : Z) : documentation.row :=
  {| documentation.id := docId a;
     documentation.repo_id := repoId a;
     documentation.version := v;
     documentation.commit_hash := commitHash a;
     documentation.content := content a;
     documentation.file_count := fileCount a;
     documentation.lines_of_code := linesOfCode a;
     documentation.created_at := now a |}.

(** Modelled from the spec: [append] run alone, the read of the maximum
    and the insertion in one piece (section 4.1). *)
Definition append (a : Args) (docs : list documentation.row)
    : documentation.row * list documentation.row :=
  let d := new_version a (next_version (repoId a) docs) in
  (d, docs ++ [d]).

(** Modelled from the spec: [listVersions], newest first; [getLatest];
    [deleteAll], used by the deletion cascade (section 4.1). *)
Definition listVersions (r : nat) (docs : list documentation.row) : list documentation.row :=
  rev (filter (fun d => documentation.repo_id d = r) docs).

Definition getLatest (r : nat) (docs : list documentation.row) : option documentation.row :=
  head (listVersions r docs).

Definition deleteAll (r : nat) (docs : list documentation.row) : list documentation.row :=
  filter (fun d => documentation.repo_id d <> r) docs.

(** ** Concurrent callers *)

(** Modelled from the spec: concurrent [append] calls serialised by a
    repository-scoped lock (section 4.1). A call takes the lock of its
    repository, reads the maximum, inserts its row and releases the lock;
    each of the four is one step, and the steps of different calls
    interleave freely. *)
Inductive Phase :=
  | Waiting
  | Holding
  | Computed (v : Z)
  | Inserted (v : Z)
  | Returned (v : Z).

Record Call := { args : Args; phase : Phase }.

Record State := {
  docs : list documentation.row;
  locked : gset nat;
  calls : list Call
}.

Definition in_critical_section (p : Phase) : bool :=
  match p with
  | Holding | Computed _ | Inserted _ => true
  | Waiting | Returned _ => false
  end.

Definition wrote (p : Phase) : bool :=
  match p with
  | Inserted _ | Returned _ => true
  | _ => false
  end.

(** One step of call [i]; [None] when the call cannot move: it waits for
    a lock that is taken, or it has returned. *)
Definition step (i : nat) (s : State) : option State :=
  match calls s !! i with
  | None => None
  | Some c =>
      let r := repoId (args c) in
      let moved p := <[i := {| args := args c; phase := p |}]> (calls s) in
      match phase c with
      | Waiting =>
          if decide (r ∈ locked s) then None
          else Some {| docs := docs s; locked := {[r]} ∪ locked s;
                       calls := moved Holding |}
      | Holding =>
          Some {| docs := docs s; locked := locked s;
                  calls := moved (Computed (next_version r (docs s))) |}
      | Computed v =>
          Some {| docs := docs s ++ [new_version (args c) v];
                  locked := locked s;
                  calls := moved (Inserted v) |}
      | Inserted v =>
          Some {| docs := docs s; locked := locked s ∖ {[r]};
                  calls := moved (Returned v) |}
      | Returned _ => None
      end
  end.

(** A schedule names the call that moves at each step. *)
Fixpoint run (schedule : list nat) (s : State) : option State :=
  match schedule with
  | [] => Some s
  | i :: rest =>
      match step i s with
      | Some s' => run rest s'
      | None => None
      end
  end.

(** The callers [as_] at the start, against the store [ds0]. *)
Definition start (ds0 : list documentation.row) (as_ : list Args) : State :=
  {| docs := ds0; locked := ∅;
     calls := (fun a => {| args := a; phase := Waiting |}) <$> as_ |}.

(** The versions of a repository are 1, 2, ..., n in insertion order. *)
Definition one_to (n : nat) : list Z := map Z.of_nat (seq 1 n).

Definition dense (r : nat) (ds : list documentation.row) : Prop :=
  versions_of r ds = one_to (length (versions_of r ds)).

Definition returned_version (c : Call) : option Z :=
  match phase c with Returned v => Some v | _ => None end.

Lemma versions_of_app r ds d :
  versions_of r (ds ++ [d]) =
  versions_of r ds ++ (if decide (documentation.repo_id d = r) then [documentation.version d] else []).
Proof.
  unfold versions_of. rewrite filter_app, map_app. f_equal.
  rewrite filter_cons, filter_nil. destruct (decide _); reflexivity.
Qed.

Lemma maximum_snoc vs x :
  maximum (vs ++ [x]) =
  Some (match maximum vs with Some m => Z.max m x | None => x end).
Proof.
  destruct vs as [|v vs]; simpl; [reflexivity |].
  rewrite foldl_app. reflexivity.
Qed.

(** [maximum] is the greatest element: it is in the list, and no element
    exceeds it. *)
Lemma foldl_max_spec (rest : list Z) : forall v,
  foldl Z.max v rest ∈ v :: rest /\
  (forall w, w ∈ v :: rest -> (w <= foldl Z.max v rest)%Z).
Proof.
  induction rest as [|x rest IH]; intros v; simpl.
  - split; [left |]. intros w Hw. apply list_elem_of_singleton in Hw. lia.
  - destruct (IH (Z.max v x)) as [Hin Hub]. split.
    + apply elem_of_cons in Hin as [Heq | Hin]; [| right; right; exact Hin].
      rewrite Heq. destruct (Z.max_spec v x) as [[_ ->] | [_ ->]];
        [right; left | left].
    + intros w Hw.
      assert (Hm : (Z.max v x <= foldl Z.max (Z.max v x) rest)%Z)
        by (apply Hub; left).
      apply elem_of_cons in Hw as [-> | Hw]; [lia |].
      apply elem_of_cons in Hw as [-> | Hw]; [lia |].
      apply Hub. right. exact Hw.
Qed.

Lemma maximum_None vs : maximum vs = None <-> vs = [].
Proof. destruct vs; simpl; split; congruence. Qed.

Lemma maximum_Some vs m :
  maximum vs = Some m -> m ∈ vs /\ (forall w, w ∈ vs -> (w <= m)%Z).
Proof.
  destruct vs as [|v rest]; simpl; [discriminate |].
  intros [= <-]. apply foldl_max_spec.
Qed.

(** The version that [append] computes: above every version stored for
    the repository, and one more than one of them, or 1 when none is
    stored. *)
Lemma next_version_spec r ds :
  (forall w, w ∈ versions_of r ds -> (w < next_version r ds)%Z) /\
  (versions_of r ds = [] -> next_version r ds = 1%Z) /\
  (versions_of r ds <> [] -> (next_version r ds - 1)%Z ∈ versions_of r ds).
Proof.
  unfold next_version. destruct (maximum (versions_of r ds)) as [m|] eqn:Hm.
  - apply maximum_Some in Hm as [Hin Hub]. split; [| split].
    + intros w Hw. specialize (Hub w Hw). lia.
    + intros Hnil. rewrite Hnil in Hin. apply elem_of_nil in Hin. contradiction.
    + intros _. replace (m + 1 - 1)%Z with m by lia. exact Hin.
  - apply maximum_None in Hm. rewrite Hm. split; [| split].
    + intros w Hw. apply elem_of_nil in Hw. contradiction.
    + reflexivity.
    + intros H. contradiction.
Qed.

Lemma one_to_S n : one_to (S n) = one_to n ++ [Z.of_nat (S n)].
Proof. unfold one_to. rewrite seq_S, map_app. reflexivity. Qed.

Lemma length_one_to n : length (one_to n) = n.
Proof. unfold one_to. rewrite length_map, length_seq. reflexivity. Qed.

Lemma maximum_one_to n :
  maximum (one_to n) = match n with O => None | S _ => Some (Z.of_nat n) end.
Proof.
  induction n as [|n IH]; [reflexivity |].
  rewrite one_to_S, maximum_snoc, IH. f_equal.
  destruct n; [reflexivity | lia].
Qed.

Lemma next_version_dense r ds :
  dense r ds -> next_version r ds = Z.of_nat (S (length (versions_of r ds))).
Proof.
  unfold dense, next_version. intros ->. rewrite maximum_one_to, length_one_to.
  destruct (length (versions_of r ds)); lia.
Qed.

Lemma dense_app r ds d :
  dense r ds ->
  (documentation.repo_id d = r ->
   documentation.version d = next_version r ds) ->
  dense r (ds ++ [d]).
Proof.
  intros Hd Hv. unfold dense. rewrite versions_of_app.
  destruct (decide (documentation.repo_id d = r)) as [Hr | Hr].
  - rewrite length_app. simpl. rewrite Nat.add_1_r, one_to_S.
    rewrite (Hv Hr), (next_version_dense _ _ Hd). f_equal. exact Hd.
  - rewrite app_nil_r. exact Hd.
Qed.

Lemma next_version_other r ds d :
  documentation.repo_id d <> r -> next_version r (ds ++ [d]) = next_version r ds.
Proof.
  intros Hr. unfold next_version. rewrite versions_of_app.
  destruct (decide _); [contradiction |]. rewrite app_nil_r. reflexivity.
Qed.

Definition writers (r : nat) (cs : list Call) : list Call :=
  filter (fun c => repoId (args c) = r /\ wrote (phase c) = true) cs.

Record invariant (ds0 : list documentation.row) (s : State) : Prop := {
  inv_dense : forall r, dense r (docs s);
  inv_locked : forall i c,
    calls s !! i = Some c -> in_critical_section (phase c) = true ->
    repoId (args c) ∈ locked s;
  inv_mutex : forall i j ci cj,
    calls s !! i = Some ci -> calls s !! j = Some cj ->
    in_critical_section (phase ci) = true ->
    in_critical_section (phase cj) = true ->
    repoId (args ci) = repoId (args cj) -> i = j;
  inv_computed : forall i c v,
    calls s !! i = Some c -> phase c = Computed v ->
    v = next_version (repoId (args c)) (docs s);
  inv_count : forall r,
    length (versions_of r (docs s))
    = length (versions_of r ds0) + length (writers r (calls s))
}.

Lemma writers_insert r cs i c c' :
  cs !! i = Some c ->
  repoId (args c') = repoId (args c) ->
  length (writers r (<[i := c']> cs)) + (if decide (repoId (args c) = r /\ wrote (phase c) = true) then 1 else 0)
  = length (writers r cs) + (if decide (repoId (args c) = r /\ wrote (phase c') = true) then 1 else 0).
Proof.
  intros Hi Hr. unfold writers.
  assert (Hlt : i < length cs) by (eapply lookup_lt_Some; eassumption).
  rewrite (insert_take_drop _ _ _ Hlt).
  rewrite <- (take_drop_middle cs i c Hi) at 3.
  rewrite !filter_app, !filter_cons, !length_app. rewrite Hr.
  repeat destruct (decide _); simpl; try lia; tauto.
Qed.

Lemma writers_insert_same r cs i c p :
  cs !! i = Some c -> wrote p = wrote (phase c) ->
  length (writers r (<[i := {| args := args c; phase := p |}]> cs))
  = length (writers r cs).
Proof.
  intros Hi Hw.
  pose proof (writers_insert r cs i c {| args := args c; phase := p |} Hi eq_refl) as H.
  simpl in H. rewrite Hw in H.
  destruct (decide _) in H; lia.
Qed.

Lemma writers_insert_wrote r cs i c p :
  cs !! i = Some c -> wrote (phase c) = false -> wrote p = true ->
  length (writers r (<[i := {| args := args c; phase := p |}]> cs))
  = length (writers r cs) + (if decide (repoId (args c) = r) then 1 else 0).
Proof.
  intros Hi Hc Hp.
  pose proof (writers_insert r cs i c {| args := args c; phase := p |} Hi eq_refl) as H.
  simpl in H. rewrite Hc, Hp in H.
  destruct (decide (repoId (args c) = r /\ false = true)) as [[_ Hf] | _] in H;
    [discriminate |].
  destruct (decide (repoId (args c) = r /\ true = true)) as [[Hr _] | Hn] in H;
    destruct (decide (repoId (args c) = r)) as [Hr' | Hr']; try lia; tauto.
Qed.

Lemma start_lookup ds0 as_ i c :
  calls (start ds0 as_) !! i = Some c -> phase c = Waiting.
Proof.
  simpl. intros Hc. apply list_lookup_fmap_Some in Hc as (a & -> & _). reflexivity.
Qed.

Lemma invariant_start ds0 as_ :
  (forall r, dense r ds0) -> invariant ds0 (start ds0 as_).
Proof.
  intros Hds0. split.
  - exact Hds0.
  - intros i c Hc. rewrite (start_lookup _ _ _ _ Hc). discriminate.
  - intros i j ci cj Hi _. rewrite (start_lookup _ _ _ _ Hi). discriminate.
  - intros i c v Hc. rewrite (start_lookup _ _ _ _ Hc). discriminate.
  - intros r. simpl. assert (Hw : writers r (calls (start ds0 as_)) = []).
    { unfold writers. simpl. induction as_ as [|a as_ IH]; [reflexivity |].
      rewrite fmap_cons, filter_cons.
      destruct (decide _) as [[_ H] |]; [discriminate | exact IH]. }
    simpl in Hw. rewrite Hw. simpl. lia.
Qed.

Lemma step_invariant ds0 i s s' :
  invariant ds0 s -> step i s = Some s' -> invariant ds0 s'.
Proof.
  intros [Hdense Hlocked Hmutex Hcomputed Hcount] Hstep.
  unfold step in Hstep.
  destruct (calls s !! i) as [c|] eqn:Hi; [| discriminate].
  destruct (phase c) as [| | v | v | v] eqn:Hp.
  - (* the call takes the lock *)
    destruct (decide _) as [|Hfree]; [discriminate |].
    injection Hstep as <-. split; simpl.
    + exact Hdense.
    + intros j cj Hj Hcrit.
      apply list_lookup_insert_Some in Hj as [(-> & <- & _) | (Hne & Hj)]; simpl.
      * set_solver.
      * specialize (Hlocked _ _ Hj Hcrit). set_solver.
    + intros j k cj ck Hj Hk Hcj Hck Hr.
      apply list_lookup_insert_Some in Hj as [(-> & <- & _) | (Hnj & Hj)];
      apply list_lookup_insert_Some in Hk as [(-> & <- & _) | (Hnk & Hk)]; simpl in *.
      * reflexivity.
      * exfalso. apply Hfree. rewrite Hr. eapply Hlocked; eassumption.
      * exfalso. apply Hfree. rewrite <- Hr. eapply Hlocked; eassumption.
      * eapply Hmutex; eassumption.
    + intros j cj v Hj Hv.
      apply list_lookup_insert_Some in Hj as [(-> & <- & _) | (Hne & Hj)]; simpl in *.
      * discriminate.
      * eapply Hcomputed; eassumption.
    + intros r. rewrite Hcount. f_equal. symmetry.
      apply writers_insert_same; [exact Hi |]. rewrite Hp. reflexivity.
  - (* the call reads the maximum *)
    injection Hstep as <-. split; simpl.
    + exact Hdense.
    + intros j cj Hj Hcrit.
      apply list_lookup_insert_Some in Hj as [(-> & <- & _) | (Hne & Hj)]; simpl.
      * eapply Hlocked; [exact Hi |]. rewrite Hp. reflexivity.
      * eapply Hlocked; eassumption.
    + intros j k cj ck Hj Hk Hcj Hck Hr.
      assert (Hci : in_critical_section (phase c) = true) by (rewrite Hp; reflexivity).
      apply list_lookup_insert_Some in Hj as [(-> & <- & _) | (Hnj & Hj)];
      apply list_lookup_insert_Some in Hk as [(-> & <- & _) | (Hnk & Hk)]; simpl in *.
      * reflexivity.
      * eapply Hmutex; eassumption.
      * eapply Hmutex; eassumption.
      * eapply Hmutex; eassumption.
    + intros j cj v Hj Hv.
      apply list_lookup_insert_Some in Hj as [(-> & <- & _) | (Hne & Hj)]; simpl in *.
      * congruence.
      * eapply Hcomputed; eassumption.
    + intros r. rewrite Hcount. f_equal. symmetry.
      apply writers_insert_same; [exact Hi |]. rewrite Hp. reflexivity.
  - (* the call inserts its row *)
    injection Hstep as <-.
    assert (Hci : in_critical_section (phase c) = true) by (rewrite Hp; reflexivity).
    pose proof (Hcomputed _ _ _ Hi Hp) as Hv.
    split; simpl.
    + intros r. apply dense_app; [apply Hdense |]. simpl. intros <-. exact Hv.
    + intros j cj Hj Hcrit.
      apply list_lookup_insert_Some in Hj as [(-> & <- & _) | (Hne & Hj)]; simpl.
      * eapply Hlocked; eassumption.
      * eapply Hlocked; eassumption.
    + intros j k cj ck Hj Hk Hcj Hck Hr.
      apply list_lookup_insert_Some in Hj as [(-> & <- & _) | (Hnj & Hj)];
      apply list_lookup_insert_Some in Hk as [(-> & <- & _) | (Hnk & Hk)]; simpl in *.
      * reflexivity.
      * eapply Hmutex; eassumption.
      * eapply Hmutex; eassumption.
      * eapply Hmutex; eassumption.
    + intros j cj w Hj Hw.
      apply list_lookup_insert_Some in Hj as [(-> & <- & _) | (Hne & Hj)]; simpl in *.
      * discriminate.
      * rewrite next_version_other; [eapply Hcomputed; eassumption |].
        simpl. intros Hr. apply Hne.
        eapply Hmutex; try eassumption. rewrite Hw. reflexivity.
    + intros r. rewrite versions_of_app, length_app, Hcount. simpl.
      rewrite (writers_insert_wrote r _ _ _ (Inserted v) Hi);
        [| rewrite Hp; reflexivity | reflexivity].
      destruct (decide _); simpl; lia.
  - (* the call releases the lock *)
    injection Hstep as <-.
    assert (Hci : in_critical_section (phase c) = true) by (rewrite Hp; reflexivity).
    split; simpl.
    + exact Hdense.
    + intros j cj Hj Hcrit.
      apply list_lookup_insert_Some in Hj as [(-> & <- & _) | (Hne & Hj)]; simpl in *.
      * discriminate.
      * apply elem_of_difference. split; [eapply Hlocked; eassumption |].
        intros Hr%elem_of_singleton. apply Hne. symmetry.
        eapply Hmutex; eassumption.
    + intros j k cj ck Hj Hk Hcj Hck Hr.
      apply list_lookup_insert_Some in Hj as [(-> & <- & _) | (Hnj & Hj)];
      apply list_lookup_insert_Some in Hk as [(-> & <- & _) | (Hnk & Hk)]; simpl in *;
        try discriminate.
      eapply Hmutex; eassumption.
    + intros j cj w Hj Hw.
      apply list_lookup_insert_Some in Hj as [(-> & <- & _) | (Hne & Hj)]; simpl in *.
      * discriminate.
      * eapply Hcomputed; eassumption.
    + intros r. rewrite Hcount. f_equal. symmetry.
      apply writers_insert_same; [exact Hi |]. rewrite Hp. reflexivity.
  - discriminate.
Qed.

Lemma run_invariant ds0 schedule : forall s s',
  invariant ds0 s -> run schedule s = Some s' -> invariant ds0 s'.
Proof.
  induction schedule as [|i rest IH]; simpl; intros s s' Hinv Hrun.
  - injection Hrun as <-. exact Hinv.
  - destruct (step i s) as [s1|] eqn:Hstep; [| discriminate].
    eapply IH; [| exact Hrun]. eapply step_invariant; eassumption.
Qed.

Lemma one_to_sorted n : StronglySorted Z.lt (one_to n).
Proof.
  unfold one_to. generalize 1%nat as k.
  induction n as [|n IH]; intros k; simpl; constructor.
  - apply IH.
  - apply List.Forall_forall. intros z Hz.
    apply in_map_iff in Hz as (m & <- & Hm). apply in_seq in Hm. lia.
Qed.

Lemma one_to_NoDup n : NoDup (one_to n).
Proof.
  unfold one_to. apply NoDup_fmap_2; [| apply NoDup_seq].
  intros x y. apply Nat2Z.inj.
Qed.

Lemma step_args i s s' : step i s = Some s' -> args <$> calls s' = args <$> calls s.
Proof.
  unfold step. destruct (calls s !! i) as [c|] eqn:Hi; [| discriminate].
  assert (H : forall p, args <$> <[i := {| args := args c; phase := p |}]> (calls s)
                        = args <$> calls s).
  { intros p. rewrite list_fmap_insert. simpl. apply list_insert_id.
    rewrite list_lookup_fmap, Hi. reflexivity. }
  destruct (phase c); [destruct (decide _) | | | |]; intros Hs;
    try discriminate; injection Hs as <-; simpl; apply H.
Qed.

Lemma run_args schedule : forall s s',
  run schedule s = Some s' -> args <$> calls s' = args <$> calls s.
Proof.
  induction schedule as [|i rest IH]; simpl; intros s s' Hrun.
  - injection Hrun as <-. reflexivity.
  - destruct (step i s) as [s1|] eqn:Hstep; [| discriminate].
    rewrite (IH _ _ Hrun). eapply step_args; eassumption.
Qed.

Lemma start_args ds0 as_ : args <$> calls (start ds0 as_) = as_.
Proof.
  simpl. rewrite <- list_fmap_compose. apply list_fmap_id.
Qed.

(** The rows of calls that have inserted are stored. *)
Definition inserted_version (p : Phase) : option Z :=
  match p with Inserted v | Returned v => Some v | _ => None end.

Definition stored (s : State) : Prop :=
  forall i c v, calls s !! i = Some c -> inserted_version (phase c) = Some v ->
    new_version (args c) v ∈ docs s.

Lemma step_stored i s s' : stored s -> step i s = Some s' -> stored s'.
Proof.
  intros Hs Hstep j cj w Hj Hw. unfold step in Hstep.
  destruct (calls s !! i) as [c|] eqn:Hi; [| discriminate].
  destruct (phase c) as [| | v | v | v] eqn:Hp;
    [destruct (decide _) | | | |]; try discriminate;
    injection Hstep as <-; simpl in *;
    apply list_lookup_insert_Some in Hj as [(-> & <- & _) | (Hne & Hj)];
    simpl in *; try discriminate.
  all: try (eapply Hs; eassumption).
  - injection Hw as <-. apply elem_of_app. right. apply list_elem_of_singleton. reflexivity.
  - apply elem_of_app. left. eapply Hs; eassumption.
  - injection Hw as <-. eapply Hs; [exact Hi |]. rewrite Hp. reflexivity.
Qed.

Lemma run_stored schedule : forall s s',
  stored s -> run schedule s = Some s' -> stored s'.
Proof.
  induction schedule as [|i rest IH]; simpl; intros s s' Hinv Hrun.
  - injection Hrun as <-. exact Hinv.
  - destruct (step i s) as [s1|] eqn:Hstep; [| discriminate].
    eapply IH; [| exact Hrun]. eapply step_stored; eassumption.
Qed.

Lemma writers_all_returned r cs :
  Forall (fun c => wrote (phase c) = true) cs ->
  length (writers r cs) = length (filter (fun a => repoId a = r) (args <$> cs)).
Proof.
  unfold writers. induction 1 as [|c cs Hc _ IH]; [reflexivity |].
  rewrite fmap_cons, !filter_cons. rewrite Hc.
  destruct (decide (repoId (args c) = r /\ true = true)) as [[Hr _] | Hn];
    destruct (decide (repoId (args c) = r)) as [Hr' | Hr']; simpl; try lia; tauto.
Qed.

(** C1. [append] gives the new row the maximum of the versions stored for
    its repository plus one, and 1 when there is none, and stores it after
    the others; this in any store, whatever the order of its versions and
    whether or not some are missing or repeated: the new version is above
    every version stored for the repository and one more than one of
    them. Take a store in which the versions of every repository
    are 1, 2, ..., and any number of [append] calls running concurrently,
    each taking its repository's lock around the read of the maximum and
    the insertion. Then in every state that any interleaving of their
    steps reaches: the versions stored for a repository are 1, 2, ..., n
    in insertion order, hence strictly increasing and without duplicates;
    a call about to insert holds the maximum plus one of the store as it
    is now, which is above every version stored for its repository; the
    row of every call that has returned is stored; and once
    all calls have returned, the versions of a repository are exactly 1
    to the number it had plus the number of calls made for it. *)
Theorem append_versions_increase (ds0 : list documentation.row)
    (as_ : list Args) (schedule : list nat) (s : State) :
  (forall r, dense r ds0) ->
  run schedule (start ds0 as_) = Some s ->
  (forall a ds,
     documentation.version (append a ds).1 =
       match maximum (versions_of (repoId a) ds) with
       | Some m => (m + 1)%Z
       | None => 1%Z
       end /\
     documentation.repo_id (append a ds).1 = repoId a /\
     (append a ds).2 = ds ++ [(append a ds).1]) /\
  (forall a ds,
     let v := documentation.version (append a ds).1 in
     (forall w, w ∈ versions_of (repoId a) ds -> (w < v)%Z) /\
     (versions_of (repoId a) ds = [] -> v = 1%Z) /\
     (versions_of (repoId a) ds <> [] -> (v - 1)%Z ∈ versions_of (repoId a) ds) /\
     versions_of (repoId a) (append a ds).2 = versions_of (repoId a) ds ++ [v]) /\
  (forall r,
     versions_of r (docs s) = one_to (length (versions_of r (docs s))) /\
     StronglySorted Z.lt (versions_of r (docs s)) /\
     NoDup (versions_of r (docs s))) /\
  (forall i c v,
     calls s !! i = Some c -> phase c = Computed v ->
     v = next_version (repoId (args c)) (docs s) /\
     (forall w, w ∈ versions_of (repoId (args c)) (docs s) -> (w < v)%Z)) /\
  (forall i c v,
     calls s !! i = Some c -> phase c = Returned v ->
     new_version (args c) v ∈ docs s) /\
  (Forall (fun c => returned_version c <> None) (calls s) ->
   forall r,
     versions_of r (docs s) =
     one_to (length (versions_of r ds0)
             + length (filter (fun a => repoId a = r) as_))).
Proof.
  intros Hds0 Hrun.
  pose proof (run_invariant _ _ _ _ (invariant_start ds0 as_ Hds0) Hrun) as Hinv.
  destruct Hinv as [Hdense Hlocked Hmutex Hcomputed Hcount].
  split; [intros a ds; repeat split |].
  split.
  { intros a ds v. subst v. unfold append. simpl.
    destruct (next_version_spec (repoId a) ds) as (Hgt & Hnil & Hin).
    split; [exact Hgt |]. split; [exact Hnil |]. split; [exact Hin |].
    rewrite versions_of_app. simpl. destruct (decide _); [reflexivity | contradiction]. }
  split.
  { intros r. split; [apply Hdense |]. rewrite (Hdense r).
    split; [apply one_to_sorted | apply one_to_NoDup]. }
  split.
  { intros i c v Hi Hp. pose proof (Hcomputed i c v Hi Hp) as Hv.
    split; [exact Hv |]. rewrite Hv. apply next_version_spec. }
  split.
  { intros i c v Hi Hp.
    eapply (run_stored schedule (start ds0 as_)); [| exact Hrun | exact Hi |].
    - intros j cj w Hj Hw. rewrite (start_lookup _ _ _ _ Hj) in Hw. discriminate.
    - rewrite Hp. reflexivity. }
  intros Hall r. rewrite (Hdense r), Hcount. f_equal. f_equal.
  rewrite writers_all_returned.
  - rewrite (run_args _ _ _ Hrun), start_args. reflexivity.
  - eapply Forall_impl; [exact Hall |]. intros c. unfold returned_version.
    destruct (phase c); simpl; congruence.
Qed.

Definition caller (k r : nat) (commit : string) : Args :=
  {| docId := k; repoId := r; content := "{}"; commitHash := commit;
     fileCount := 3; linesOfCode := 40; now := 0 |}.

(** Three callers against a store that holds version 1 of repository 7:
    two for repository 7, one for repository 8, their steps interleaved.
    And [append] alone on a store that holds the versions 3 and 1 of
    repository 7, in this order, and version 9 of repository 8: the new
    version of repository 7 is 4. *)
Lemma append_versions_increase_witness :
  let ds0 := [new_version (caller 0 7 "000000") 1] in
  let as_ := [caller 1 7 "abc123"; caller 2 7 "def456"; caller 3 8 "abc123"] in
  let schedule := [0; 2; 0; 2; 0; 0; 1; 2; 2; 1; 1; 1]%nat in
  let unordered := [new_version (caller 0 7 "000000") 3;
                    new_version (caller 1 8 "000000") 9;
                    new_version (caller 2 7 "111111") 1] in
  (forall r, dense r ds0) /\
  match run schedule (start ds0 as_) with
  | Some s =>
      versions_of 7 (docs s) = [1; 2; 3]%Z /\ versions_of 8 (docs s) = [1]%Z
  | None => False
  end /\
  documentation.version (append (caller 3 7 "abc123") unordered).1 = 4%Z.
Proof.
  intros ds0 as_ schedule unordered.
  assert (Hds0 : forall r, dense r ds0).
  { intros r. unfold dense, versions_of, ds0. rewrite filter_cons, filter_nil.
    destruct (decide _); reflexivity. }
  split; [exact Hds0 |].
  destruct (run schedule (start ds0 as_)) as [s|] eqn:Hrun.
  - destruct (append_versions_increase ds0 as_ schedule s Hds0 Hrun)
      as (_ & Hnext & _ & _ & _ & Hall).
    assert (Hret : Forall (fun c => returned_version c <> None) (calls s)).
    { vm_compute in Hrun. injection Hrun as <-. repeat constructor; discriminate. }
    split; [split; [exact (Hall Hret 7%nat) | exact (Hall Hret 8%nat)] |].
    destruct (Hnext (caller 3 7 "abc123") unordered) as (Hgt & _ & Hin & _).
    change (versions_of (repoId (caller 3 7 "abc123")) unordered) with [3; 1]%Z
      in Hgt, Hin.
    specialize (Hgt 3%Z (list_elem_of_here _ _)).
    specialize (Hin ltac:(discriminate)).
    apply elem_of_cons in Hin as [Hin | Hin]; [lia |].
    apply list_elem_of_singleton in Hin. lia.
  - vm_compute in Hrun. discriminate Hrun.
Defined.

(** [deleteAll] is what the cascade of the foreign key does to the table. *)
Lemma deleteAll_is_the_cascade r ds :
  on_delete_list documentation_repo_id_on_delete documentation.repo_id r ds
  = Some (deleteAll r ds).
Proof. reflexivity. Qed.

(** In a store whose versions are 1, 2, ..., n, [getLatest] is the row
    with version n. *)
Lemma getLatest_newest r ds d :
  dense r ds -> getLatest r ds = Some d ->
  documentation.repo_id d = r /\
  documentation.version d = Z.of_nat (length (versions_of r ds)).
Proof.
  unfold dense, getLatest, listVersions, versions_of.
  set (l := filter (fun d => documentation.repo_id d = r) ds).
  assert (Hl : Forall (fun d => documentation.repo_id d = r) l).
  { apply Forall_forall. intros x Hx. apply list_elem_of_filter in Hx as [Hx _].
    exact Hx. }
  clearbody l. intros Hd Hlast.
  destruct l as [|x l _] using rev_ind; [discriminate |].
  rewrite rev_app_distr in Hlast. simpl in Hlast. injection Hlast as ->.
  rewrite Forall_app, Forall_singleton in Hl. destruct Hl as [_ Hx].
  split; [exact Hx |].
  rewrite map_app, length_app, length_map in Hd. simpl in Hd.
  rewrite Nat.add_1_r, one_to_S in Hd.
  apply app_inj_tail in Hd as [_ Hv].
  rewrite length_map, length_app. simpl. rewrite Nat.add_1_r. exact Hv.
Qed.

(** The schema alone does not keep the versions of a repository apart:
    [documentation] has no UNIQUE constraint on (repo_id, version), and an
    INSERT that leaves [version] out stores the DEFAULT 1 each time. *)
Example schema_admits_equal_versions :
  let r := {| repositories.url := "https://github.com/o/r";
              repositories.name := None; repositories.description := None;
              repositories.status := Api.completed;
              repositories.last_commit_hash := Some "abc123";
              repositories.branch := repositories.default_branch;
              repositories.monitoring_enabled := true;
              repositories.webhook_id := None;
              repositories.error_message := None;
              repositories.last_analyzed_at := None;
              repositories.created_at := 0;
              repositories.updated_at := None |} in
  let d k := new_version (caller k 7 "abc123") documentation.default_version in
  let db0 := {| db_repositories := {[ 7%nat := r ]};
                db_documentation := []; db_monitoring_jobs := ∅ |} in
  exists db2,
    insert_documentation (d 1%nat) db0 ≫= insert_documentation (d 2%nat) = Some db2 /\
    versions_of 7 (db_documentation db2) = [1; 1]%Z.
Proof.
  intros r d db0. eexists. split; [vm_compute; reflexivity | reflexivity].
Qed.

End DocumentStore.

(* ===================================================================== *)
(** * The analysis pipeline: registry, scheduler and executor *)
(* ===================================================================== *)

(** The Repository Registry's state machine, the Job Scheduler and the
    Analysis Executor run on the server, whose code is not among the
    sources: the sources hold the tables they work on and the client that
    calls them. Their definitions below are written from the
    specification, over the tables of [Schema]; each says so. Left out,
    as they only take behaviours away or concern time: the debounce
    window of [enqueue], the delay of the backoff, the stage timeouts and
    the cancellation flag (a timeout or a cancellation is a stage
    failure). *)

Module Pipeline.
Import Schema.
Module R := Schema.repositories.
Module D := Schema.documentation.
Module J := Schema.monitoring_jobs.

(** ** The status state machine *)

(** Modelled from the spec: what makes the repository status move, a job
    that starts, a stage that succeeds, a stage that fails (section 4.2). *)
Inductive Trigger := JobStarts | StageSucceeds | StageFails.

(** Modelled from the spec: the nine transitions of the repository
    status (section 4.2); the server code that drives the status is not
    among the sources. *)
Definition transition (s : Api.RepositoryStatus) (t : Trigger)
    : option Api.RepositoryStatus :=
  match s, t with
  | Api.pending, JobStarts => Some Api.cloning
  | Api.cloning, StageSucceeds => Some Api.analyzing
  | Api.cloning, StageFails => Some Api.failed
  | Api.analyzing, StageSucceeds => Some Api.generating_docs
  | Api.analyzing, StageFails => Some Api.failed
  | Api.generating_docs, StageSucceeds => Some Api.completed
  | Api.generating_docs, StageFails => Some Api.failed
  | Api.completed, JobStarts => Some Api.cloning
  | Api.failed, JobStarts => Some Api.cloning
  | _, _ => None
  end.

(** ** Row updates *)

(** Modelled from the spec: a transition writes [status] (section 4.2). *)
Definition set_status (st : Api.RepositoryStatus) (r : R.row) : R.row :=
  {| R.url := R.url r; R.name := R.name r; R.description := R.description r;
     R.status := st;
     R.last_commit_hash := R.last_commit_hash r; R.branch := R.branch r;
     R.monitoring_enabled := R.monitoring_enabled r;
     R.webhook_id := R.webhook_id r; R.error_message := R.error_message r;
     R.last_analyzed_at := R.last_analyzed_at r;
     R.created_at := R.created_at r; R.updated_at := R.updated_at r |}.

(** Modelled from the spec: a transition into [failed] sets
    [error_message] and leaves [last_commit_hash] as it is (section 4.2). *)
Definition set_error (reason : string) (r : R.row) : R.row :=
  {| R.url := R.url r; R.name := R.name r; R.description := R.description r;
     R.status := R.status r;
     R.last_commit_hash := R.last_commit_hash r; R.branch := R.branch r;
     R.monitoring_enabled := R.monitoring_enabled r;
     R.webhook_id := R.webhook_id r; R.error_message := Some reason;
     R.last_analyzed_at := R.last_analyzed_at r;
     R.created_at := R.created_at r; R.updated_at := R.updated_at r |}.

(** Modelled from the spec: [error_message] is set only on [failed]
    (section 3), so the transition that starts a job, the one that
    leaves [failed], resets it; the specification names no other step
    that would. *)
Definition clear_error (r : R.row) : R.row :=
  {| R.url := R.url r; R.name := R.name r; R.description := R.description r;
     R.status := R.status r;
     R.last_commit_hash := R.last_commit_hash r; R.branch := R.branch r;
     R.monitoring_enabled := R.monitoring_enabled r;
     R.webhook_id := R.webhook_id r; R.error_message := None;
     R.last_analyzed_at := R.last_analyzed_at r;
     R.created_at := R.created_at r; R.updated_at := R.updated_at r |}.

(** Modelled from the spec: a transition into [completed] sets
    [last_analyzed_at] to now and [last_commit_hash] to the commit just
    processed (section 4.2). *)
Definition set_analyzed (commit : string) (now : Z) (r : R.row) : R.row :=
  {| R.url := R.url r; R.name := R.name r; R.description := R.description r;
     R.status := R.status r;
     R.last_commit_hash := Some commit; R.branch := R.branch r;
     R.monitoring_enabled := R.monitoring_enabled r;
     R.webhook_id := R.webhook_id r; R.error_message := R.error_message r;
     R.last_analyzed_at := Some now;
     R.created_at := R.created_at r; R.updated_at := R.updated_at r |}.

(** Modelled from the spec: [dequeueNext] marks the job [running] and
    sets [started_at]; success marks it [completed] and sets
    [completed_at] (section 4.3). *)
Definition job_running (now : Z) (j : J.row) : J.row :=
  {| J.repo_id := J.repo_id j; J.status := J.running;
     J.trigger_type := J.trigger_type j;
     J.changes_detected := J.changes_detected j;
     J.error_message := J.error_message j; J.retry_count := J.retry_count j;
     J.started_at := Some now; J.completed_at := J.completed_at j;
     J.created_at := J.created_at j |}.

Definition job_completed (now : Z) (j : J.row) : J.row :=
  {| J.repo_id := J.repo_id j; J.status := J.completed;
     J.trigger_type := J.trigger_type j;
     J.changes_detected := J.changes_detected j;
     J.error_message := J.error_message j; J.retry_count := J.retry_count j;
     J.started_at := J.started_at j; J.completed_at := Some now;
     J.created_at := J.created_at j |}.

(** Modelled from the spec: a failed attempt that is resubmitted goes
    back to [pending] with one more retry counted; one that is not is
    marked [failed] for good, with the last error (section 4.3). *)
Definition job_retried (j : J.row) : J.row :=
  {| J.repo_id := J.repo_id j; J.status := J.pending;
     J.trigger_type := J.trigger_type j;
     J.changes_detected := J.changes_detected j;
     J.error_message := J.error_message j;
     J.retry_count := (J.retry_count j + 1)%Z;
     J.started_at := J.started_at j; J.completed_at := J.completed_at j;
     J.created_at := J.created_at j |}.

Definition job_failed (reason : string) (now : Z) (j : J.row) : J.row :=
  {| J.repo_id := J.repo_id j; J.status := J.failed;
     J.trigger_type := J.trigger_type j;
     J.changes_detected := J.changes_detected j;
     J.error_message := Some reason; J.retry_count := J.retry_count j;
     J.started_at := J.started_at j; J.completed_at := Some now;
     J.created_at := J.created_at j |}.

(** ** The state *)

(** Modelled from the spec: where the executor is in the run of a job,
    after the four stages of section 4.4: resolve the source, extract the
    facts, generate the content, persist and flip. The commit and the
    counts obtained so far live in the worker, not in the database. *)
Inductive Stage :=
  | Resolving
  | Extracting (commit : string)
  | Generating (commit : string) (file_count lines_of_code : Z)
  | Persisted (commit : string)
  | Succeeded
  | Failed (reason : string).

Record Run := { run_repo : nat; stage : Stage }.

(** Modelled from the spec: the state of the system, the database and
    the runs in progress, by job (section 5). *)
Record State := { db : Database; runs : gmap nat Run }.

(** The empty database, with no run in progress. *)
Definition init : State := {| db := Schema.empty; runs := ∅ |}.

Definition with_db (s : State) (d : Database) : State :=
  {| db := d; runs := runs s |}.

(** ** The Job Scheduler *)

(** Modelled from the spec: a job that is [pending] or [running] (section
    4.3). *)
Definition active (j : J.row) : Prop :=
  J.status j = J.pending \/ J.status j = J.running.

Definition has_active (repoId : nat) (jobs : gmap nat J.row) : Prop :=
  map_Exists (fun _ j => J.repo_id j = repoId /\ active j) jobs.

Definition has_running (repoId : nat) (jobs : gmap nat J.row) : Prop :=
  map_Exists (fun _ j => J.repo_id j = repoId /\ J.status j = J.running) jobs.

#[global] Instance active_dec j : Decision (active j).
Proof. unfold active. apply _. Defined.

#[global] Instance has_active_dec r jobs : Decision (has_active r jobs).
Proof. unfold has_active. apply _. Defined.

#[global] Instance has_running_dec r jobs : Decision (has_running r jobs).
Proof. unfold has_running. apply _. Defined.

(** Modelled from the spec: [enqueue] (section 4.3). It is a no-op when
    the repository already has a job [pending] or [running]; otherwise it
    stores a new [pending] job. *)
Definition enqueue (jobId repoId : nat) (triggerType : string)
    (changeSummary : option string) (now : Z) (s : State) : option State :=
  if decide (has_active repoId (db_monitoring_jobs (db s))) then Some s
  else
    with_db s <$>
      insert_monitoring_job jobId
        {| J.repo_id := repoId; J.status := J.pending;
           J.trigger_type := triggerType;
           J.changes_detected := changeSummary;
           J.error_message := None;
           J.retry_count := J.default_retry_count;
           J.started_at := None; J.completed_at := None;
           J.created_at := now |}
        (db s).

(** Modelled from the spec: a [pending] job whose repository has no
    [running] job (section 4.3). *)
Definition eligible (jobs : gmap nat J.row) (kj : nat * J.row) : Prop :=
  J.status kj.2 = J.pending /\ ~ has_running (J.repo_id kj.2) jobs.

#[global] Instance eligible_dec jobs kj : Decision (eligible jobs kj).
Proof. unfold eligible. apply _. Defined.

(** Modelled from the spec: first in, first out, by creation time and
    then by key (section 4.3). *)
Definition older (a b : nat * J.row) : bool :=
  (J.created_at a.2 <? J.created_at b.2)%Z
  || ((J.created_at a.2 =? J.created_at b.2)%Z && (a.1 <? b.1)%nat).

Definition oldest (l : list (nat * J.row)) : option (nat * J.row) :=
  foldr (fun x acc =>
           match acc with
           | None => Some x
           | Some y => if older x y then Some x else Some y
           end) None l.

Definition select_next (jobs : gmap nat J.row) : option (nat * J.row) :=
  oldest (filter (eligible jobs) (map_to_list jobs)).

(** Modelled from the spec: [dequeueNext] (section 4.3). It takes the
    oldest eligible job, marks it [running], sets [started_at] and hands
    it to the executor, whose run starts the repository's machine: the
    repository goes to [cloning], with no [error_message] (sections 3
    and 4.2). *)
Definition dequeueNext (now : Z) (s : State) : option State :=
  match select_next (db_monitoring_jobs (db s)) with
  | None => None
  | Some (k, j) =>
      r ← db_repositories (db s) !! J.repo_id j;
      st ← transition (R.status r) JobStarts;
      Some {| db := update_repository (J.repo_id j)
                      (fun r => clear_error (set_status st r))
                      (update_monitoring_job k (job_running now) (db s));
              runs := <[k := {| run_repo := J.repo_id j; stage := Resolving |}]>
                        (runs s) |}
  end.

(** ** The Analysis Executor *)

(** Modelled from the spec: the trigger type of a change-detection poll
    (sections 3 and 4.4). *)
Definition scheduled_poll : string := "scheduled-poll".

(** Modelled from the spec: the repository status that goes with a stage
    of the run (sections 4.2 and 4.4). *)
Definition stage_status (g : Stage) : option Api.RepositoryStatus :=
  match g with
  | Resolving => Some Api.cloning
  | Extracting _ => Some Api.analyzing
  | Generating _ _ _ | Persisted _ => Some Api.generating_docs
  | Succeeded | Failed _ => None
  end.

(** Modelled from the spec: one stage boundary of the run of job [k]
    (section 4.4). The repository, which is in the status of the run's
    stage, takes the machine's transition for [t]; [f] sets what the
    transition sets besides the status; the run moves to stage [next]. *)
Definition advance (s : State) (k : nat) (run : Run) (t : Trigger)
    (f : R.row -> R.row) (next : Stage) : option State :=
  r ← db_repositories (db s) !! run_repo run;
  if decide (stage_status (stage run) = Some (R.status r)) then
    st ← transition (R.status r) t;
    Some {| db := update_repository (run_repo run)
                    (fun r => f (set_status st r)) (db s);
            runs := <[k := {| run_repo := run_repo run; stage := next |}]>
                      (runs s) |}
  else None.

(** Modelled from the spec: the atomic steps of the system. A
    repository is created by an analysis request and deleted by a
    deletion request; the scheduler enqueues, dequeues and records the
    end of a run; the executor resolves the source (or, on a poll that
    finds the head unchanged, short-circuits to [completed]), extracts
    the facts, appends the version once the content is produced, then
    flips the status; any stage may fail (sections 3, 4.3 and 4.4). *)
Inductive Event :=
  | CreateRepository (id : nat) (url : string) (branch : option string)
      (monitoring_enabled : option bool) (now : Z)
  | DeleteRepository (id : nat)
  | Enqueue (jobId repoId : nat) (triggerType : string)
      (changeSummary : option string) (now : Z)
  | DequeueNext (now : Z)
  | SourceResolved (jobId : nat) (commit : string)
  | ShortCircuit (jobId : nat) (commit : string) (now : Z)
  | FactsExtracted (jobId : nat) (file_count lines_of_code : Z)
  | ContentProduced (jobId docId : nat) (content : string) (now : Z)
  | StatusFlipped (jobId : nat) (now : Z)
  | StageFailed (jobId : nat) (reason : string)
  | RunCompleted (jobId : nat) (now : Z).

Section Policy.

(** The configured maximum of retries (policy default: 3). *)
Variable max_retries : Z.

(** Modelled from the spec: what the scheduler does when the executor
    is done with job [k] (section 4.3). Success marks the job
    [completed]. On failure [retry_count] is compared with the maximum
    before it is increased, so that it counts the resubmissions (section
    3) and a job that always fails is attempted [max_retries + 1] times
    (section 8); the repository is [failed] already, by the executor's
    own transition. *)
Definition run_completed (k : nat) (now : Z) (s : State) : option State :=
  run ← runs s !! k;
  j ← db_monitoring_jobs (db s) !! k;
  if decide (J.status j = J.running) then
    match stage run with
    | Succeeded =>
        Some {| db := update_monitoring_job k (job_completed now) (db s);
                runs := delete k (runs s) |}
    | Failed reason =>
        if (J.retry_count j <? max_retries)%Z then
          Some {| db := update_monitoring_job k job_retried (db s);
                  runs := delete k (runs s) |}
        else
          Some {| db := update_monitoring_job k (job_failed reason now) (db s);
                  runs := delete k (runs s) |}
    | _ => None
    end
  else None.

(** Modelled from the spec: the steps of the system, each atomic
    (sections 3 and 4). A step that the state does not allow gives
    [None]. *)
Definition step (s : State) (e : Event) : option State :=
  match e with
  | CreateRepository id url branch monitoring now =>
      with_db s <$>
        insert_repository id now
          {| R.v_url := url; R.v_name := None; R.v_description := None;
             R.v_status := "pending"; R.v_last_commit_hash := None;
             R.v_branch := branch; R.v_monitoring_enabled := monitoring;
             R.v_webhook_id := None; R.v_error_message := None;
             R.v_last_analyzed_at := None; R.v_created_at := None;
             R.v_updated_at := None |}
          (db s)
  | DeleteRepository id =>
      d ← delete_repository id (db s);
      Some {| db := d;
              runs := filter (fun kr => run_repo kr.2 <> id) (runs s) |}
  | Enqueue jobId repoId triggerType changeSummary now =>
      enqueue jobId repoId triggerType changeSummary now s
  | DequeueNext now => dequeueNext now s
  | SourceResolved k commit =>
      run ← runs s !! k;
      match stage run with
      | Resolving => advance s k run StageSucceeds (fun r => r) (Extracting commit)
      | _ => None
      end
  | ShortCircuit k commit now =>
      run ← runs s !! k;
      j ← db_monitoring_jobs (db s) !! k;
      r ← db_repositories (db s) !! run_repo run;
      match stage run with
      | Resolving =>
          if decide (J.trigger_type j = scheduled_poll
                     /\ R.last_commit_hash r = Some commit
                     /\ R.status r = Api.cloning)
          then Some {| db := update_repository (run_repo run)
                               (fun r => set_analyzed commit now
                                           (set_status Api.completed r))
                               (db s);
                       runs := <[k := {| run_repo := run_repo run;
                                         stage := Succeeded |}]> (runs s) |}
          else None
      | _ => None
      end
  | FactsExtracted k fc loc =>
      run ← runs s !! k;
      match stage run with
      | Extracting commit =>
          advance s k run StageSucceeds (fun r => r) (Generating commit fc loc)
      | _ => None
      end
  | ContentProduced k docId content now =>
      run ← runs s !! k;
      match stage run with
      | Generating commit fc loc =>
          let a := {| DocumentStore.docId := docId;
                      DocumentStore.repoId := run_repo run;
                      DocumentStore.content := content;
                      DocumentStore.commitHash := commit;
                      DocumentStore.fileCount := fc;
                      DocumentStore.linesOfCode := loc;
                      DocumentStore.now := now |} in
          d ← insert_documentation
                (DocumentStore.append a (db_documentation (db s))).1 (db s);
          Some {| db := d;
                  runs := <[k := {| run_repo := run_repo run;
                                    stage := Persisted commit |}]> (runs s) |}
      | _ => None
      end
  | StatusFlipped k now =>
      run ← runs s !! k;
      match stage run with
      | Persisted commit =>
          advance s k run StageSucceeds (set_analyzed commit now) Succeeded
      | _ => None
      end
  | StageFailed k reason =>
      run ← runs s !! k;
      match stage run with
      | Resolving | Extracting _ | Generating _ _ _ =>
          advance s k run StageFails (set_error reason) (Failed reason)
      | _ => None
      end
  | RunCompleted k now => run_completed k now s
  end.

(** Modelled from the spec: an execution, any interleaving of the steps
    of the scheduler and of the executors of different jobs (section 5). *)
Fixpoint exec (events : list Event) (s : State) : option State :=
  match events with
  | [] => Some s
  | e :: rest =>
      match step s e with
      | Some s' => exec rest s'
      | None => None
      end
  end.

End Policy.


Definition jobs (s : State) : gmap nat J.row := db_monitoring_jobs (db s).
Definition repos (s : State) : gmap nat R.row := db_repositories (db s).
Definition documents (s : State) : list D.row := db_documentation (db s).

Lemma oldest_elem l x : oldest l = Some x -> x ∈ l.
Proof.
  revert x. induction l as [|y l IH]; simpl; intros x Hx; [discriminate |].
  destruct (oldest l) as [z|] eqn:Hz.
  - destruct (older y z); injection Hx as <-.
    + apply list_elem_of_here.
    + apply list_elem_of_further, IH. reflexivity.
  - injection Hx as <-. apply list_elem_of_here.
Qed.

Lemma select_next_Some js k j :
  select_next js = Some (k, j) ->
  js !! k = Some j /\ J.status j = J.pending /\ ~ has_running (J.repo_id j) js.
Proof.
  unfold select_next. intros H%oldest_elem.
  apply list_elem_of_filter in H as [[Hp Hr] Hin].
  apply elem_of_map_to_list in Hin. auto.
Qed.

(** At most one job of a repository is [running]. *)
Definition one_running (js : gmap nat J.row) : Prop :=
  forall k1 k2 j1 j2,
    js !! k1 = Some j1 -> js !! k2 = Some j2 ->
    J.repo_id j1 = J.repo_id j2 ->
    J.status j1 = J.running -> J.status j2 = J.running ->
    k1 = k2.

(** Case analysis on a step that returned a state. *)
Ltac open_step := repeat (simplify_option_eq; case_match); simplify_option_eq.

Section Policy.
Variable max_retries : Z.

Lemma step_one_running s e s' :
  one_running (jobs s) -> step max_retries s e = Some s' -> one_running (jobs s').
Proof.
  unfold jobs. intros Hone Hstep. destruct e; simpl in Hstep.
  - (* CreateRepository *)
    unfold insert_repository in Hstep.
    open_step; exact Hone.
  - (* DeleteRepository *)
    unfold delete_repository in Hstep.
    open_step; try exact Hone.
    intros k1 k2 j1 j2 Ha Hb.
    apply map_lookup_filter_Some in Ha as [Ha1 _].
    apply map_lookup_filter_Some in Hb as [Hb1 _].
    eapply Hone; eassumption.
  - (* Enqueue *)
    unfold enqueue, insert_monitoring_job in Hstep.
    open_step; try exact Hone.
    intros k1 k2 j1 j2 Ha Hb Hr Hsa Hsb.
    apply lookup_insert_Some in Ha as [[<- <-] | [Hna Ha]]; [discriminate |].
    apply lookup_insert_Some in Hb as [[<- <-] | [Hnb Hb]]; [discriminate |].
    eapply Hone; eassumption.
  - (* DequeueNext *)
    unfold dequeueNext in Hstep.
    destruct (select_next _) as [[k j]|] eqn:Hsel; [| discriminate].
    apply select_next_Some in Hsel as (Hk & Hpend & Hfree).
    simplify_option_eq.
    assert (Hother : forall k' j', db_monitoring_jobs (db s) !! k' = Some j' ->
              J.repo_id j' = J.repo_id j -> J.status j' = J.running -> False).
    { intros k' j' Hk' Hr Hs. apply Hfree. exists k', j'. auto. }
    intros k1 k2 j1 j2 Ha Hb Hr Hsa Hsb.
    apply lookup_alter_Some in Ha as [(<- & j1' & Ha & ->) | [Hna Ha]];
    apply lookup_alter_Some in Hb as [(<- & j2' & Hb & ->) | [Hnb Hb]];
      simpl in *.
    + reflexivity.
    + exfalso. simplify_eq. eapply Hother; eauto.
    + exfalso. simplify_eq. eapply Hother; eauto.
    + eapply Hone; eassumption.
  - (* SourceResolved *)
    unfold advance in Hstep. open_step; exact Hone.
  - (* ShortCircuit *)
    open_step; exact Hone.
  - unfold advance in Hstep. open_step; exact Hone.
  - (* ContentProduced *)
    unfold insert_documentation in Hstep.
    open_step; exact Hone.
  - unfold advance in Hstep. open_step; exact Hone.
  - unfold advance in Hstep. open_step; exact Hone.
  - (* RunCompleted *)
    unfold run_completed in Hstep.
    open_step;
      intros k1 k2 j1 j2 Ha Hb Hr Hsa Hsb;
      apply lookup_alter_Some in Ha as [(<- & j1' & Ha & ->) | [Hna Ha]];
      apply lookup_alter_Some in Hb as [(<- & j2' & Hb & ->) | [Hnb Hb]];
      simpl in *; try discriminate; eapply Hone; eassumption.
Qed.
End Policy.

(** The store holds a version of repository [repoId] generated from
    [commit]. *)
Definition has_version (ds : list D.row) (repoId : nat) (commit : string) : Prop :=
  exists d, d ∈ ds /\ D.repo_id d = repoId /\ D.commit_hash d = commit.

Record published (s : State) : Prop := {
  pub_commit : forall id r h,
    repos s !! id = Some r -> R.last_commit_hash r = Some h ->
    has_version (documents s) id h;
  pub_completed : forall id r,
    repos s !! id = Some r -> R.status r = Api.completed ->
    is_Some (R.last_commit_hash r);
  pub_run : forall k run h,
    runs s !! k = Some run -> stage run = Persisted h ->
    has_version (documents s) (run_repo run) h
}.

Lemma has_version_app ds d r h : has_version ds r h -> has_version (ds ++ [d]) r h.
Proof.
  intros (d' & Hin & Hr & Hh). exists d'. split; [| auto].
  apply elem_of_app. left. exact Hin.
Qed.

Lemma has_version_filter ds id r h :
  r <> id -> has_version ds r h ->
  has_version (filter (fun d => D.repo_id d <> id) ds) r h.
Proof.
  intros Hne (d & Hin & Hr & Hh). exists d. split; [| auto].
  apply list_elem_of_filter. split; [congruence | exact Hin].
Qed.

Lemma advance_Some s k run t f next s' :
  advance s k run t f next = Some s' ->
  exists r st,
    repos s !! run_repo run = Some r /\
    stage_status (stage run) = Some (R.status r) /\
    transition (R.status r) t = Some st /\
    s' = {| db := update_repository (run_repo run) (fun r => f (set_status st r)) (db s);
            runs := <[k := {| run_repo := run_repo run; stage := next |}]> (runs s) |}.
Proof.
  unfold advance, repos. intros H. open_step. eauto 10.
Qed.

Lemma published_init : published init.
Proof.
  split; unfold repos, documents; simpl.
  - intros id r h Hr. rewrite lookup_empty in Hr. discriminate.
  - intros id r Hr. rewrite lookup_empty in Hr. discriminate.
  - intros k run h Hr. rewrite lookup_empty in Hr. discriminate.
Qed.

Lemma create_repository_row id url branch mon now d d' :
  insert_repository id now
    {| R.v_url := url; R.v_name := None; R.v_description := None;
       R.v_status := "pending"; R.v_last_commit_hash := None;
       R.v_branch := branch; R.v_monitoring_enabled := mon;
       R.v_webhook_id := None; R.v_error_message := None;
       R.v_last_analyzed_at := None; R.v_created_at := None;
       R.v_updated_at := None |} d = Some d' ->
  exists r,
    db_repositories d !! id = None /\
    R.status r = Api.pending /\ R.last_commit_hash r = None /\
    R.error_message r = None /\
    d' = {| db_repositories := <[id := r]> (db_repositories d);
            db_documentation := db_documentation d;
            db_monitoring_jobs := db_monitoring_jobs d |}.
Proof.
  unfold insert_repository. destruct (db_repositories d !! id); [discriminate |].
  cbn. intros [= <-]. eexists. repeat split; reflexivity.
Qed.

Lemma transition_JobStarts st st' : transition st JobStarts = Some st' -> st' = Api.cloning.
Proof. destruct st; simpl; congruence. Qed.

Section Policy.
Variable max_retries : Z.

Lemma step_published s e s' :
  published s -> step max_retries s e = Some s' -> published s'.
Proof.
  intros [Hc Hd Hr] Hstep. destruct e; simpl in Hstep.
  - (* CreateRepository *)
    destruct (insert_repository _ _ _ _) as [d'|] eqn:Hins; [| discriminate].
    apply create_repository_row in Hins as (r & Hfresh & Hst & Hlc & _ & ->).
    injection Hstep as <-.
    split; unfold repos, documents in *; simpl.
    + intros id0 r0 h Hl Hh.
      apply lookup_insert_Some in Hl as [[<- <-] | [Hne Hl]]; [congruence | eauto].
    + intros id0 r0 Hl Hs.
      apply lookup_insert_Some in Hl as [[<- <-] | [Hne Hl]]; [congruence | eauto].
    + exact Hr.
  - (* DeleteRepository *)
    unfold delete_repository in Hstep.
    destruct (db_repositories (db s) !! id) as [r|] eqn:Hid;
      simpl in Hstep; injection Hstep as <-;
      split; unfold repos, documents in *; simpl.
    + intros id0 r0 h Hl Hh. apply lookup_delete_Some in Hl as [Hne Hl].
      apply has_version_filter; [congruence | eauto].
    + intros id0 r0 Hl Hs. apply lookup_delete_Some in Hl as [Hne Hl]. eauto.
    + intros k run h Hl Hs. apply map_lookup_filter_Some in Hl as [Hl Hne].
      apply has_version_filter; [exact Hne | eauto].
    + exact Hc.
    + exact Hd.
    + intros k run h Hl Hs. apply map_lookup_filter_Some in Hl as [Hl Hne]. eauto.
  - (* Enqueue *)
    unfold enqueue, insert_monitoring_job in Hstep. open_step;
      split; unfold repos, documents in *; simpl; assumption.
  - (* DequeueNext *)
    unfold dequeueNext in Hstep.
    destruct (select_next _) as [[k j]|]; [| discriminate].
    destruct (db_repositories (db s) !! J.repo_id j) as [r|] eqn:Hrepo;
      [| discriminate]. simpl in Hstep.
    destruct (transition (R.status r) JobStarts) as [st|] eqn:Ht;
      [| discriminate]. simpl in Hstep. injection Hstep as <-.
    apply transition_JobStarts in Ht as ->.
    split; unfold repos, documents in *; simpl.
    + intros id0 r0 h Hl Hh.
      apply lookup_alter_Some in Hl as [(<- & r1 & Hl & ->) | [Hne Hl]]; eauto.
    + intros id0 r0 Hl Hs.
      apply lookup_alter_Some in Hl as [(<- & r1 & Hl & ->) | [Hne Hl]];
        [discriminate | eauto].
    + intros k0 run h Hl Hs.
      apply lookup_insert_Some in Hl as [[<- <-] | [Hne Hl]]; [discriminate | eauto].
  - (* SourceResolved *)
    destruct (runs s !! jobId) as [run|] eqn:Hrun; [| discriminate]. simpl in Hstep.
    destruct (stage run) eqn:Hstage; try discriminate.
    apply advance_Some in Hstep as (r & st & Hl0 & Hss & Ht & ->).
    rewrite Hstage in Hss. injection Hss as Hss. rewrite <- Hss in Ht.
    injection Ht as <-.
    split; unfold repos, documents in *; simpl.
    + intros id0 r0 h Hl Hh.
      apply lookup_alter_Some in Hl as [(<- & r1 & Hl & ->) | [Hne Hl]]; eauto.
    + intros id0 r0 Hl Hs.
      apply lookup_alter_Some in Hl as [(<- & r1 & Hl & ->) | [Hne Hl]];
        [discriminate | eauto].
    + intros k0 run0 h Hl Hs.
      apply lookup_insert_Some in Hl as [[<- <-] | [Hne Hl]]; [discriminate | eauto].
  - (* ShortCircuit *)
    destruct (runs s !! jobId) as [run|] eqn:Hrun; [| discriminate]. simpl in Hstep.
    destruct (db_monitoring_jobs (db s) !! jobId) as [j|]; [| discriminate].
    simpl in Hstep.
    destruct (db_repositories (db s) !! run_repo run) as [r|] eqn:Hrepo;
      [| discriminate]. simpl in Hstep.
    destruct (stage run) eqn:Hstage; try discriminate.
    destruct (decide _) as [(Hpoll & Hsame & Hcl)|]; [| discriminate].
    injection Hstep as <-.
    split; unfold repos, documents in *; simpl.
    + intros id0 r0 h Hl Hh.
      apply lookup_alter_Some in Hl as [(<- & r1 & Hl & ->) | [Hne Hl]];
        [| eauto].
      simpl in Hh. injection Hh as <-. eapply Hc; [exact Hrepo | exact Hsame].
    + intros id0 r0 Hl Hs.
      apply lookup_alter_Some in Hl as [(<- & r1 & Hl & ->) | [Hne Hl]];
        [simpl; eauto | eauto].
    + intros k0 run0 h Hl Hs.
      apply lookup_insert_Some in Hl as [[<- <-] | [Hne Hl]]; [discriminate | eauto].
  - (* FactsExtracted *)
    destruct (runs s !! jobId) as [run|] eqn:Hrun; [| discriminate]. simpl in Hstep.
    destruct (stage run) eqn:Hstage; try discriminate.
    apply advance_Some in Hstep as (r & st & Hl0 & Hss & Ht & ->).
    rewrite Hstage in Hss. injection Hss as Hss. rewrite <- Hss in Ht.
    injection Ht as <-.
    split; unfold repos, documents in *; simpl.
    + intros id0 r0 h Hl Hh.
      apply lookup_alter_Some in Hl as [(<- & r1 & Hl & ->) | [Hne Hl]]; eauto.
    + intros id0 r0 Hl Hs.
      apply lookup_alter_Some in Hl as [(<- & r1 & Hl & ->) | [Hne Hl]];
        [discriminate | eauto].
    + intros k0 run0 h Hl Hs.
      apply lookup_insert_Some in Hl as [[<- <-] | [Hne Hl]]; [discriminate | eauto].
  - (* ContentProduced *)
    destruct (runs s !! jobId) as [run|] eqn:Hrun; [| discriminate]. simpl in Hstep.
    destruct (stage run) eqn:Hstage; try discriminate.
    unfold insert_documentation in Hstep.
    destruct (decide _); [| discriminate]. simpl in Hstep. injection Hstep as <-.
    split; unfold repos, documents in *; simpl.
    + intros id0 r0 h Hl Hh. apply has_version_app. eauto.
    + exact Hd.
    + intros k0 run0 h Hl Hs.
      apply lookup_insert_Some in Hl as [[<- <-] | [Hne Hl]].
      * simpl in *. injection Hs as <-. eexists. split.
        { apply elem_of_app. right. apply list_elem_of_singleton. reflexivity. }
        split; reflexivity.
      * apply has_version_app. eauto.
  - (* StatusFlipped *)
    destruct (runs s !! jobId) as [run|] eqn:Hrun; [| discriminate]. simpl in Hstep.
    destruct (stage run) eqn:Hstage; try discriminate.
    apply advance_Some in Hstep as (r & st & Hl0 & Hss & Ht & ->).
    pose proof (Hr _ _ _ Hrun Hstage) as Hv.
    split; unfold repos, documents in *; simpl.
    + intros id0 r0 h Hl Hh.
      apply lookup_alter_Some in Hl as [(<- & r1 & Hl & ->) | [Hne Hl]]; [| eauto].
      simpl in Hh. injection Hh as <-. exact Hv.
    + intros id0 r0 Hl Hs.
      apply lookup_alter_Some in Hl as [(<- & r1 & Hl & ->) | [Hne Hl]];
        [simpl; eauto | eauto].
    + intros k0 run0 h Hl Hs.
      apply lookup_insert_Some in Hl as [[<- <-] | [Hne Hl]]; [discriminate | eauto].
  - (* StageFailed *)
    destruct (runs s !! jobId) as [run|] eqn:Hrun; [| discriminate]. simpl in Hstep.
    assert (Hadv : advance s jobId run StageFails (set_error reason) (Failed reason)
                   = Some s').
    { destruct (stage run); try discriminate; exact Hstep. }
    clear Hstep.
    apply advance_Some in Hadv as (r & st & Hl0 & Hss & Ht & ->).
    assert (st = Api.failed) as ->.
    { destruct (R.status r); simpl in Ht; congruence. }
    split; unfold repos, documents in *; simpl.
    + intros id0 r0 h Hl Hh.
      apply lookup_alter_Some in Hl as [(<- & r1 & Hl & ->) | [Hne Hl]]; eauto.
    + intros id0 r0 Hl Hs.
      apply lookup_alter_Some in Hl as [(<- & r1 & Hl & ->) | [Hne Hl]];
        [discriminate | eauto].
    + intros k0 run0 h Hl Hs.
      apply lookup_insert_Some in Hl as [[<- <-] | [Hne Hl]]; [discriminate | eauto].
  - (* RunCompleted *)
    unfold run_completed in Hstep. open_step;
      split; unfold repos, documents in *; simpl; try assumption;
      intros k0 run0 h Hl Hs; apply lookup_delete_Some in Hl as [Hne Hl]; eauto.
Qed.
End Policy.

(** ** Deletion and the cascade *)

Lemma delete_repository_cascades k d r :
  db_repositories d !! k = Some r ->
  exists d',
    delete_repository k d = Some d' /\
    db_repositories d' !! k = None /\
    documentation_of k d' = [] /\
    monitoring_jobs_of k d' = ∅ /\
    forall k', k' <> k ->
      db_repositories d' !! k' = db_repositories d !! k' /\
      documentation_of k' d' = documentation_of k' d /\
      monitoring_jobs_of k' d' = monitoring_jobs_of k' d.
Proof.
  intros Hk. unfold delete_repository. rewrite Hk. simpl.
  eexists. split; [reflexivity |].
  unfold documentation_of, monitoring_jobs_of. simpl.
  split; [apply lookup_delete_eq |].
  split.
  { rewrite list_filter_filter. induction (db_documentation d) as [|x l IH];
      [reflexivity |].
    rewrite filter_cons. destruct (decide _) as [[H1 H2] |]; [contradiction | exact IH]. }
  split.
  { apply map_empty_filter. intros i x Hl%map_lookup_filter_Some.
    simpl in *. tauto. }
  intros k' Hne. split; [apply lookup_delete_ne; congruence |].
  split.
  - apply list_filter_filter_l. intros x. congruence.
  - apply map_filter_filter_l. intros i x _. simpl. congruence.
Qed.

Lemma delete_absent_repository k d :
  db_repositories d !! k = None -> delete_repository k d = Some d.
Proof. intros Hk. unfold delete_repository. rewrite Hk. reflexivity. Qed.

Section Policy.
Variable max_retries : Z.

Lemma step_keeps_versions s e s' id :
  step max_retries s e = Some s' ->
  e <> DeleteRepository id ->
  documentation_of id (db s) `prefix_of` documentation_of id (db s').
Proof.
  unfold documentation_of. intros Hstep Hne. destruct e; simpl in Hstep.
  - unfold insert_repository in Hstep. open_step. reflexivity.
  - unfold delete_repository in Hstep.
    destruct (db_repositories (db s) !! id0) eqn:Hid;
      simpl in Hstep; injection Hstep as <-; simpl; [| reflexivity].
    rewrite list_filter_filter_l; [reflexivity |].
    intros x -> ->. apply Hne. reflexivity.
  - unfold enqueue, insert_monitoring_job in Hstep. open_step; reflexivity.
  - unfold dequeueNext in Hstep. open_step. reflexivity.
  - unfold advance in Hstep. open_step. reflexivity.
  - open_step. reflexivity.
  - unfold advance in Hstep. open_step. reflexivity.
  - unfold insert_documentation in Hstep. open_step.
    rewrite filter_app. apply prefix_app_r. reflexivity.
  - unfold advance in Hstep. open_step. reflexivity.
  - unfold advance in Hstep. open_step; reflexivity.
  - unfold run_completed in Hstep. open_step; reflexivity.
Qed.

Lemma delete_step s id :
  step max_retries s (DeleteRepository id) =
  match delete_repository id (db s) with
  | Some d => Some {| db := d;
                      runs := filter (fun kr => run_repo kr.2 <> id) (runs s) |}
  | None => None
  end.
Proof. simpl. destruct (delete_repository id (db s)); reflexivity. Qed.

End Policy.

(** ** The repository status and its error message *)

Lemma status_check_iff t :
  R.status_check t = true <-> exists st, R.status_text st = t.
Proof.
  unfold R.status_check, text_in, R.status_values. simpl. split.
  - intros H. repeat (apply orb_prop in H as [H | H]);
      try discriminate; apply String.eqb_eq in H; subst t;
      [ exists Api.pending | exists Api.cloning | exists Api.analyzing
      | exists Api.generating_docs | exists Api.completed | exists Api.failed ];
      reflexivity.
  - intros [st <-]. destruct st; reflexivity.
Qed.

Lemma status_text_inj st1 st2 : R.status_text st1 = R.status_text st2 -> st1 = st2.
Proof. destruct st1, st2; simpl; intros H; try reflexivity; discriminate H. Qed.

Lemma parse_status_text st : R.parse_status (R.status_text st) = Some st.
Proof. destruct st; reflexivity. Qed.

Lemma transition_StageFails st st' :
  transition st StageFails = Some st' -> st' = Api.failed.
Proof. destruct st; simpl; congruence. Qed.

Lemma transition_StageSucceeds st st' :
  transition st StageSucceeds = Some st' -> st <> Api.failed /\ st' <> Api.failed.
Proof. destruct st; simpl; intros [= <-]; split; discriminate. Qed.

(** A row that a step left alone, or changed without touching
    [error_message]. *)
Ltac same_error Hr Hr' Hne :=
  first
    [ rewrite Hr in Hr'; injection Hr' as <-; contradiction
    | apply lookup_alter_Some in Hr' as [(<- & ? & Hr' & ->) | [? Hr']];
      rewrite Hr in Hr'; injection Hr' as <-; simpl in Hne; contradiction
    | apply lookup_delete_Some in Hr' as [? Hr'];
      rewrite Hr in Hr'; injection Hr' as <-; contradiction
    | apply lookup_insert_Some in Hr' as [[<- <-] | [? Hr']];
      [ congruence | rewrite Hr in Hr'; injection Hr' as <-; contradiction ] ].

(** "[error_message] is set only when the status is [failed]", as a
    property of a row, with its converse: a [failed] row has one. *)
Definition error_only_when_failed (r : R.row) : Prop :=
  is_Some (R.error_message r) -> R.status r = Api.failed.

Definition error_iff_failed (r : R.row) : Prop :=
  is_Some (R.error_message r) <-> R.status r = Api.failed.

Definition errors_on_failed (s : State) : Prop :=
  forall id r, repos s !! id = Some r -> error_iff_failed r.

Lemma no_error_not_failed (r : R.row) :
  R.error_message r = None -> R.status r <> Api.failed -> error_iff_failed r.
Proof.
  intros He Hs. split; [rewrite He; intros [x Hx]; discriminate Hx | contradiction].
Qed.

Lemma not_failed_no_error (r : R.row) :
  error_iff_failed r -> R.status r <> Api.failed -> R.error_message r = None.
Proof.
  intros [H _] Hs. destruct (R.error_message r); [| reflexivity].
  contradiction Hs. apply H. eauto.
Qed.

Lemma errors_on_failed_alter f k (m : gmap nat R.row) :
  (forall id r, m !! id = Some r -> error_iff_failed r) ->
  (forall r0, m !! k = Some r0 -> error_iff_failed (f r0)) ->
  forall id r, alter f k m !! id = Some r -> error_iff_failed r.
Proof.
  intros Hm Hf id r Hr.
  apply lookup_alter_Some in Hr as [(<- & r0 & Hr0 & ->) | [_ Hr]]; eauto.
Qed.

Lemma errors_on_failed_advance s k run t f next s' :
  errors_on_failed s ->
  advance s k run t f next = Some s' ->
  (forall r0 st,
     error_iff_failed r0 -> transition (R.status r0) t = Some st ->
     error_iff_failed (f (set_status st r0))) ->
  errors_on_failed s'.
Proof.
  intros Hinv Hadv Hf.
  apply advance_Some in Hadv as (r0 & st & Hl0 & _ & Ht & ->).
  unfold errors_on_failed, repos. simpl.
  apply errors_on_failed_alter; [exact Hinv |].
  intros r1 Hr1. apply Hf; [| unfold repos in Hl0; congruence].
  exact (Hinv _ _ Hr1).
Qed.

Section Policy.
Variable max_retries : Z.

(** A step changes [error_message] of a stored repository only by taking
    the repository into [failed], where it stores the reason, or by
    starting a job, where it resets it. *)
Lemma step_error_message s e s' id r r' :
  step max_retries s e = Some s' ->
  repos s !! id = Some r -> repos s' !! id = Some r' ->
  R.error_message r' <> R.error_message r ->
  (R.status r' = Api.failed /\
   exists k reason, e = StageFailed k reason /\ R.error_message r' = Some reason) \/
  (R.status r' = Api.cloning /\ R.error_message r' = None /\
   exists now, e = DequeueNext now).
Proof.
  unfold repos. intros Hstep Hr Hr' Hne. destruct e; simpl in Hstep.
  - destruct (insert_repository _ _ _ _) as [d'|] eqn:Hins; [| discriminate].
    apply create_repository_row in Hins as (r0 & Hfresh & _ & _ & _ & ->).
    injection Hstep as <-. simpl in Hr'. same_error Hr Hr' Hne.
  - unfold delete_repository in Hstep.
    destruct (db_repositories (db s) !! id0) eqn:Hid;
      simpl in Hstep; injection Hstep as <-; simpl in Hr'; same_error Hr Hr' Hne.
  - unfold enqueue, insert_monitoring_job in Hstep.
    open_step; simpl in Hr'; same_error Hr Hr' Hne.
  - right. unfold dequeueNext in Hstep.
    destruct (select_next _) as [[k j]|]; [| discriminate].
    destruct (db_repositories (db s) !! J.repo_id j) as [r0|]; [| discriminate].
    simpl in Hstep.
    destruct (transition (R.status r0) JobStarts) as [st|] eqn:Ht; [| discriminate].
    simpl in Hstep. injection Hstep as <-. simpl in Hr'.
    apply transition_JobStarts in Ht as ->.
    apply lookup_alter_Some in Hr' as [(<- & r1 & Hr1 & ->) | [Hn Hr']];
      [simpl; eauto |].
    rewrite Hr in Hr'. injection Hr' as <-. contradiction.
  - unfold advance in Hstep. open_step; simpl in Hr'; same_error Hr Hr' Hne.
  - open_step; simpl in Hr'; same_error Hr Hr' Hne.
  - unfold advance in Hstep. open_step; simpl in Hr'; same_error Hr Hr' Hne.
  - unfold insert_documentation in Hstep. open_step; simpl in Hr'; same_error Hr Hr' Hne.
  - unfold advance in Hstep. open_step; simpl in Hr'; same_error Hr Hr' Hne.
  - left. cut (R.status r' = Api.failed /\ R.error_message r' = Some reason).
    { intros [H1 H2]. eauto 6. }
    destruct (runs s !! jobId) as [run|] eqn:Hrun; [| discriminate].
    simpl in Hstep.
    assert (Hadv : advance s jobId run StageFails (set_error reason) (Failed reason)
                   = Some s').
    { destruct (stage run); try discriminate; exact Hstep. }
    apply advance_Some in Hadv as (r0 & st & Hl0 & Hss & Ht & ->).
    apply transition_StageFails in Ht as ->. simpl in Hr'.
    apply lookup_alter_Some in Hr' as [(<- & r1 & Hr' & ->) | [Hn Hr']];
      [split; reflexivity |].
    rewrite Hr in Hr'. injection Hr' as <-. contradiction.
  - unfold run_completed in Hstep. open_step; simpl in Hr'; same_error Hr Hr' Hne.
Qed.

(** Every step keeps [error_message] set exactly on the [failed]
    repositories. *)
Lemma step_errors_on_failed s e s' :
  errors_on_failed s -> step max_retries s e = Some s' -> errors_on_failed s'.
Proof.
  intros Hinv Hstep.
  assert (Hsucc : forall f, (forall r, R.error_message (f r) = R.error_message r) ->
            (forall r, R.status (f r) = R.status r) ->
            forall r0 st, error_iff_failed r0 ->
              transition (R.status r0) StageSucceeds = Some st ->
              error_iff_failed (f (set_status st r0))).
  { intros f Hfe Hfs r0 st Hr0 Ht.
    apply transition_StageSucceeds in Ht as [Hn Hn'].
    apply no_error_not_failed; [rewrite Hfe | rewrite Hfs; exact Hn'].
    simpl. apply not_failed_no_error; assumption. }
  destruct e as [id0 url branch mon now | id0 | jobId repoId ty cs now | now
                | k commit | k commit now | k fc loc | k docId content now
                | k now | k reason | k now]; simpl in Hstep.
  - destruct (insert_repository _ _ _ _) as [d'|] eqn:Hins; [| discriminate].
    apply create_repository_row in Hins as (r0 & Hfresh & Hst & _ & Herr & ->).
    injection Hstep as <-. intros id r Hr. unfold repos in Hr. simpl in Hr.
    apply lookup_insert_Some in Hr as [[<- <-] | [_ Hr]]; [| exact (Hinv _ _ Hr)].
    apply no_error_not_failed; [exact Herr | rewrite Hst; discriminate].
  - unfold delete_repository in Hstep.
    destruct (db_repositories (db s) !! id0) as [r0|] eqn:Hid;
      simpl in Hstep; injection Hstep as <-; [| exact Hinv].
    intros id r Hr. unfold repos in Hr. simpl in Hr.
    apply lookup_delete_Some in Hr as [_ Hr]. exact (Hinv _ _ Hr).
  - unfold enqueue, insert_monitoring_job in Hstep.
    open_step; [exact Hinv |]. intros id r Hr. exact (Hinv id r Hr).
  - unfold dequeueNext in Hstep.
    destruct (select_next _) as [[k j]|]; [| discriminate].
    destruct (db_repositories (db s) !! J.repo_id j) as [r0|]; [| discriminate].
    simpl in Hstep.
    destruct (transition (R.status r0) JobStarts) as [st|] eqn:Ht; [| discriminate].
    simpl in Hstep. injection Hstep as <-.
    apply transition_JobStarts in Ht as ->.
    unfold errors_on_failed, repos. simpl.
    apply errors_on_failed_alter; [exact Hinv |].
    intros r1 _. apply no_error_not_failed; [reflexivity | discriminate].
  - destruct (runs s !! k) as [run|]; [| discriminate]. simpl in Hstep.
    destruct (stage run); try discriminate.
    eapply errors_on_failed_advance; [exact Hinv | exact Hstep |].
    apply (Hsucc (fun r => r)); reflexivity.
  - destruct (runs s !! k) as [run|]; [| discriminate]. simpl in Hstep.
    destruct (db_monitoring_jobs (db s) !! k) as [j|]; [| discriminate].
    simpl in Hstep.
    destruct (db_repositories (db s) !! run_repo run) as [r0|] eqn:Hr0;
      [| discriminate].
    simpl in Hstep. destruct (stage run); try discriminate.
    case_decide; [| discriminate]. injection Hstep as <-.
    unfold errors_on_failed, repos. simpl.
    apply errors_on_failed_alter; [exact Hinv |].
    intros r1 Hr1. assert (Heq : r1 = r0) by congruence. subst r1.
    apply no_error_not_failed; [simpl | discriminate].
    apply not_failed_no_error; [exact (Hinv _ _ Hr1) |].
    destruct H as (_ & _ & ->). discriminate.
  - destruct (runs s !! k) as [run|]; [| discriminate]. simpl in Hstep.
    destruct (stage run); try discriminate.
    eapply errors_on_failed_advance; [exact Hinv | exact Hstep |].
    apply (Hsucc (fun r => r)); reflexivity.
  - destruct (runs s !! k) as [run|]; [| discriminate]. simpl in Hstep.
    destruct (stage run); try discriminate.
    unfold insert_documentation in Hstep. open_step. exact Hinv.
  - destruct (runs s !! k) as [run|]; [| discriminate]. simpl in Hstep.
    destruct (stage run); try discriminate.
    eapply errors_on_failed_advance; [exact Hinv | exact Hstep |].
    apply (Hsucc (set_analyzed _ _)); reflexivity.
  - destruct (runs s !! k) as [run|]; [| discriminate]. simpl in Hstep.
    assert (Hadv : advance s k run StageFails (set_error reason) (Failed reason)
                   = Some s').
    { destruct (stage run); try discriminate; exact Hstep. }
    eapply errors_on_failed_advance; [exact Hinv | exact Hadv |].
    intros r0 st _ Ht. apply transition_StageFails in Ht as ->.
    split; [reflexivity | simpl; eauto].
  - unfold run_completed in Hstep. open_step; exact Hinv.
Qed.

(** A repository that a step creates is [pending] and has no
    [error_message]. *)
Lemma step_new_repository s e s' id r' :
  step max_retries s e = Some s' ->
  repos s !! id = None -> repos s' !! id = Some r' ->
  R.status r' = Api.pending /\ R.error_message r' = None.
Proof.
  unfold repos. intros Hstep Hr Hr'. destruct e; simpl in Hstep.
  - destruct (insert_repository _ _ _ _) as [d'|] eqn:Hins; [| discriminate].
    apply create_repository_row in Hins as (r0 & Hfresh & Hst & _ & Herr & ->).
    injection Hstep as <-. simpl in Hr'.
    apply lookup_insert_Some in Hr' as [[<- <-] | [? Hr']]; [auto | congruence].
  - unfold delete_repository in Hstep.
    destruct (db_repositories (db s) !! id0) eqn:Hid;
      simpl in Hstep; injection Hstep as <-; simpl in Hr'; [| congruence].
    apply lookup_delete_Some in Hr' as [? Hr']. congruence.
  - unfold enqueue, insert_monitoring_job in Hstep.
    open_step; simpl in Hr'; congruence.
  - unfold dequeueNext in Hstep. open_step; simpl in Hr';
    apply lookup_alter_Some in Hr' as [(<- & ? & Hr' & ->) | [? Hr']]; congruence.
  - unfold advance in Hstep. open_step; simpl in Hr';
    apply lookup_alter_Some in Hr' as [(<- & ? & Hr' & ->) | [? Hr']]; congruence.
  - open_step; simpl in Hr';
    apply lookup_alter_Some in Hr' as [(<- & ? & Hr' & ->) | [? Hr']]; congruence.
  - unfold advance in Hstep. open_step; simpl in Hr';
    apply lookup_alter_Some in Hr' as [(<- & ? & Hr' & ->) | [? Hr']]; congruence.
  - unfold insert_documentation in Hstep. open_step; simpl in Hr'; congruence.
  - unfold advance in Hstep. open_step; simpl in Hr';
    apply lookup_alter_Some in Hr' as [(<- & ? & Hr' & ->) | [? Hr']]; congruence.
  - unfold advance in Hstep. open_step; simpl in Hr';
    apply lookup_alter_Some in Hr' as [(<- & ? & Hr' & ->) | [? Hr']]; congruence.
  - unfold run_completed in Hstep. open_step; simpl in Hr'; congruence.
Qed.

End Policy.

(** ** Executions *)

Section Policy.
Variable max_retries : Z.

Lemma exec_one_running events : forall s s',
  one_running (jobs s) -> exec max_retries events s = Some s' ->
  one_running (jobs s').
Proof.
  induction events as [|e rest IH]; simpl; intros s s' Hinv Hexec.
  - injection Hexec as <-. exact Hinv.
  - destruct (step max_retries s e) as [s1|] eqn:Hstep; [| discriminate].
    eapply IH; [| exact Hexec]. eapply step_one_running; eassumption.
Qed.

Lemma exec_published events : forall s s',
  published s -> exec max_retries events s = Some s' -> published s'.
Proof.
  induction events as [|e rest IH]; simpl; intros s s' Hinv Hexec.
  - injection Hexec as <-. exact Hinv.
  - destruct (step max_retries s e) as [s1|] eqn:Hstep; [| discriminate].
    eapply IH; [| exact Hexec]. eapply step_published; eassumption.
Qed.

End Policy.

(** ** Version numbers in the pipeline *)

Lemma versions_of_cascade r id ds :
  DocumentStore.versions_of r (filter (fun d => D.repo_id d <> id) ds) =
  if decide (r = id) then [] else DocumentStore.versions_of r ds.
Proof.
  unfold DocumentStore.versions_of. rewrite list_filter_filter.
  destruct (decide (r = id)) as [-> | Hne].
  - induction ds as [|x l IH]; [reflexivity |].
    rewrite filter_cons. destruct (decide _) as [[H1 H2] |]; [contradiction | exact IH].
  - f_equal. apply list_filter_iff. intros x. split; [tauto |].
    intros Hx. split; [exact Hx | congruence].
Qed.

Section Policy.
Variable max_retries : Z.

Lemma step_dense s e s' :
  (forall r, DocumentStore.dense r (documents s)) ->
  step max_retries s e = Some s' ->
  forall r, DocumentStore.dense r (documents s').
Proof.
  unfold documents. intros Hd Hstep r. destruct e; simpl in Hstep.
  - unfold insert_repository in Hstep. open_step. apply Hd.
  - unfold delete_repository in Hstep.
    destruct (db_repositories (db s) !! id) eqn:Hid;
      simpl in Hstep; injection Hstep as <-; simpl; [| apply Hd].
    unfold DocumentStore.dense. rewrite versions_of_cascade.
    destruct (decide (r = id)); [reflexivity | apply Hd].
  - unfold enqueue, insert_monitoring_job in Hstep. open_step; apply Hd.
  - unfold dequeueNext in Hstep. open_step. apply Hd.
  - unfold advance in Hstep. open_step. apply Hd.
  - open_step. apply Hd.
  - unfold advance in Hstep. open_step. apply Hd.
  - unfold insert_documentation in Hstep. open_step.
    apply DocumentStore.dense_app; [apply Hd |]. simpl. intros <-. reflexivity.
  - unfold advance in Hstep. open_step. apply Hd.
  - unfold advance in Hstep. open_step; apply Hd.
  - unfold run_completed in Hstep. open_step; apply Hd.
Qed.

(** In every state that an execution reaches, the versions of each
    repository are 1, 2, ..., n in the order of their insertion. *)
Lemma exec_dense events : forall s s',
  (forall r, DocumentStore.dense r (documents s)) ->
  exec max_retries events s = Some s' ->
  forall r, DocumentStore.dense r (documents s').
Proof.
  induction events as [|e rest IH]; simpl; intros s s' Hinv Hexec.
  - injection Hexec as <-. exact Hinv.
  - destruct (step max_retries s e) as [s1|] eqn:Hstep; [| discriminate].
    eapply IH; [| exact Hexec]. eapply step_dense; eassumption.
Qed.

End Policy.

(** The jobs of a repository that are [running]. *)
Definition running_jobs (repoId : nat) (s : State) : gmap nat J.row :=
  filter (fun kj => J.repo_id kj.2 = repoId /\ J.status kj.2 = J.running) (jobs s).

Lemma size_at_most_one {A} (m : gmap nat A) :
  (forall k1 k2 x1 x2, m !! k1 = Some x1 -> m !! k2 = Some x2 -> k1 = k2) ->
  size m <= 1.
Proof.
  intros Hm. destruct (decide (m = ∅)) as [-> | Hne].
  - rewrite map_size_empty. lia.
  - apply map_choose in Hne as (i & x & Hi).
    assert (Hd : delete i m = ∅).
    { apply map_empty. intros j. apply eq_None_not_Some. intros [y Hy].
      apply lookup_delete_Some in Hy as [Hij Hy]. apply Hij. eapply Hm; eassumption. }
    pose proof (map_size_delete_Some i m (mk_is_Some _ _ Hi)) as Hs.
    rewrite Hd, map_size_empty in Hs. lia.
Qed.

(** C2. In every state that an execution of the system reaches from the
    empty database, under any interleaving of the scheduler's and the
    executors' steps, at most one job of any repository is [running]:
    two stored jobs of one repository that are both [running] are the
    same job, and the running jobs of a repository number at most one. *)
Theorem at_most_one_running_job (max_retries : Z) (events : list Event) (s : State) :
  exec max_retries events init = Some s ->
  forall repoId,
    (forall k1 k2 j1 j2,
       jobs s !! k1 = Some j1 -> jobs s !! k2 = Some j2 ->
       J.repo_id j1 = repoId -> J.repo_id j2 = repoId ->
       J.status j1 = J.running -> J.status j2 = J.running -> k1 = k2) /\
    size (running_jobs repoId s) <= 1.
Proof.
  intros Hexec repoId.
  assert (Hone : one_running (jobs s)).
  { eapply exec_one_running; [| exact Hexec].
    intros k1 k2 j1 j2 H1. unfold jobs in H1. simpl in H1.
    rewrite lookup_empty in H1. discriminate. }
  split.
  - intros k1 k2 j1 j2 H1 H2 Hr1 Hr2 Hs1 Hs2.
    eapply Hone; try eassumption. congruence.
  - apply size_at_most_one. intros k1 k2 j1 j2 H1 H2.
    apply map_lookup_filter_Some in H1 as [H1 [Hr1 Hs1]].
    apply map_lookup_filter_Some in H2 as [H2 [Hr2 Hs2]].
    simpl in *. eapply Hone; try eassumption. congruence.
Qed.

(** Two repositories, three triggers: the second trigger for repository 1
    is turned down while its first job is active, and the two
    repositories run side by side. *)
Definition two_repositories : list Event :=
  [CreateRepository 1 "https://github.com/o/r" None None 10;
   CreateRepository 2 "https://github.com/o/q" (Some "dev") None 10;
   Enqueue 100 1 "manual" None 11;
   Enqueue 101 1 "webhook" None 11;
   Enqueue 102 2 "manual" None 12;
   DequeueNext 13;
   DequeueNext 14;
   SourceResolved 100 "abc123";
   SourceResolved 102 "fed987"].

Lemma at_most_one_running_job_witness :
  match exec 3 two_repositories init with
  | Some s => size (running_jobs 1 s) <= 1 /\ size (running_jobs 2 s) <= 1
  | None => False
  end.
Proof.
  destruct (exec 3 two_repositories init) as [s|] eqn:Hexec.
  - split; apply (at_most_one_running_job 3 two_repositories s Hexec).
  - vm_compute in Hexec. discriminate Hexec.
Defined.

(** C3. In every state that an execution reaches from the empty
    database, a repository whose status is [completed] has a stored
    version of its own whose [commit_hash] is the repository's
    [last_commit_hash]. The executor appends the version in one step and
    flips the status in a later one, and the state in between satisfies
    the property as well. *)
Theorem completed_has_its_version (max_retries : Z) (events : list Event) (s : State) :
  exec max_retries events init = Some s ->
  forall id r,
    repos s !! id = Some r -> R.status r = Api.completed ->
    exists d,
      d ∈ documents s /\ D.repo_id d = id /\
      R.last_commit_hash r = Some (D.commit_hash d).
Proof.
  intros Hexec id r Hr Hs.
  destruct (exec_published max_retries events init s published_init Hexec)
    as [Hc Hd _].
  destruct (Hd id r Hr Hs) as [h Hh].
  destruct (Hc id r h Hr Hh) as (d & Hin & Hid & Hcommit).
  exists d. repeat split; try assumption. congruence.
Qed.

(** The end-to-end scenario: a first run at commit abc123, then a
    webhook for def456 and its run, with a poll in between that finds
    the head unchanged. *)
Definition end_to_end : list Event :=
  [CreateRepository 1 "https://github.com/o/r" None None 10;
   Enqueue 100 1 "manual" None 11;
   DequeueNext 12;
   SourceResolved 100 "abc123";
   FactsExtracted 100 3 40;
   ContentProduced 100 500 "{}" 13;
   StatusFlipped 100 14;
   RunCompleted 100 15;
   Enqueue 101 1 "scheduled-poll" None 20;
   DequeueNext 21;
   ShortCircuit 101 "abc123" 22;
   RunCompleted 101 23;
   Enqueue 102 1 "webhook" (Some "abc123..def456") 30;
   DequeueNext 31;
   SourceResolved 102 "def456";
   FactsExtracted 102 4 55;
   ContentProduced 102 501 "{}" 32;
   StatusFlipped 102 33;
   RunCompleted 102 34].

Lemma completed_has_its_version_witness :
  match exec 3 end_to_end init with
  | Some s =>
      exists r d,
        repos s !! 1%nat = Some r /\ R.status r = Api.completed /\
        d ∈ documents s /\ D.repo_id d = 1%nat /\
        R.last_commit_hash r = Some (D.commit_hash d)
  | None => False
  end.
Proof.
  destruct (exec 3 end_to_end init) as [s|] eqn:Hexec.
  - assert (Hr : exists r, repos s !! 1%nat = Some r /\ R.status r = Api.completed).
    { vm_compute in Hexec. injection Hexec as <-. eexists. split; reflexivity. }
    destruct Hr as (r & Hr & Hs).
    destruct (completed_has_its_version 3 end_to_end s Hexec 1%nat r Hr Hs)
      as (d & Hd).
    exists r, d. tauto.
  - vm_compute in Hexec. discriminate Hexec.
Defined.

(** The scenario ends as the specification says: versions 1 and 2 stored,
    the first one as it was, the repository [completed] at def456, no job
    left active. *)
Example end_to_end_result :
  exists s r,
    exec 3 end_to_end init = Some s /\
    map (fun d => (D.version d, D.commit_hash d)) (documentation_of 1 (db s))
      = [(1%Z, "abc123"); (2%Z, "def456")]%string /\
    repos s !! 1%nat = Some r /\
    R.status r = Api.completed /\
    R.last_commit_hash r = Some "def456"%string /\
    ~ has_active 1 (jobs s).
Proof.
  destruct (exec 3 end_to_end init) as [s|] eqn:Hexec;
    [| vm_compute in Hexec; discriminate Hexec].
  vm_compute in Hexec. injection Hexec as <-.
  do 2 eexists. split; [reflexivity |]. split; [reflexivity |].
  split; [reflexivity |]. split; [reflexivity |]. split; [reflexivity |].
  apply (bool_decide_unpack _). vm_compute. exact I.
Qed.

(** A repository whose source cannot be resolved: with three retries
    allowed, the fourth failed attempt marks the job [failed] for good. *)
Definition always_failing : list Event :=
  [CreateRepository 1 "https://github.com/o/gone" None None 10;
   Enqueue 100 1 "manual" None 11;
   DequeueNext 12; StageFailed 100 "unreachable"; RunCompleted 100 13;
   DequeueNext 14; StageFailed 100 "unreachable"; RunCompleted 100 15;
   DequeueNext 16; StageFailed 100 "unreachable"; RunCompleted 100 17;
   DequeueNext 18; StageFailed 100 "unreachable"; RunCompleted 100 19].

Example retry_bound :
  exists s r j,
    exec 3 always_failing init = Some s /\
    jobs s !! 100%nat = Some j /\ repos s !! 1%nat = Some r /\
    J.status j = J.failed /\ J.retry_count j = 3%Z /\
    R.status r = Api.failed /\
    exec 3 (always_failing ++ [DequeueNext 20]) init = None.
Proof.
  destruct (exec 3 always_failing init) as [s|] eqn:Hexec;
    [| vm_compute in Hexec; discriminate Hexec].
  vm_compute in Hexec. injection Hexec as <-.
  do 3 eexists. repeat split.
Qed.

(** C4. Deleting a stored repository is never refused and takes with it
    every [documentation] row and every [monitoring_jobs] row that
    references it, while the rows of the other repositories stay as they
    are. No other step of the system removes or changes a stored
    version: across any step that is not the deletion of repository
    [id], the versions of [id] that were stored are still stored,
    unchanged and in the same order, followed by the version that the
    step may have appended. *)
Theorem deletion_cascades (max_retries : Z) (s : State) (e : Event) (s' : State) :
  step max_retries s e = Some s' ->
  (forall id,
     e = DeleteRepository id -> is_Some (repos s !! id) ->
     repos s' !! id = None /\
     documentation_of id (db s') = [] /\
     monitoring_jobs_of id (db s') = ∅ /\
     forall id', id' <> id ->
       repos s' !! id' = repos s !! id' /\
       documentation_of id' (db s') = documentation_of id' (db s) /\
       monitoring_jobs_of id' (db s') = monitoring_jobs_of id' (db s)) /\
  (forall id,
     e <> DeleteRepository id ->
     documentation_of id (db s) `prefix_of` documentation_of id (db s')) /\
  (forall id, is_Some (step max_retries s (DeleteRepository id))).
Proof.
  intros Hstep. split; [| split].
  - intros id -> [r Hr]. unfold repos in *.
    destruct (delete_repository_cascades id (db s) r Hr) as (d' & Hdel & Hcascade).
    rewrite delete_step, Hdel in Hstep. injection Hstep as <-. exact Hcascade.
  - intros id Hne. eapply step_keeps_versions; eassumption.
  - intros id. rewrite delete_step.
    destruct (db_repositories (db s) !! id) as [r|] eqn:Hr.
    + destruct (delete_repository_cascades id (db s) r Hr) as (d' & -> & _). eauto.
    + rewrite (delete_absent_repository _ _ Hr). eauto.
Qed.

Lemma deletion_cascades_witness :
  match exec 3 end_to_end init with
  | Some s =>
      match step 3 s (DeleteRepository 1) with
      | Some s' =>
          length (documentation_of 1 (db s)) = 2%nat /\
          documentation_of 1 (db s') = [] /\
          monitoring_jobs_of 1 (db s') = ∅
      | None => False
      end
  | None => False
  end.
Proof.
  destruct (exec 3 end_to_end init) as [s|] eqn:Hexec.
  - destruct (step 3 s (DeleteRepository 1)) as [s'|] eqn:Hstep.
    + destruct (deletion_cascades 3 s (DeleteRepository 1) s' Hstep) as (Hdel & _ & _).
      assert (Hs : is_Some (repos s !! 1%nat) /\
                   length (documentation_of 1 (db s)) = 2%nat).
      { vm_compute in Hexec. injection Hexec as <-. split; [eexists |]; reflexivity. }
      destruct Hs as [Hr Hlen].
      destruct (Hdel 1%nat eq_refl Hr) as (_ & Hdocs & Hjobs & _).
      split; [exact Hlen | split; assumption].
    + vm_compute in Hexec. injection Hexec as <-. vm_compute in Hstep.
      discriminate Hstep.
  - vm_compute in Hexec. discriminate Hexec.
Defined.

(** ** The error message *)

Lemma errors_on_failed_init : errors_on_failed init.
Proof. intros id r Hr. unfold repos in Hr. simpl in Hr. discriminate Hr. Qed.

Lemma exec_errors_on_failed max_retries events : forall s s',
  errors_on_failed s -> exec max_retries events s = Some s' -> errors_on_failed s'.
Proof.
  induction events as [|e rest IH]; simpl; intros s s' Hinv Hexec.
  - injection Hexec as <-. exact Hinv.
  - destruct (step max_retries s e) as [s1|] eqn:Hstep; [| discriminate].
    eapply IH; [| exact Hexec]. eapply step_errors_on_failed; eassumption.
Qed.

(** The failure scenario of the specification: the generation times out
    on the first and the second attempt and succeeds on the third. *)
Definition failure_scenario : list Event :=
  [CreateRepository 1 "https://github.com/o/r" None None 10;
   Enqueue 100 1 "manual" None 11;
   DequeueNext 12;
   SourceResolved 100 "abc123";
   FactsExtracted 100 3 40;
   StageFailed 100 "generation timed out";
   RunCompleted 100 13;
   DequeueNext 14;
   SourceResolved 100 "abc123";
   FactsExtracted 100 3 40;
   StageFailed 100 "generation timed out";
   RunCompleted 100 15;
   DequeueNext 16;
   SourceResolved 100 "abc123";
   FactsExtracted 100 3 40;
   ContentProduced 100 500 "{}" 17;
   StatusFlipped 100 18;
   RunCompleted 100 19].

(** The failure scenario ends with the job [completed] after two
    retries, one version stored, and the repository [completed] without
    [error_message]. *)
Example failure_scenario_result :
  exists s r j,
    exec 3 failure_scenario init = Some s /\
    jobs s !! 100%nat = Some j /\
    J.status j = J.completed /\ J.retry_count j = 2%Z /\
    length (documents s) = 1%nat /\
    repos s !! 1%nat = Some r /\
    R.status r = Api.completed /\
    R.error_message r = None.
Proof.
  destruct (exec 3 failure_scenario init) as [s|] eqn:Hexec;
    [| vm_compute in Hexec; discriminate Hexec].
  vm_compute in Hexec. injection Hexec as <-. do 3 eexists. repeat split.
Qed.

(** The schema alone does not tie [error_message] to the status: the
    CHECK constrains [status], and an INSERT of a [completed] row with an
    [error_message] is stored. That no such row comes to be is up to the
    server. *)
Example schema_admits_error_on_completed :
  exists r,
    R.new_row 0
      {| R.v_url := "https://github.com/o/r"; R.v_name := None;
         R.v_description := None; R.v_status := "completed";
         R.v_last_commit_hash := None; R.v_branch := None;
         R.v_monitoring_enabled := None; R.v_webhook_id := None;
         R.v_error_message := Some "boom"; R.v_last_analyzed_at := None;
         R.v_created_at := None; R.v_updated_at := None |} = Some r /\
    ~ error_only_when_failed r.
Proof.
  eexists. split; [reflexivity |].
  intros H. specialize (H (mk_is_Some _ _ eq_refl)). discriminate H.
Qed.

(** C5. The CHECK on [repositories.status] admits exactly the six values
    pending, cloning, analyzing, generating_docs, completed and failed,
    which are distinct. In every state that the system reaches from the
    empty database, the status of every repository is one of them, and
    its [error_message] is set only when the status is [failed] (and is
    set whenever it is). Step by step: a repository is created [pending]
    with no [error_message]; a step changes the [error_message] of a
    stored repository only by taking it into [failed], where it stores
    the reason of that failure, or by starting a job, which takes the
    repository to [cloning] and resets it. *)
Theorem status_is_one_of_six (max_retries : Z) (events : list Event) (s : State) :
  exec max_retries events init = Some s ->
  (forall t, R.status_check t = true <->
             In t ["pending"; "cloning"; "analyzing"; "generating_docs";
                   "completed"; "failed"]%string) /\
  (forall t, R.status_check t = true <-> exists st, R.status_text st = t) /\
  (forall st1 st2, R.status_text st1 = R.status_text st2 -> st1 = st2) /\
  (forall id r,
     repos s !! id = Some r ->
     R.status_check (R.status_text (R.status r)) = true /\
     (is_Some (R.error_message r) -> R.status r = Api.failed) /\
     (R.status r = Api.failed -> is_Some (R.error_message r))) /\
  (forall e s',
     step max_retries s e = Some s' ->
     (forall id r',
        repos s !! id = None -> repos s' !! id = Some r' ->
        R.status r' = Api.pending /\ R.error_message r' = None) /\
     (forall id r r',
        repos s !! id = Some r -> repos s' !! id = Some r' ->
        R.error_message r' <> R.error_message r ->
        (R.status r' = Api.failed /\
         exists k reason,
           e = StageFailed k reason /\ R.error_message r' = Some reason) \/
        (R.status r' = Api.cloning /\ R.error_message r' = None /\
         exists now, e = DequeueNext now))).
Proof.
  intros Hexec.
  split.
  { intros t. rewrite status_check_iff. split.
    - intros [st <-]. destruct st; simpl; tauto.
    - simpl. intros [<- | [<- | [<- | [<- | [<- | [<- | []]]]]]];
        [ exists Api.pending | exists Api.cloning | exists Api.analyzing
        | exists Api.generating_docs | exists Api.completed | exists Api.failed ];
        reflexivity. }
  split; [apply status_check_iff |].
  split; [apply status_text_inj |].
  split.
  { intros id r Hr. split; [apply status_check_iff; eauto |].
    apply (exec_errors_on_failed _ _ _ _ errors_on_failed_init Hexec id r Hr). }
  intros e s' Hstep. split.
  - intros id r' Hnew Hr'. eapply step_new_repository; eassumption.
  - intros id r r' Hr Hr' Hne. eapply step_error_message; eassumption.
Qed.

(** The first attempt of the failure scenario, up to the time-out of the
    generation: the repository carries the reason, and is [failed]. *)
Lemma status_is_one_of_six_witness :
  match exec 3 (firstn 6 failure_scenario) init with
  | Some s =>
      exists r,
        repos s !! 1%nat = Some r /\
        R.error_message r = Some "generation timed out"%string /\
        R.status r = Api.failed
  | None => False
  end.
Proof.
  destruct (exec 3 (firstn 6 failure_scenario) init) as [s|] eqn:Hexec.
  - destruct (status_is_one_of_six 3 _ s Hexec) as (_ & _ & _ & Hrows & _).
    assert (Hr : exists r, repos s !! 1%nat = Some r /\
                   R.error_message r = Some "generation timed out"%string).
    { vm_compute in Hexec. injection Hexec as <-. eexists. split; reflexivity. }
    destruct Hr as (r & Hr & He).
    destruct (Hrows 1%nat r Hr) as (_ & Hfailed & _).
    exists r. split; [exact Hr |]. split; [exact He |].
    apply Hfailed. rewrite He. eauto.
  - vm_compute in Hexec. discriminate Hexec.
Defined.

End Pipeline.


(* ===================================================================== *)
(** * RepoUpload.tsx: the whole of [handleSubmit] *)
(* ===================================================================== *)

Module SubmitFlow.
Import JsString RepoUpload.

(** Whether the awaited request was fulfilled with [success: true]. *)
Definition succeeded (o : Settled) : bool :=
  match o with
  | Fulfilled response => Api.success response
  | Rejected _ => false
  end.

(** The delays handed to [setTimeout]. *)
Definition timers (es : list Effect) : list Z :=
  omap (fun e => match e with SetTimeout ms => Some ms | _ => None end) es.

Lemma truthy_or_else (a b : jsstring) :
  truthy b = true -> truthy (or_else (fun x => x) a b) = true.
Proof. unfold or_else. destruct (truthy a) eqn:Ha; auto. Qed.

Lemma truthy_opt_or_else a b : truthy b = true -> truthy (opt_or_else a b) = true.
Proof. destruct a; simpl; [apply truthy_or_else | auto]. Qed.

Lemma to_boolean_value_or a b : to_boolean b = true -> to_boolean (value_or a b) = true.
Proof. unfold value_or. destruct (to_boolean a) eqn:Ha; auto. Qed.

(** The effects of a submission whose URL is not blank, by outcome. *)
Lemma handleSubmit_sent c server :
  blank (url c) = false ->
  exists outcome,
    handleSubmit c server =
      [PreventDefault; SetIsSubmitting true; SetResult None; StoreSetError None;
       AnalyzeRepository (request c)] ++ outcome ++ [SetIsSubmitting false] /\
    outcome =
      match server (request c) with
      | Fulfilled response =>
          if Api.success response then
            [SetResult (Some {| success := true;
                                message := Str (js "Analysis started! Repository ID: "
                                                ++ Api.ar_repo_id response) |});
             SetUrl []; SetAuthToken []; SetBranch (js "main"); SetTimeout 2000]
          else
            [SetResult (Some {| success := false;
                                message := Str (opt_or_else (Api.ar_error response)
                                                  (js "Analysis failed")) |})]
      | Rejected error =>
          [SetResult (Some {| success := false;
                              message :=
                                value_or (detail error)
                                  (value_or (error_message error)
                                     (Str (js "Failed to start analysis"))) |})]
      end.
Proof.
  intros Hb. eexists. split; [| reflexivity].
  unfold handleSubmit. rewrite truthy_trim, Hb. reflexivity.
Qed.

(** X1. Whatever becomes of the request (fulfilled with success,
    fulfilled without, rejected with whatever the server put under
    [detail]), a submission with a URL that is not blank starts by
    raising [isSubmitting], clearing the previous result and the store's
    error, and ends with [isSubmitting] lowered, a result set whose
    [success] flag is that of the response and whose message is never
    falsy, and the store changed in [error] only, which is [null]. The
    message is a string that is not empty when the request is fulfilled.
    When it is rejected the message is [detail] as it is, string or not,
    if that is truthy; otherwise [error.message] if that is truthy;
    otherwise 'Failed to start analysis'. *)
Theorem submission_always_settles (c : Component) (store : AppStore.AppState)
    (server : Api.RepositoryCreate -> Settled) :
  blank (url c) = false ->
  firstn 4 (handleSubmit c server) =
    [PreventDefault; SetIsSubmitting true; SetResult None; StoreSetError None] /\
  last (handleSubmit c server) = Some (SetIsSubmitting false) /\
  isSubmitting (submit c store server).1 = false /\
  (exists r,
     result (submit c store server).1 = Some r /\
     to_boolean (message r) = true /\
     success r = succeeded (server (request c)) /\
     match server (request c) with
     | Fulfilled _ => exists m, message r = Str m /\ m <> []
     | Rejected error =>
         message r =
           if to_boolean (detail error) then detail error
           else if to_boolean (error_message error) then error_message error
           else Str (js "Failed to start analysis")
     end) /\
  AppStore.error (submit c store server).2 = None /\
  AppStore.same_but_error store (submit c store server).2.
Proof.
  intros Hb. destruct (handleSubmit_sent c server Hb) as (outcome & He & Ho).
  unfold submit. rewrite He. split; [reflexivity |].
  split; [rewrite !app_assoc; apply last_snoc |].
  rewrite Ho. unfold AppStore.same_but_error.
  assert (Hne : forall m : jsstring, truthy m = true -> m <> [])
    by (intros [|x m]; [discriminate | discriminate]).
  destruct (server (request c)) as [response | error]; simpl;
    [destruct (Api.success response) eqn:Hs |]; simpl.
  - repeat split. eexists. split; [reflexivity |]. split; [reflexivity |].
    split; [reflexivity |]. eexists. split; [reflexivity | discriminate].
  - repeat split. eexists. split; [reflexivity |].
    assert (Ht : truthy (opt_or_else (Api.ar_error response) (js "Analysis failed")) = true)
      by (apply truthy_opt_or_else; reflexivity).
    split; [exact Ht |]. split; [reflexivity |].
    eexists. split; [reflexivity | apply Hne, Ht].
  - repeat split. eexists. split; [reflexivity |].
    split; [do 2 apply to_boolean_value_or; reflexivity |].
    split; reflexivity.
Qed.

(** The answer 422 of a server that validates the body: [detail] is an
    array of objects, and becomes the message. *)
Lemma submission_always_settles_witness :
  let c := {| url := js "https://github.com/o/r"; authToken := [];
              branch := js "dev"; isSubmitting := false; result := None |} in
  let detail_422 :=
    Array [Object [(js "loc", Array [Str (js "body"); Str (js "url")]);
                   (js "msg", Str (js "field required"))]] in
  let server := fun _ => Rejected {| detail := detail_422;
                                     error_message := Str (js "Request failed") |} in
  let no_answer := fun _ => Rejected {| detail := Undefined;
                                        error_message := Str [] |} in
  blank (url c) = false /\
  result (submit c AppStore.initial server).1 =
    Some {| success := false; message := detail_422 |} /\
  result (submit c AppStore.initial no_answer).1 =
    Some {| success := false; message := Str (js "Failed to start analysis") |} /\
  isSubmitting (submit c AppStore.initial server).1 = false.
Proof.
  intros c detail_422 server no_answer.
  destruct (submission_always_settles c AppStore.initial server eq_refl)
    as (_ & _ & Hsub & (r & Hr & _ & Hs & Hm) & _).
  destruct (submission_always_settles c AppStore.initial no_answer eq_refl)
    as (_ & _ & _ & (r' & Hr' & _ & Hs' & Hm') & _).
  split; [reflexivity |].
  split; [rewrite Hr; destruct r; simpl in *; subst; reflexivity |].
  split; [rewrite Hr'; destruct r'; simpl in *; subst; reflexivity | exact Hsub].
Defined.

(** X2. The form is emptied and the redirect to the dashboard is
    scheduled, 2000 ms ahead, exactly when the response says
    [success: true]: the fields are then those of a fresh form. In every
    other outcome the three fields keep what the user typed and no timer
    is set. *)
Theorem form_reset_exactly_on_success (c : Component) (store : AppStore.AppState)
    (server : Api.RepositoryCreate -> Settled) :
  blank (url c) = false ->
  let c' := (submit c store server).1 in
  timers (handleSubmit c server) =
    (if succeeded (server (request c)) then [2000%Z] else []) /\
  (url c', authToken c', branch c') =
    (if succeeded (server (request c))
     then (url initial, authToken initial, branch initial)
     else (url c, authToken c, branch c)).
Proof.
  intros Hb c'. subst c'.
  destruct (handleSubmit_sent c server Hb) as (outcome & He & Ho).
  unfold submit. rewrite He, Ho. unfold timers.
  destruct (server (request c)) as [response | error]; simpl;
    [destruct (Api.success response) eqn:Hs |]; simpl; split; reflexivity.
Qed.

Lemma form_reset_exactly_on_success_witness :
  let c := {| url := js "https://github.com/o/r"; authToken := js "t";
              branch := js "dev"; isSubmitting := false; result := None |} in
  let ok := fun _ => Fulfilled {| Api.success := true; Api.ar_repo_id := js "r1";
                                 Api.documentation_id := None; Api.ar_error := None;
                                 Api.duration_seconds := 0 |} in
  blank (url c) = false /\
  timers (handleSubmit c ok) = [2000%Z] /\
  url (submit c AppStore.initial ok).1 = [] /\
  branch (submit c AppStore.initial ok).1 = js "main".
Proof.
  intros c ok.
  destruct (form_reset_exactly_on_success c AppStore.initial ok eq_refl) as [Ht Hf].
  split; [reflexivity |]. split; [exact Ht |].
  split; [exact (f_equal (fun t => t.1.1) Hf) | exact (f_equal snd Hf)].
Defined.

End SubmitFlow.


(* ===================================================================== *)
(** * RepoUpload.tsx: what the analyze request carries *)
(* ===================================================================== *)

Module RequestFields.
Import JsString RepoUpload.

(** A string that neither starts nor ends with a character that [trim]
    strips. *)
Definition tidy (s : jsstring) : Prop :=
  (forall c, head s = Some c -> is_trimmed c = false) /\
  (forall c, last s = Some c -> is_trimmed c = false).

Lemma trimStart_head s c : head (trimStart s) = Some c -> is_trimmed c = false.
Proof.
  induction s as [|a s IH]; simpl; [discriminate |].
  destruct (is_trimmed a) eqn:Ha; [exact IH |].
  simpl. intros [= <-]. exact Ha.
Qed.

Lemma trimStart_fixed s :
  (forall c, head s = Some c -> is_trimmed c = false) -> trimStart s = s.
Proof.
  destruct s as [|a s]; [reflexivity |]. simpl. intros H.
  rewrite (H a eq_refl). reflexivity.
Qed.

Lemma last_rev {A} (l : list A) : last (rev l) = head l.
Proof. destruct l as [|a l]; [reflexivity |]. simpl. apply last_snoc. Qed.

Lemma head_rev {A} (l : list A) : head (rev l) = last l.
Proof. rewrite <- (rev_involutive l) at 2. symmetry. apply last_rev. Qed.

Lemma trimStart_snoc_keep l c :
  is_trimmed c = false -> exists m, trimStart (l ++ [c]) = m ++ [c].
Proof.
  intros Hc. induction l as [|a l [m IH]]; simpl.
  - rewrite Hc. exists []. reflexivity.
  - destruct (is_trimmed a); [exists m; exact IH | exists (a :: l); reflexivity].
Qed.

Lemma last_trimEnd s c : last (trimEnd s) = Some c -> is_trimmed c = false.
Proof. unfold trimEnd. rewrite last_rev. apply trimStart_head. Qed.

Lemma head_trimEnd s c :
  head s = Some c -> is_trimmed c = false -> head (trimEnd s) = Some c.
Proof.
  destruct s as [|a s]; simpl; [discriminate |]. intros [= ->] Hc.
  unfold trimEnd. simpl.
  destruct (trimStart_snoc_keep (rev s) c Hc) as [m ->].
  rewrite rev_app_distr. reflexivity.
Qed.

(** [s.trim()] has no leading and no trailing whitespace. *)
Lemma trim_tidy s : tidy (trim s).
Proof.
  unfold trim. split.
  - intros c Hc. destruct (trimStart s) as [|a u] eqn:Hu; [discriminate Hc |].
    assert (Ha : is_trimmed a = false).
    { apply (trimStart_head s). rewrite Hu. reflexivity. }
    rewrite (head_trimEnd (a :: u) a eq_refl Ha) in Hc. congruence.
  - apply last_trimEnd.
Qed.

(** Trimming a tidy string changes nothing. *)
Lemma trim_fixed s : tidy s -> trim s = s.
Proof.
  intros [Hh Hl]. unfold trim. rewrite (trimStart_fixed s Hh).
  unfold trimEnd. rewrite trimStart_fixed; [apply rev_involutive |].
  intros c Hc. rewrite head_rev in Hc. auto.
Qed.

Lemma trim_idempotent s : trim (trim s) = trim s.
Proof. apply trim_fixed, trim_tidy. Qed.

Lemma truthy_nonempty (s : jsstring) : truthy s = true <-> s <> [].
Proof. destruct s; simpl; split; congruence. Qed.

(** X3. The request of a submission whose URL is not blank never carries
    an empty or padded field: its [url] is not empty and has no
    whitespace at either end, so that trimming it again changes nothing;
    its [branch] is present, not empty and without whitespace at either
    end; its [auth_token] is either absent or a string that is not empty
    and has no whitespace at either end. *)
Theorem request_fields_are_tidy (c : Component) :
  blank (url c) = false ->
  Api.rc_url (request c) <> [] /\
  tidy (Api.rc_url (request c)) /\
  trim (Api.rc_url (request c)) = Api.rc_url (request c) /\
  (exists b, Api.rc_branch (request c) = Some b /\ b <> [] /\ tidy b) /\
  (forall t, Api.rc_auth_token (request c) = Some t -> t <> [] /\ tidy t).
Proof.
  intros Hb. simpl.
  split.
  { apply truthy_nonempty. rewrite truthy_trim, Hb. reflexivity. }
  split; [apply trim_tidy |].
  split; [apply trim_idempotent |].
  split.
  - eexists. split; [reflexivity |]. unfold or_else.
    destruct (truthy (trim (branch c))) eqn:Ht.
    + split; [apply truthy_nonempty, Ht | apply trim_tidy].
    + split; [discriminate |].
      split; intros x [= <-]; reflexivity.
  - intros t. unfold or_else.
    destruct (truthy (trim (authToken c))) eqn:Ht; [| discriminate].
    intros [= <-]. split; [apply truthy_nonempty, Ht | apply trim_tidy].
Qed.

Lemma request_fields_are_tidy_witness :
  let c := {| url := js "  https://github.com/o/r  "; authToken := js " ghp_x ";
              branch := js "   "; isSubmitting := false; result := None |} in
  blank (url c) = false /\
  Api.rc_url (request c) <> [] /\
  Api.rc_branch (request c) = Some (js "main") /\
  Api.rc_auth_token (request c) = Some (js "ghp_x").
Proof.
  intros c.
  destruct (request_fields_are_tidy c eq_refl) as (Hurl & _).
  split; [reflexivity |]. split; [exact Hurl |]. split; reflexivity.
Defined.

End RequestFields.


(* ===================================================================== *)
(** * services/api.ts: the paths *)
(* ===================================================================== *)

Module ApiPaths.
Import JsString Api.

(** The repository id is put into the path as it is, without
    [encodeURIComponent]. [slash_free] says that it holds no '/'. *)
Abbreviation slash := 47%N (only parsing).

Definition slash_free (s : jsstring) : bool :=
  forallb (fun c => negb (N.eqb c slash)) s.

(** The functions whose path holds the repository id. *)
Definition takes_id (f : ApiFunction) : bool :=
  match f with
  | analyzeRepository | getRepositories | getMonitoringJobs => false
  | _ => true
  end.

Lemma slash_free_app a b : slash_free (a ++ b) = slash_free a && slash_free b.
Proof. apply forallb_app. Qed.

Lemma not_slash_free a b : slash_free (a ++ slash :: b) = false.
Proof.
  rewrite slash_free_app. simpl. apply andb_false_r.
Qed.

(** Two strings cut at their first '/'. *)
Lemma cut_at_slash i j a b :
  slash_free i = true -> slash_free j = true ->
  i ++ slash :: a = j ++ slash :: b -> i = j /\ a = b.
Proof.
  revert j. induction i as [|x i IH]; intros [|y j] Hi Hj H; simpl in *.
  - injection H as ->. auto.
  - injection H as <- _. discriminate Hj.
  - injection H as -> _. discriminate Hi.
  - injection H as -> H.
    apply andb_prop in Hi as [_ Hi]. apply andb_prop in Hj as [_ Hj].
    destruct (IH j Hi Hj H) as [-> ->]. auto.
Qed.

Lemma path_eq_cases f g i j :
  slash_free i = true -> slash_free j = true ->
  method_of f = method_of g -> path_of f i = path_of g j ->
  f = g /\ (takes_id f = true -> i = j).
Proof.
  intros Hi Hj Hm Hp.
  destruct f, g; try discriminate Hm; cbn in Hp; try discriminate Hp.
  all: try (split; [reflexivity | intros; try discriminate]).
  all: repeat match type of Hp with (_ :: _) = (_ :: _) => injection Hp as Hp end.
  all: try exact Hp.
  all: try (exfalso; rewrite Hp, not_slash_free in Hi; discriminate Hi).
  all: try (exfalso; rewrite <- Hp, not_slash_free in Hj; discriminate Hj).
  all: destruct (cut_at_slash _ _ _ _ Hi Hj Hp) as [Hij Hab];
    first [exact Hij | discriminate Hab].
Qed.

(** The path of a function that takes no repository does not depend on
    the argument. *)
Lemma path_of_no_id f i j : takes_id f = false -> path_of f i = path_of f j.
Proof. destruct f; simpl; intros H; first [reflexivity | discriminate H]. Qed.

(** X4. About the URL strings that the functions of the client build and
    hand to axios, before anything normalises them. As long as the
    repository ids hold no '/', two calls build the same method and URL
    string exactly when they are calls of the same function, for the same
    repository when the function takes one: different functions, or one
    function for two repositories, never build the same string. The id
    goes into the template unencoded, so the condition matters: with the
    id [x/versions] [getDocumentation] builds the request of
    [getDocumentationVersions] for [x], and with [x/export/json] that of
    [exportJSON]. *)
Theorem calls_are_told_apart (f g : ApiFunction) (a b : Args) :
  slash_free (arg_repoId a) = true -> slash_free (arg_repoId b) = true ->
  ((method (request_of f a) = method (request_of g b) /\
    path (request_of f a) = path (request_of g b)) <->
   (f = g /\ (takes_id f = true -> arg_repoId a = arg_repoId b))) /\
  (forall x d,
     request_of getDocumentation {| arg_data := d; arg_repoId := x ++ js "/versions" |}
     = request_of getDocumentationVersions {| arg_data := d; arg_repoId := x |} /\
     request_of getDocumentation {| arg_data := d; arg_repoId := x ++ js "/export/json" |}
     = request_of exportJSON {| arg_data := d; arg_repoId := x |}).
Proof.
  intros Ha Hb. split.
  - split.
    + intros [Hm Hp]. apply path_eq_cases; assumption.
    + intros [<- Hid]. split; [reflexivity |].
      change (path_of f (arg_repoId a) = path_of f (arg_repoId b)).
      destruct (takes_id f) eqn:Ht; [rewrite (Hid eq_refl); reflexivity |].
      apply path_of_no_id. exact Ht.
  - intros x d. unfold request_of. simpl.
    split; f_equal; rewrite <- !app_assoc; reflexivity.
Qed.

(** Two functions called for one repository, and one function called for
    two repositories, build different URL strings. *)
Lemma calls_are_told_apart_witness :
  let a := {| arg_data := None; arg_repoId := js "6f1c-22" |} in
  let b := {| arg_data := None; arg_repoId := js "9a0b-47" |} in
  slash_free (arg_repoId a) = true /\ slash_free (arg_repoId b) = true /\
  method (request_of getRepository a) = method (request_of getDocumentation a) /\
  path (request_of getRepository a) <> path (request_of getDocumentation a) /\
  path (request_of exportJSON a) <> path (request_of exportJSON b).
Proof.
  intros a b. split; [reflexivity |]. split; [reflexivity |].
  split; [reflexivity |]. split.
  - intros Hp.
    destruct (calls_are_told_apart getRepository getDocumentation a a eq_refl eq_refl)
      as [[Hfg _] _].
    destruct (Hfg (conj eq_refl Hp)) as [Heq _]. discriminate Heq.
  - intros Hp.
    destruct (calls_are_told_apart exportJSON exportJSON a b eq_refl eq_refl)
      as [[Hfg _] _].
    destruct (Hfg (conj eq_refl Hp)) as [_ Hid]. specialize (Hid eq_refl).
    discriminate Hid.
Defined.

End ApiPaths.


(* ===================================================================== *)
(** * store/appStore.ts: sequences of actions *)
(* ===================================================================== *)

Module StoreActions.
Import JsString AppStore.

(** A call of one of the six actions of the store. *)
Inductive Action :=
  | SetRepositories (repos : list Api.Repository)
  | SetCurrentRepo (repo : option Api.Repository)
  | SetCurrentDoc (doc : option Api.Documentation)
  | SetLoading (loading : bool)
  | SetError (e : option jsstring)
  | ClearError.

Definition dispatch (s : AppState) (a : Action) : AppState :=
  match a with
  | SetRepositories repos => setRepositories repos s
  | SetCurrentRepo repo => setCurrentRepo repo s
  | SetCurrentDoc doc => setCurrentDoc doc s
  | SetLoading loading => setLoading loading s
  | SetError e => setError e s
  | ClearError => clearError s
  end.

(** The member of the state that an action writes. *)
Inductive Member := Repositories | CurrentRepo | CurrentDoc | IsLoading | Error.

Definition member (a : Action) : Member :=
  match a with
  | SetRepositories _ => Repositories
  | SetCurrentRepo _ => CurrentRepo
  | SetCurrentDoc _ => CurrentDoc
  | SetLoading _ => IsLoading
  | SetError _ | ClearError => Error
  end.

#[global] Instance member_eq_dec : EqDecision Member.
Proof. solve_decision. Defined.

(** The last action of [l] that writes member [m], if any. *)
Definition last_write (m : Member) (l : list Action) : option Action :=
  last (filter (fun a => member a = m) l).

Definition run (l : list Action) (s : AppState) : AppState :=
  fold_left dispatch l s.

Lemma run_snoc l a s : run (l ++ [a]) s = dispatch (run l s) a.
Proof. unfold run. rewrite fold_left_app. reflexivity. Qed.

Lemma last_write_snoc m l a :
  last_write m (l ++ [a]) = if decide (member a = m) then Some a else last_write m l.
Proof.
  unfold last_write. rewrite filter_app, filter_cons, filter_nil.
  destruct (decide (member a = m)); [apply last_snoc | rewrite app_nil_r; reflexivity].
Qed.

(** X5. After any sequence of actions each member of the state holds the
    argument of the last action that wrote it ([null] for [clearError]),
    and what it held before when no action of the sequence wrote it: an
    action never disturbs a member other than its own, however the
    actions are interleaved. In particular two actions on different
    members can be swapped, and of two actions on one member the later
    alone counts. *)
Theorem last_action_on_each_member_wins (s : AppState) (l : list Action) :
  repositories (run l s) =
    match last_write Repositories l with
    | Some (SetRepositories repos) => repos
    | _ => repositories s
    end /\
  currentRepo (run l s) =
    match last_write CurrentRepo l with
    | Some (SetCurrentRepo repo) => repo
    | _ => currentRepo s
    end /\
  currentDoc (run l s) =
    match last_write CurrentDoc l with
    | Some (SetCurrentDoc doc) => doc
    | _ => currentDoc s
    end /\
  isLoading (run l s) =
    match last_write IsLoading l with
    | Some (SetLoading loading) => loading
    | _ => isLoading s
    end /\
  error (run l s) =
    match last_write Error l with
    | Some (SetError e) => e
    | Some ClearError => None
    | _ => error s
    end /\
  (forall a b,
     run [a; b] s = if decide (member a = member b) then run [b] s else run [b; a] s).
Proof.
  split; [| split; [| split; [| split; [| split]]]].
  1-5: induction l as [|a l IH] using rev_ind; [reflexivity |];
       rewrite run_snoc, last_write_snoc;
       destruct a; simpl; try exact IH; reflexivity.
  intros a b. destruct s, a, b; reflexivity.
Qed.

End StoreActions.


(* ===================================================================== *)
(** * components/RepoList.tsx *)
(* ===================================================================== *)

Module RepoList.
Import JsString Api.

(** ** [String.prototype.includes] *)

Fixpoint starts_with (pat s : jsstring) : bool :=
  match pat, s with
  | [], _ => true
  | p :: pat', c :: s' => N.eqb p c && starts_with pat' s'
  | _ :: _, [] => false
  end.

Fixpoint includes (s pat : jsstring) : bool :=
  starts_with pat s
  || match s with
     | [] => false
     | _ :: s' => includes s' pat
     end.

Lemma starts_with_spec pat s : starts_with pat s = true <-> exists b, s = pat ++ b.
Proof.
  revert s. induction pat as [|p pat IH]; intros s; simpl.
  - split; [exists s; reflexivity | reflexivity].
  - destruct s as [|c s].
    + split; [discriminate | intros [b Hb]; discriminate Hb].
    + rewrite andb_true_iff, N.eqb_eq, IH. split.
      * intros [-> [b ->]]. exists b. reflexivity.
      * intros [b Hb]. injection Hb as -> ->. eauto.
Qed.

Lemma includes_spec s pat :
  includes s pat = true <-> exists a b, s = a ++ pat ++ b.
Proof.
  induction s as [|c s IH]; simpl.
  - rewrite orb_false_r, starts_with_spec. split.
    + intros [b Hb]. exists [], b. exact Hb.
    + intros (a & b & H). destruct a; [exists b; exact H | discriminate H].
  - rewrite orb_true_iff, starts_with_spec, IH. split.
    + intros [[b Hb] | (a & b & ->)].
      * exists [], b. exact Hb.
      * exists (c :: a), b. reflexivity.
    + intros (a & b & H). destruct a as [|x a].
      * left. exists b. exact H.
      * right. injection H as _ ->. eauto.
Qed.

(** ** [getStatusBadge] *)

Inductive Icon := Clock | Loader2 | CheckCircle | XCircle.

Record Badge := { label : jsstring; class : jsstring; icon : Icon }.

(** The string that a status is at run time. *)
Definition literal (s : RepositoryStatus) : jsstring :=
  match s with
  | pending => js "pending"
  | cloning => js "cloning"
  | analyzing => js "analyzing"
  | generating_docs => js "generating_docs"
  | completed => js "completed"
  | failed => js "failed"
  end.

(** The object [badges]: one entry per status of the union. *)
Definition badges (s : RepositoryStatus) : Badge :=
  match s with
  | pending => {| label := js "Pending"; class := js "badge badge-info"; icon := Clock |}
  | cloning => {| label := js "Cloning"; class := js "badge badge-info"; icon := Loader2 |}
  | analyzing =>
      {| label := js "Analyzing"; class := js "badge badge-warning"; icon := Loader2 |}
  | generating_docs =>
      {| label := js "Generating Docs"; class := js "badge badge-warning";
         icon := Loader2 |}
  | completed =>
      {| label := js "Completed"; class := js "badge badge-success";
         icon := CheckCircle |}
  | failed => {| label := js "Failed"; class := js "badge badge-error"; icon := XCircle |}
  end.

(** What [getStatusBadge] renders: the badge of the status (for a status
    of the union [badges[status]] is an entry, so the fallback
    [badges.pending] is not taken) and whether its icon gets
    [animate-spin], which is [status.includes('ing')]. *)
Record BadgeView := { badge : Badge; spins : bool }.

Definition getStatusBadge (status : RepositoryStatus) : BadgeView :=
  {| badge := badges status; spins := includes (literal status) (js "ing") |}.

(** X6. The status badge tells the six statuses apart by their label, and
    its icon turns exactly while the repository is neither [completed]
    nor [failed]: the test is whether the status contains "ing", which
    holds for cloning, analyzing and generating_docs, whose icon is the
    loader, and for pending as well, whose clock therefore turns too. *)
Theorem badge_spins_until_done (s1 s2 : RepositoryStatus) :
  (label (badge (getStatusBadge s1)) = label (badge (getStatusBadge s2)) -> s1 = s2) /\
  (spins (getStatusBadge s1) = true <-> s1 <> completed /\ s1 <> failed) /\
  (icon (badge (getStatusBadge s1)) = Loader2 ->
   spins (getStatusBadge s1) = true) /\
  (spins (getStatusBadge pending) = true /\
   icon (badge (getStatusBadge pending)) = Clock).
Proof.
  split.
  { destruct s1, s2; intros H; try reflexivity; discriminate H. }
  split.
  { destruct s1; cbn;
      (split;
       [ intros H; first [discriminate H | split; discriminate]
       | intros [H1 H2];
         first [reflexivity
               | exfalso; first [apply H1; reflexivity | apply H2; reflexivity]] ]). }
  split; [destruct s1; cbn; intros H; first [reflexivity | discriminate H] |].
  split; reflexivity.
Qed.

(** ** [handleDelete] *)

Inductive Effect :=
  | Confirm (question : jsstring)
  | SetDeletingId (id : option jsstring)
  | Sent (r : Request)
  | Refetch
  | ConsoleError
  | Alert (msg : jsstring).

(** [handleDelete(repoId)]: [confirmed] is the answer to [confirm(...)],
    [server] tells whether the DELETE is fulfilled. *)
Definition handleDelete (repoId : jsstring) (confirmed : bool)
    (server : Request -> bool) : list Effect :=
  Confirm (js "Are you sure you want to delete this repository?") ::
  if negb confirmed then []
  else
    let r := request_of deleteRepository {| arg_data := None; arg_repoId := repoId |} in
    [SetDeletingId (Some repoId); Sent r]
    ++ (if server r then [Refetch]
        else [ConsoleError; Alert (js "Failed to delete repository")])
    ++ [SetDeletingId None].

(** The cell [deletingId] after some effects. *)
Definition deleting (d : option jsstring) (es : list Effect) : option jsstring :=
  fold_left (fun d e => match e with SetDeletingId x => x | _ => d end) es d.

Definition sent (es : list Effect) : list Request :=
  omap (fun e => match e with Sent r => Some r | _ => None end) es.

Definition alerts (es : list Effect) : list jsstring :=
  omap (fun e => match e with Alert m => Some m | _ => None end) es.

Definition refetches (es : list Effect) : nat :=
  length (omap (fun e => match e with Refetch => Some tt | _ => None end) es).

(** X7. [handleDelete] does nothing beyond asking when the user declines:
    no request, [deletingId] as it was. When the user confirms it sends
    exactly one request, the DELETE of [/api/repos/{repoId}];
    [deletingId] is that repository while the request is in flight and
    [null] in the end, whether the request succeeds or not; the list is
    refetched once if the request succeeded and not at all otherwise;
    the alert 'Failed to delete repository' is shown exactly when it
    failed. *)
Theorem handleDelete_outcomes (repoId : jsstring) (confirmed : bool)
    (server : Request -> bool) (d : option jsstring) :
  let es := handleDelete repoId confirmed server in
  let r := {| method := DELETE; path := js "/api/repos/" ++ repoId;
              data := None; responseType := json_response |} in
  sent es = (if confirmed then [r] else []) /\
  deleting d es = (if confirmed then None else d) /\
  deleting d (firstn 3 es) = (if confirmed then Some repoId else d) /\
  refetches es = (if confirmed && server r then 1 else 0)%nat /\
  alerts es =
    (if confirmed && negb (server r) then [js "Failed to delete repository"] else []).
Proof.
  intros es r. subst es. unfold handleDelete.
  change (request_of deleteRepository {| arg_data := None; arg_repoId := repoId |})
    with r.
  destruct confirmed; simpl; [| repeat split; reflexivity].
  destruct (server r); repeat split; reflexivity.
Qed.

(** ** The rows *)

Section Render.

(** [new Date(dateString).toLocaleString()], which depends on the locale
    and the time zone of the browser. *)
Variable toLocaleString : jsstring -> jsstring.

Definition formatDate (dateString : option jsstring) : jsstring :=
  match dateString with
  | Some s => if truthy s then toLocaleString s else js "Never"
  | None => js "Never"
  end.

(** What one card of the list shows. *)
Record Row := {
  row_key : jsstring;
  title : jsstring;
  status_badge : BadgeView;
  text : jsstring;
  branch_label : jsstring;
  last_analyzed : jsstring;
  commit : option jsstring;
  error_box : option jsstring;
  view_href : option jsstring;
  delete_disabled : bool
}.

(** [s.substring(0, 7)] *)
Definition abbreviate (s : jsstring) : jsstring := firstn 7 s.

(** [x && <jsx using x>] for a string that may be [null]. *)
Definition when_truthy (x : option jsstring) : option jsstring :=
  match x with
  | Some s => if truthy s then Some s else None
  | None => None
  end.

Definition row (deletingId : option jsstring) (repo : Repository) : Row :=
  {| row_key := id repo;
     title := RepoUpload.opt_or_else (name repo) (js "Loading...");
     status_badge := getStatusBadge (status repo);
     text := RepoUpload.opt_or_else (description repo) (url repo);
     branch_label := js "Branch: " ++ branch repo;
     last_analyzed := js "Last analyzed: " ++ formatDate (last_analyzed_at repo);
     commit := abbreviate <$> when_truthy (last_commit_hash repo);
     error_box := when_truthy (error_message repo);
     view_href :=
       match status repo with
       | completed => Some (js "/docs/" ++ id repo)
       | _ => None
       end;
     delete_disabled := bool_decide (deletingId = Some (id repo)) |}.

(** The value of the query: [data], when there is one. *)
Record Data := { repositories : list Repository; total : Z }.

(** What the query threw: an [Error] with its message, or another value. *)
Inductive Thrown := ErrorObject (message : jsstring) | OtherValue.

Inductive View :=
  | Spinner
  | ErrorCard (heading message : jsstring) (how_to_fix : bool)
  | NoRepositories
  | Cards (count : Z) (rows : list Row).

Definition render (isLoading : bool) (error : option Thrown) (data : option Data)
    (deletingId : option jsstring) : View :=
  if isLoading then Spinner
  else
    match error with
    | Some e =>
        let errorMessage :=
          match e with ErrorObject m => m | OtherValue => js "Unknown error" end in
        let isConnectionError :=
          includes errorMessage (js "503")
          || includes errorMessage (js "Network Error")
          || includes errorMessage (js "ECONNREFUSED") in
        ErrorCard (if isConnectionError then js "Backend Connection Error"
                   else js "Failed to Load Repositories")
                  errorMessage isConnectionError
    | None =>
        match data with
        | None => NoRepositories
        | Some d =>
            match repositories d with
            | [] => NoRepositories
            | _ :: _ => Cards (total d) (row deletingId <$> repositories d)
            end
        end
    end.

(** The ids of the repositories of the query, in order. *)
Definition ids_of (data : option Data) : list jsstring :=
  id <$> default [] (repositories <$> data).

Lemma when_truthy_Some x s : when_truthy x = Some s <-> x = Some s /\ s <> [].
Proof.
  destruct x as [t|]; simpl; [| split; [discriminate | intros [H _]; discriminate H]].
  destruct t as [|c t]; simpl; split.
  - discriminate.
  - intros [[= <-] H]. contradiction.
  - intros [= <-]. split; [reflexivity | discriminate].
  - intros [[= <-] _]. reflexivity.
Qed.

(** X8. A card never has an empty title. It links to the documentation,
    at [/docs/{id}], exactly when the repository is [completed]. It shows
    a commit exactly when [last_commit_hash] is a string that is not
    empty, and what it shows is the first seven code units of the hash (the
    whole hash when it is shorter). It shows the error box whenever
    [error_message] is a string that is not empty, whatever the status. *)
Theorem card_contents (deletingId : option jsstring) (repo : Repository) :
  let r := row deletingId repo in
  truthy (title r) = true /\
  (forall p, view_href r = Some p <->
             status repo = completed /\ p = js "/docs/" ++ id repo) /\
  (forall c, commit r = Some c <->
     exists h, last_commit_hash repo = Some h /\ h <> [] /\
               c = firstn 7 h) /\
  (forall c, commit r = Some c ->
     c <> [] /\ (length c <= 7)%nat /\
     exists h, last_commit_hash repo = Some h /\ c `prefix_of` h /\
               length c = Nat.min 7 (length h)) /\
  (forall m, error_box r = Some m <-> error_message repo = Some m /\ m <> []).
Proof.
  intros r. subst r. simpl.
  split; [apply SubmitFlow.truthy_opt_or_else; reflexivity |].
  split.
  { intros p. destruct (status repo); split;
      try discriminate; try (intros [H _]; discriminate H).
    - intros [= <-]. auto.
    - intros [_ ->]. reflexivity. }
  assert (Hc : forall c, abbreviate <$> when_truthy (last_commit_hash repo) = Some c <->
     exists h, last_commit_hash repo = Some h /\ h <> [] /\ c = firstn 7 h).
  { intros c. rewrite fmap_Some. split.
    - intros (h & Hh & ->). apply when_truthy_Some in Hh as [Hh Hne]. eauto.
    - intros (h & Hh & Hne & ->). exists h. split; [| reflexivity].
      apply when_truthy_Some. auto. }
  split; [exact Hc |].
  split; [| intros m; apply when_truthy_Some].
  intros c (h & Hh & Hne & ->)%Hc.
  split; [destruct h; [contradiction | discriminate] |].
  split; [rewrite length_firstn; lia |].
  exists h. split; [exact Hh |]. split; [| apply length_firstn].
  exists (skipn 7 h). symmetry. apply firstn_skipn.
Qed.

(** Among cards with pairwise distinct keys, at most one is that of the
    repository being deleted. *)
Lemma at_most_one_disabled (deletingId : option jsstring) (rows : list Row) :
  (forall r, r ∈ rows ->
     (delete_disabled r = true <-> deletingId = Some (row_key r))) ->
  NoDup (row_key <$> rows) ->
  (length (filter (fun r => delete_disabled r = true) rows) <= 1)%nat.
Proof.
  induction rows as [|r rs IH]; intros Hdis Hnd; [simpl; lia |].
  rewrite fmap_cons in Hnd. apply NoDup_cons in Hnd as [Hnotin Hnd].
  rewrite filter_cons.
  destruct (decide (delete_disabled r = true)) as [Hr|];
    [| apply IH; [intros r' Hr'; apply Hdis; right; exact Hr' | exact Hnd]].
  assert (Hnone : filter (fun r => delete_disabled r = true) rs = []).
  { destruct (filter _ rs) as [|r' rs'] eqn:Hf; [reflexivity |]. exfalso.
    assert (Hin : r' ∈ filter (fun r => delete_disabled r = true) rs)
      by (rewrite Hf; left).
    apply list_elem_of_filter in Hin as [Hd' Hr'].
    apply Hnotin. apply list_elem_of_fmap. exists r'. split; [| exact Hr'].
    apply Hdis in Hr; [| left].
    apply Hdis in Hd'; [| right; exact Hr'].
    congruence. }
  rewrite Hnone. simpl. lia.
Qed.

(** X9. The cards are shown exactly when the query is not loading, has
    thrown nothing and holds at least one repository; there is then one
    card per repository, in the order of the data, keyed by its id, and
    the delete button of a card is disabled exactly when its repository
    is the one being deleted. All this whatever the ids are. When the
    ids are pairwise distinct, so are the keys, and at most one card has
    its delete button disabled; when two repositories share an id, their
    cards share the key and are disabled together. *)
Theorem cards_follow_the_data (isLoading : bool) (error : option Thrown)
    (data : option Data) (deletingId : option jsstring) :
  ((exists count rows, render isLoading error data deletingId = Cards count rows) <->
   isLoading = false /\ error = None /\ ids_of data <> []) /\
  (forall count rows,
     render isLoading error data deletingId = Cards count rows ->
     exists d, data = Some d /\ count = total d /\
       rows = row deletingId <$> repositories d /\
       length rows = length (repositories d) /\
       row_key <$> rows = ids_of data /\
       (forall r, r ∈ rows ->
          (delete_disabled r = true <-> deletingId = Some (row_key r))) /\
       (forall r1 r2, r1 ∈ rows -> r2 ∈ rows -> row_key r1 = row_key r2 ->
          delete_disabled r1 = delete_disabled r2) /\
       (NoDup (ids_of data) <-> NoDup (row_key <$> rows)) /\
       (NoDup (ids_of data) ->
        (length (filter (fun r => delete_disabled r = true) rows) <= 1)%nat)).
Proof.
  split.
  - unfold render, ids_of. destruct isLoading.
    { split; [intros (? & ? & H); discriminate H | intros [H _]; discriminate H]. }
    destruct error as [e|].
    { split; [intros (? & ? & H); discriminate H | intros (_ & H & _); discriminate H]. }
    destruct data as [d|]; simpl.
    + destruct (repositories d) as [|x l] eqn:Hd; simpl.
      * split; [intros (? & ? & H); discriminate H | intros (_ & _ & H); contradiction].
      * split; [intros _; repeat split; discriminate | eauto].
    + split; [intros (? & ? & H); discriminate H | intros (_ & _ & H); contradiction].
  - intros count rows Hr. unfold render in Hr.
    destruct isLoading; [discriminate |]. destruct error; [discriminate |].
    destruct data as [d|]; [| discriminate].
    destruct (repositories d) as [|x l] eqn:Hd; [discriminate |].
    rewrite <- Hd in Hr. injection Hr as <- <-. exists d.
    assert (Hkeys : row_key <$> (row deletingId <$> repositories d) = ids_of (Some d)).
    { unfold ids_of. simpl. rewrite <- list_fmap_compose. reflexivity. }
    assert (Hdis : forall r, r ∈ row deletingId <$> repositories d ->
              (delete_disabled r = true <-> deletingId = Some (row_key r))).
    { intros r Hin. apply list_elem_of_fmap in Hin as (repo & -> & _). simpl.
      rewrite bool_decide_eq_true. reflexivity. }
    split; [reflexivity |]. split; [reflexivity |]. split; [reflexivity |].
    split; [apply length_fmap |].
    split; [exact Hkeys |]. split; [exact Hdis |].
    split.
    { intros r1 r2 H1 H2 Hk. apply Hdis in H1, H2.
      destruct (delete_disabled r1) eqn:E1, (delete_disabled r2) eqn:E2;
        try reflexivity.
      - symmetry. apply H2. rewrite <- Hk. apply H1. reflexivity.
      - apply H1. rewrite Hk. apply H2. reflexivity. }
    split; [rewrite Hkeys; reflexivity |].
    intros Hnd. apply (at_most_one_disabled deletingId); [exact Hdis |].
    rewrite Hkeys. exact Hnd.
Qed.

End Render.

Definition repo_example (i : string) (st : RepositoryStatus) : Repository :=
  {| id := js i; url := js "https://github.com/o/r"; name := None;
     description := None; status := st; last_commit_hash := Some (js "0123456789abcdef");
     branch := js "main"; monitoring_enabled := true; error_message := None;
     last_analyzed_at := None; created_at := js "2024-01-01";
     updated_at := None |}.

(** Two repositories with different ids, the second being deleted: one
    button is disabled. Two repositories with the same id, which is being
    deleted: two cards with one key, both disabled. *)
Lemma cards_follow_the_data_witness :
  let data := Some {| repositories := [repo_example "a" completed; repo_example "b" pending];
                      total := 2 |} in
  let twice := Some {| repositories := [repo_example "a" completed; repo_example "a" failed];
                       total := 2 |} in
  NoDup (ids_of data) /\
  (exists rows, render (fun s => s) false None data (Some (js "b")) = Cards 2 rows /\
     (length (filter (fun r => delete_disabled r = true) rows) <= 1)%nat) /\
  ~ NoDup (ids_of twice) /\
  (exists rows, render (fun s => s) false None twice (Some (js "a")) = Cards 2 rows /\
     row_key <$> rows = [js "a"; js "a"] /\
     length (filter (fun r => delete_disabled r = true) rows) = 2%nat).
Proof.
  intros data twice.
  assert (Hnd : NoDup (ids_of data)).
  { apply (bool_decide_unpack (NoDup (ids_of data))). vm_compute. exact I. }
  split; [exact Hnd |].
  destruct (cards_follow_the_data (fun s => s) false None data (Some (js "b")))
    as [_ H].
  destruct (cards_follow_the_data (fun s => s) false None twice (Some (js "a")))
    as [_ H'].
  split.
  { eexists. split; [reflexivity |].
    destruct (H _ _ eq_refl) as (d & _ & _ & _ & _ & _ & _ & _ & _ & Hle).
    exact (Hle Hnd). }
  split.
  { intros Hn. apply NoDup_cons in Hn as [Hn _]. apply Hn. left. }
  eexists. split; [reflexivity |].
  destruct (H' _ _ eq_refl) as (d & _ & _ & _ & _ & Hkeys & _).
  split; [exact Hkeys | reflexivity].
Defined.

End RepoList.

(* ===================================================================== *)
(** * Statements on the schema *)
(* ===================================================================== *)

Module Statements.
Import Schema.

(** The statements that the constraints of the schema decide on. *)
Inductive Statement :=
  | InsertRepository (k : nat) (now : Z) (v : repositories.values)
  | InsertDocumentation (d : documentation.row)
  | InsertMonitoringJob (k : nat) (j : monitoring_jobs.row)
  | DeleteRepository (k : nat)
  | DeleteDocumentation (id : nat)
  | DeleteMonitoringJob (k : nat).

(** [DELETE FROM documentation WHERE id = ...] and [DELETE FROM
    monitoring_jobs WHERE id = k]: no table references these rows. *)
Definition delete_documentation (id : nat) (db : Database) : Database :=
  {| db_repositories := db_repositories db;
     db_documentation := filter (fun d => documentation.id d <> id) (db_documentation db);
     db_monitoring_jobs := db_monitoring_jobs db |}.

Definition delete_monitoring_job (k : nat) (db : Database) : Database :=
  {| db_repositories := db_repositories db;
     db_documentation := db_documentation db;
     db_monitoring_jobs := delete k (db_monitoring_jobs db) |}.

(** One statement: the database after it, or [None] when a constraint
    refuses it. *)
Definition execute (st : Statement) (db : Database) : option Database :=
  match st with
  | InsertRepository k now v => insert_repository k now v db
  | InsertDocumentation d => insert_documentation d db
  | InsertMonitoringJob k j => insert_monitoring_job k j db
  | DeleteRepository k => delete_repository k db
  | DeleteDocumentation id => Some (delete_documentation id db)
  | DeleteMonitoringJob k => Some (delete_monitoring_job k db)
  end.

(** A script run statement by statement: a refused statement leaves the
    database as it was. *)
Definition run (script : list Statement) (db : Database) : Database :=
  foldl (fun db st => default db (execute st db)) db script.

(** Every [repo_id] of the two child tables names a stored repository and
    the primary keys of [documentation] are pairwise distinct. *)
Definition references_hold (db : Database) : Prop :=
  Forall (fun d => is_Some (db_repositories db !! documentation.repo_id d))
         (db_documentation db) /\
  map_Forall (fun _ j => is_Some (db_repositories db !! monitoring_jobs.repo_id j))
             (db_monitoring_jobs db) /\
  NoDup (documentation.id <$> db_documentation db).

Lemma references_hold_empty : references_hold empty.
Proof.
  split; [constructor |]. split; [apply map_Forall_empty | constructor].
Qed.

Lemma execute_references_hold st db db' :
  references_hold db -> execute st db = Some db' -> references_hold db'.
Proof.
  intros (Hd & Hj & Hn) He.
  destruct st as [k now v | d | k j | k | id | k]; simpl in He.
  - unfold insert_repository in He.
    destruct (db_repositories db !! k) eqn:Hk; [discriminate |].
    destruct (repositories.new_row now v) as [r|]; [| discriminate].
    injection He as <-. unfold references_hold. simpl. split; [| split; [| exact Hn]].
    + eapply Forall_impl; [exact Hd |]. intros d [x Hx].
      destruct (decide (documentation.repo_id d = k)) as [Heq|Hne];
        [rewrite Heq in Hx; congruence |].
      simpl. rewrite lookup_insert_ne by congruence. eauto.
    + eapply map_Forall_impl; [exact Hj |]. intros i j [x Hx].
      destruct (decide (monitoring_jobs.repo_id j = k)) as [Heq|Hne];
        [rewrite Heq in Hx; congruence |].
      simpl. rewrite lookup_insert_ne by congruence. eauto.
  - unfold insert_documentation in He. case_decide as Hc; [| discriminate].
    destruct Hc as [Hs Hf]. injection He as <-. unfold references_hold. simpl.
    split; [rewrite Forall_app, Forall_singleton; auto |]. split; [exact Hj |].
    rewrite fmap_app. apply NoDup_app. split; [exact Hn |].
    split; [| apply NoDup_singleton].
    intros x Hx Hx'. apply list_elem_of_singleton in Hx'. subst x.
    apply list_elem_of_fmap in Hx as (d' & Heq & Hin).
    rewrite Forall_forall in Hf. apply (Hf d' Hin). congruence.
  - unfold insert_monitoring_job in He. case_decide as Hc; [| discriminate].
    destruct Hc as [Hs Hf]. injection He as <-. unfold references_hold. simpl.
    split; [exact Hd |]. split; [| exact Hn].
    apply map_Forall_insert; auto.
  - unfold delete_repository in He.
    destruct (db_repositories db !! k) eqn:Hk;
      [| injection He as <-; repeat split; assumption].
    simpl in He. injection He as <-. unfold references_hold. simpl. split; [| split].
    + apply Forall_forall. intros d Hin.
      apply list_elem_of_filter in Hin as [Hne Hin].
      rewrite Forall_forall in Hd. rewrite lookup_delete_ne by congruence. auto.
    + intros i j Hij. apply map_lookup_filter_Some in Hij as [Hij Hne].
      simpl in Hne. rewrite lookup_delete_ne by congruence. exact (Hj i j Hij).
    + apply (sublist_NoDup _ (documentation.id <$> db_documentation db));
        [exact Hn | apply fmap_sublist, sublist_filter].
  - injection He as <-. unfold references_hold. simpl. split; [| split].
    + apply Forall_forall. intros d Hin.
      apply list_elem_of_filter in Hin as [_ Hin].
      rewrite Forall_forall in Hd. auto.
    + exact Hj.
    + apply (sublist_NoDup _ (documentation.id <$> db_documentation db));
        [exact Hn | apply fmap_sublist, sublist_filter].
  - injection He as <-. unfold references_hold. simpl. split; [| split].
    + exact Hd.
    + apply map_Forall_delete. exact Hj.
    + exact Hn.
Qed.

Lemma delete_repository_total k db : is_Some (delete_repository k db).
Proof.
  unfold delete_repository. destruct (db_repositories db !! k); simpl; eauto.
Qed.

Lemma delete_repository_gone k db db' :
  delete_repository k db = Some db' -> db_repositories db' !! k = None.
Proof.
  unfold delete_repository. destruct (db_repositories db !! k) eqn:Hk; simpl.
  - intros [= <-]. simpl. apply lookup_delete_eq.
  - intros [= <-]. exact Hk.
Qed.

(** X10. Referential integrity is kept by every script of INSERT and
    DELETE statements on the three tables: starting from a database in
    which every [documentation.repo_id] and every
    [monitoring_jobs.repo_id] names a stored repository (the empty one,
    for instance), it is so after any script, whichever statements of it
    were refused: an INSERT of a child row is refused unless its
    repository is stored, and the DELETE of a repository takes its child
    rows with it. *)
Theorem scripts_keep_references (script : list Statement) (db : Database) :
  references_hold db -> references_hold (run script db).
Proof.
  revert db. induction script as [|st script IH]; intros db H; [exact H |].
  simpl. apply IH. destruct (execute st db) as [db'|] eqn:He; simpl; [| exact H].
  exact (execute_references_hold _ _ _ H He).
Qed.

Definition example_values : repositories.values :=
  {| repositories.v_url := "https://github.com/o/r"; repositories.v_name := None;
     repositories.v_description := None; repositories.v_status := "pending";
     repositories.v_last_commit_hash := None; repositories.v_branch := None;
     repositories.v_monitoring_enabled := None; repositories.v_webhook_id := None;
     repositories.v_error_message := None; repositories.v_last_analyzed_at := None;
     repositories.v_created_at := None; repositories.v_updated_at := None |}.

Definition example_documentation (id repo_id : nat) : documentation.row :=
  {| documentation.id := id; documentation.repo_id := repo_id;
     documentation.version := 1; documentation.commit_hash := "abc";
     documentation.content := "{}"; documentation.file_count := 0;
     documentation.lines_of_code := 0; documentation.created_at := 0 |}.

(** A repository, a version of its documentation, a version for a
    repository that is not stored (refused), a second repository. *)
Definition example_script : list Statement :=
  [InsertRepository 1 0 example_values;
   InsertDocumentation (example_documentation 10 1);
   InsertDocumentation (example_documentation 11 2);
   InsertRepository 2 0 example_values].

Lemma scripts_keep_references_witness :
  references_hold empty /\
  references_hold (run example_script empty) /\
  documentation.id <$> db_documentation (run example_script empty) = [10%nat].
Proof.
  split; [exact references_hold_empty |].
  split; [exact (scripts_keep_references example_script empty references_hold_empty) |].
  vm_compute. reflexivity.
Defined.

(** X11. Deleting a repository is never refused; it is idempotent; and
    two deletions give the same database in either order. *)
Theorem deletions_compose (k1 k2 : nat) (db : Database) :
  (exists db1, delete_repository k1 db = Some db1 /\
               db_repositories db1 !! k1 = None /\
               delete_repository k1 db1 = Some db1) /\
  delete_repository k1 db ≫= delete_repository k2 =
  delete_repository k2 db ≫= delete_repository k1.
Proof.
  split.
  - destruct (delete_repository_total k1 db) as [db1 H1]. exists db1.
    split; [exact H1 |]. pose proof (delete_repository_gone _ _ _ H1) as Hg.
    split; [exact Hg |]. unfold delete_repository. rewrite Hg. reflexivity.
  - destruct (decide (k1 = k2)) as [->|Hne]; [reflexivity |].
    unfold delete_repository.
    destruct (db_repositories db !! k1) eqn:E1, (db_repositories db !! k2) eqn:E2;
      simpl; rewrite ?lookup_delete_ne, ?E1, ?E2 by congruence; simpl;
      try reflexivity.
    f_equal. f_equal.
    + apply delete_delete.
    + rewrite !list_filter_filter. apply list_filter_iff. intros d. tauto.
    + rewrite !map_filter_filter. apply map_filter_ext. intros i j _. simpl. tauto.
Qed.

End Statements.

(* ===================================================================== *)
(** * The error boundary *)
(* ===================================================================== *)

Module ErrorBoundary.
Import JsString.

Section Boundary.

(** The thrown [Error] (the fallback shows its [toString()]) and the
    children of the boundary. *)
Variable Error : Type.
Variable Children : Type.

Record ErrorInfo := { componentStack : jsstring }.

Record State := {
  hasError : bool;
  error : option Error;
  errorInfo : option ErrorInfo
}.

(** The state set by the constructor. *)
Definition initial : State :=
  {| hasError := false; error := None; errorInfo := None |}.

Definition getDerivedStateFromError (e : Error) : State :=
  {| hasError := true; error := Some e; errorInfo := None |}.

(** [console.error('ErrorBoundary caught an error:', error, errorInfo)] *)
Definition Logged : Type := Error * ErrorInfo.

(** [componentDidCatch]: the log line, and [this.setState({ error,
    errorInfo })], which leaves [hasError] as it is. *)
Definition componentDidCatch (e : Error) (info : ErrorInfo) (s : State)
    : State * list Logged :=
  ({| hasError := hasError s; error := Some e; errorInfo := Some info |},
   [(e, info)]).

Inductive View :=
  | Fallback (details : option Error) (stack : option jsstring)
  | Rendered (children : Children).

Definition render (children : Children) (s : State) : View :=
  if hasError s then Fallback (error s) (componentStack <$> errorInfo s)
  else Rendered children.

(** The two calls that React makes on a boundary when a descendant
    throws. *)
Inductive Lifecycle :=
  | Derive (e : Error)
  | Catch (e : Error) (info : ErrorInfo).

(** React merges the value of [getDerivedStateFromError] into the state;
    it has all three members. *)
Definition step (sl : State * list Logged) (c : Lifecycle) : State * list Logged :=
  match c with
  | Derive e => (getDerivedStateFromError e, sl.2)
  | Catch e info =>
      let '(s', log) := componentDidCatch e info sl.1 in (s', sl.2 ++ log)
  end.

Definition run (calls : list Lifecycle) : State * list Logged :=
  foldl step (initial, []) calls.

Definition derived (c : Lifecycle) : bool :=
  match c with Derive _ => true | Catch _ _ => false end.

Definition thrown (c : Lifecycle) : Error :=
  match c with Derive e => e | Catch e _ => e end.

Definition caught (c : Lifecycle) : option Logged :=
  match c with Derive _ => None | Catch e info => Some (e, info) end.

Definition info_of (c : Lifecycle) : option ErrorInfo :=
  match c with Derive _ => None | Catch _ info => Some info end.

Lemma run_calls_snoc calls c : run (calls ++ [c]) = step (run calls) c.
Proof. unfold run. rewrite foldl_app. reflexivity. Qed.

(** X12. The boundary latches. Whatever calls React makes on it, the
    fallback is rendered exactly when [getDerivedStateFromError] was
    called at least once, and the children otherwise: no method sets
    [hasError] back. The error kept in the state is that of the last
    call; the component stack is that of the last call when it was
    [componentDidCatch], and absent when it was
    [getDerivedStateFromError]; every caught error was logged, in
    order. *)
Theorem boundary_latches (calls : list Lifecycle) (children : Children) :
  let s := (run calls).1 in
  hasError s = existsb derived calls /\
  (render children s = Rendered children <-> existsb derived calls = false) /\
  (render children s =
     Fallback (thrown <$> last calls) (componentStack <$> (last calls ≫= info_of))
   <-> existsb derived calls = true) /\
  error s = thrown <$> last calls /\
  errorInfo s = last calls ≫= info_of /\
  (run calls).2 = omap caught calls.
Proof.
  assert (H : hasError (run calls).1 = existsb derived calls /\
              error (run calls).1 = thrown <$> last calls /\
              errorInfo (run calls).1 = last calls ≫= info_of /\
              (run calls).2 = omap caught calls).
  { induction calls as [|c calls IH] using rev_ind; [repeat split; reflexivity |].
    destruct IH as (IH1 & _ & _ & IH4).
    rewrite run_calls_snoc, existsb_app, last_snoc, omap_app. simpl.
    destruct c as [e | e info]; simpl.
    - rewrite orb_true_r, app_nil_r. auto.
    - rewrite orb_false_r. destruct (run calls) as [s log]. simpl in *.
      subst log. auto. }
  intros s. subst s. destruct H as (H1 & H2 & H3 & H4).
  split; [exact H1 |]. unfold render. rewrite H1, H2, H3.
  split; [destruct (existsb derived calls); split; congruence |].
  split; [| auto].
  destruct (last calls) as [[e | e info]|]; simpl;
    destruct (existsb derived calls); split; congruence.
Qed.

End Boundary.

End ErrorBoundary.

(* ===================================================================== *)
(** * The documentation page *)
(* ===================================================================== *)

Module DocumentationPage.
Import JsString Api.

(** ['overview' | 'features' | 'tech' | 'architecture'] *)
Inductive Tab := overview | features | tech | architecture.

#[global] Instance tab_eq_dec : EqDecision Tab.
Proof. solve_decision. Defined.

Inductive Icon := FileText | Sparkles | Code | Target.

Record TabButton := { tab_id : Tab; label : jsstring; icon : Icon }.

Definition tabs : list TabButton :=
  [ {| tab_id := overview; label := js "Overview"; icon := FileText |};
    {| tab_id := features; label := js "Features"; icon := Sparkles |};
    {| tab_id := tech; label := js "Tech Stack"; icon := Code |};
    {| tab_id := architecture; label := js "Architecture"; icon := Target |} ].

(** The [key] of an element of a list: the index, or the entry itself. *)
Inductive Key := Index (index : nat) | Entry (s : jsstring).

(** An element of a list: its key, the number shown before it, if any,
    and its text. *)
Record Item := { key : Key; number : option nat; item_text : jsstring }.

Inductive Block :=
  | Heading (text : jsstring)
  | Paragraph (text : jsstring)
  | Items (items : list Item)
  | Mermaid (source : jsstring).

(** [list.map((x, index) => ... key={index} ... {index + 1} ... {x})] *)
Definition numbered (l : list jsstring) : list Item :=
  imap (fun index x =>
          {| key := Index index; number := Some (index + 1)%nat; item_text := x |}) l.

(** [list.map((x, index) => ... key={index} ... {x})] *)
Definition by_index (l : list jsstring) : list Item :=
  imap (fun index x => {| key := Index index; number := None; item_text := x |}) l.

(** [list.map((x) => ... key={x} ... {x})] *)
Definition by_entry (l : list jsstring) : list Item :=
  (fun x => {| key := Entry x; number := None; item_text := x |}) <$> l.

(** [list.length > 0 && (...)] *)
Definition when_nonempty {A} (l : list A) (blocks : list Block) : list Block :=
  match l with [] => [] | _ :: _ => blocks end.

Definition tab_content (activeTab : Tab) (c : Content) : list Block :=
  match activeTab with
  | overview =>
      [Heading (js "Executive Summary"); Paragraph (executive_summary c);
       Heading (js "Product Overview"); Paragraph (product_overview c)]
      ++ when_nonempty (use_cases c)
           [Heading (js "Use Cases"); Items (numbered (use_cases c))]
      ++ when_nonempty (marketing_points c)
           [Heading (js "Marketing Talking Points");
            Items (by_index (marketing_points c))]
  | features =>
      [Heading (js "Key Features"); Items (numbered (key_features c))]
  | tech =>
      [Heading (js "Languages"); Items (by_entry (languages (tech_stack c)))]
      ++ when_nonempty (frameworks (tech_stack c))
           [Heading (js "Frameworks & Libraries");
            Items (by_entry (frameworks (tech_stack c)))]
      ++ when_nonempty (databases (tech_stack c))
           [Heading (js "Databases"); Items (by_entry (databases (tech_stack c)))]
      ++ when_nonempty (integrations c)
           [Heading (js "Integrations"); Items (by_entry (integrations c))]
  | architecture =>
      [Heading (js "System Architecture"); Mermaid (Api.architecture c)]
  end.

Section Page.

(** [n.toLocaleString()] and [new Date(s).toLocaleDateString()], which
    depend on the locale and the time zone of the browser. *)
Variable toLocaleString : Z -> jsstring.
Variable toLocaleDateString : jsstring -> jsstring.

(** The header: [repo?.name], [repo?.description] and the four figures of
    the documentation. *)
Record Header := {
  heading : option jsstring;
  subheading : option jsstring;
  files : Z;
  lines : jsstring;
  version_shown : Z;
  date : jsstring
}.

Record TabView := { button : TabButton; active : bool }.

Inductive View :=
  | Spinner
  | NotFound
  | Page (header : Header) (buttons : list TabView) (content : list Block).

(** [error] is what the documentation query threw, if it threw. *)
Definition render {Thrown} (repo : option Repository) (repoLoading docLoading : bool)
    (error : option Thrown) (doc : option Documentation) (activeTab : Tab) : View :=
  if repoLoading || docLoading then Spinner
  else
    match error, doc with
    | None, Some doc =>
        Page {| heading := repo ≫= name;
                subheading := repo ≫= description;
                files := file_count doc;
                lines := toLocaleString (lines_of_code doc);
                version_shown := version doc;
                date := toLocaleDateString (doc_created_at doc) |}
             ((fun tab => {| button := tab;
                             active := bool_decide (activeTab = tab_id tab) |}) <$> tabs)
             (tab_content activeTab (content doc))
    | _, _ => NotFound
    end.

End Page.

(** ** What the lists show *)








Lemma imap_keys {B C} (f : nat -> jsstring -> B) (g : B -> C) (h : nat -> C) l :
  (forall i x, g (f i x) = h i) -> g <$> imap f l = h <$> seq 0 (length l).
Proof.
  revert f h. induction l as [|x l IH]; intros f h H; [reflexivity |].
  simpl. rewrite H. f_equal. rewrite <- fmap_S_seq, <- list_fmap_compose.
  apply IH. intros i y. apply H.
Qed.

(** The section of a list that is left out when the list is empty gives
    the list back. *)
Definition section_of (title : jsstring) (show : list jsstring -> list Item)
    (l : list jsstring) : list Block :=
  when_nonempty l [Heading title; Items (show l)].

Lemma section_of_nil title show l : section_of title show l = [] <-> l = [].
Proof. destruct l; simpl; split; (reflexivity || discriminate). Qed.








Lemma items_of_tab t c its :
  Items its ∈ tab_content t c ->
  match t with
  | overview => its = numbered (use_cases c) \/ its = by_index (marketing_points c)
  | features => its = numbered (key_features c)
  | tech => its = by_entry (languages (tech_stack c))
            \/ its = by_entry (frameworks (tech_stack c))
            \/ its = by_entry (databases (tech_stack c))
            \/ its = by_entry (integrations c)
  | architecture => False
  end.
Proof.
  intros H. unfold tab_content, when_nonempty in H.
  destruct t;
    [destruct (use_cases c), (marketing_points c) | |
     destruct (frameworks (tech_stack c)), (databases (tech_stack c)),
       (integrations c) |];
    cbn [app] in H;
    repeat (apply elem_of_cons in H as [H | H];
            [first [discriminate H
                   | injection H as ->;
                     solve [repeat first [reflexivity | left; reflexivity | right]]] |]);
    apply elem_of_nil in H; contradiction.
Qed.

Lemma numbered_keys l : key <$> numbered l = Index <$> seq 0 (length l).
Proof. apply imap_keys. reflexivity. Qed.

Lemma by_index_keys l : key <$> by_index l = Index <$> seq 0 (length l).
Proof. apply imap_keys. reflexivity. Qed.

Lemma by_entry_keys l : key <$> by_entry l = Entry <$> l.
Proof. unfold by_entry. rewrite <- list_fmap_compose. reflexivity. Qed.

Lemma numbered_numbers l : number <$> numbered l = Some <$> seq 1 (length l).
Proof.
  unfold numbered. rewrite (imap_keys _ number (fun i => Some (i + 1)%nat));
    [| reflexivity].
  rewrite <- fmap_S_seq, <- list_fmap_compose. apply list_fmap_ext.
  intros _ i _. simpl. f_equal. lia.
Qed.

#[local] Instance Index_inj : Inj eq eq Index.
Proof. intros i j [= H]. exact H. Qed.

#[local] Instance Entry_inj : Inj eq eq Entry.
Proof. intros i j [= H]. exact H. Qed.

Lemma index_keys_NoDup n : NoDup (Index <$> seq 0 n).
Proof. apply NoDup_fmap_2; [apply _ | apply NoDup_seq]. Qed.

(** X14. In every list of the page a number that is shown counts from 1
    in the order of the data. The keys of the lists of the Overview and
    Features tabs are the indices, so they are pairwise distinct; those
    of the Tech Stack tab are the entries themselves, so they are
    pairwise distinct exactly when no language, framework, database or
    integration is listed twice. *)
Theorem list_numbers_and_keys (c : Content) :
  (forall t its, Items its ∈ tab_content t c ->
     number <$> its = Some <$> seq 1 (length its)
     \/ Forall (fun i => number i = None) its) /\
  (forall t its, t <> tech -> Items its ∈ tab_content t c -> NoDup (key <$> its)) /\
  ((forall its, Items its ∈ tab_content tech c -> NoDup (key <$> its)) <->
   NoDup (languages (tech_stack c)) /\ NoDup (frameworks (tech_stack c)) /\
   NoDup (databases (tech_stack c)) /\ NoDup (integrations c)).
Proof.
  assert (Hnum : forall l, number <$> numbered l = Some <$> seq 1 (length (numbered l))).
  { intros l. unfold numbered at 2. rewrite length_imap. apply numbered_numbers. }
  assert (Hidx : forall l, Forall (fun i => number i = None) (by_index l)).
  { intros l. apply Forall_forall. intros i Hi.
    apply elem_of_lookup_imap in Hi as (n & x & -> & _). reflexivity. }
  assert (Hent : forall l, Forall (fun i => number i = None) (by_entry l)).
  { intros l. apply Forall_forall. intros i Hi.
    apply list_elem_of_fmap in Hi as (x & -> & _). reflexivity. }
  split; [| split].
  - intros t its Hin. apply items_of_tab in Hin.
    destruct t; [destruct Hin as [-> | ->] | subst its
                 | destruct Hin as [-> | [-> | [-> | ->]]] | contradiction]; auto.
  - intros t its Hne Hin. apply items_of_tab in Hin.
    destruct t; [destruct Hin as [-> | ->] | subst its | contradiction | contradiction].
    + rewrite numbered_keys. apply index_keys_NoDup.
    + rewrite by_index_keys. apply index_keys_NoDup.
    + rewrite numbered_keys. apply index_keys_NoDup.
  - split.
    + intros H.
      assert (Hsec : forall title l,
                (forall bs, Items (by_entry l) ∈ section_of title by_entry l ++ bs)
                \/ l = []).
      { intros title [|x l]; [right; reflexivity | left]. intros bs. simpl.
        right. left. }
      assert (Hnd : forall l, (Items (by_entry l) ∈ tab_content tech c \/ l = []) -> NoDup l).
      { intros l [Hin | ->]; [| constructor].
        apply H in Hin. rewrite by_entry_keys in Hin.
        apply (NoDup_fmap_1 Entry). exact Hin. }
      split; [apply Hnd; left; simpl; right; left |].
      split; [| split]; apply Hnd.
      * destruct (Hsec (js "Frameworks & Libraries") (frameworks (tech_stack c)))
          as [Hin | ->]; [left | right; reflexivity].
        simpl. do 2 right. apply Hin.
      * destruct (Hsec (js "Databases") (databases (tech_stack c)))
          as [Hin | ->]; [left | right; reflexivity].
        simpl. do 2 right. apply elem_of_app. right. apply Hin.
      * destruct (Hsec (js "Integrations") (integrations c))
          as [Hin | ->]; [left | right; reflexivity].
        simpl. do 2 right. apply elem_of_app. right. apply elem_of_app. right.
        rewrite <- (app_nil_r (when_nonempty _ _)). apply Hin.
    + intros (Hl & Hf & Hd & Hi) its Hin. apply items_of_tab in Hin.
      destruct Hin as [-> | [-> | [-> | ->]]]; rewrite by_entry_keys;
        apply NoDup_fmap_2; (apply _ || assumption).
Qed.

End DocumentationPage.
